(** * Verification of the deployment-orchestration core of specify_cli

    Shallow embedding of
    - [specify_cli/utils/dependency_graph.py]   (module [DepGraph])
    - [specify_cli/utils/retry_policies.py]     (modules [Backoff], [Breaker])
    - [specify_cli/validation/fix_orchestrator.py] (module [FixOrch])
    - [specify_cli/validation/validation_session.py] (module [Session])
    - [specify_cli/validation/resource_deployer_simple.py] (module [Deployer]) *)

From Stdlib Require Import ZArith Lia List String Bool Relations QArith Qminmax Lqa Sorted.
From stdpp Require Import base list list_monad gmap strings pretty.

Open Scope Z_scope.

Module DepGraph.

(** ** Data model: [class DependencyGraph]

    [graph]         : node -> list of dependent nodes        ([self.graph])
    [reverse_graph] : node -> list of dependency nodes       ([self.reverse_graph])
    [nodes]         : the Python set [self.nodes], given by its iteration
                      order; no statement below fixes this order, so the
                      results hold for every iteration order of the set. *)
Record DependencyGraph := mkGraph {
  graph : gmap string (list string);
  reverse_graph : gmap string (list string);
  nodes : list string
}.

(** [self.graph[n]] and [self.reverse_graph[n]].  Every key the code looks
    up is a node, and well-formed graphs ([wf] below) have an entry for
    every node, so the default [[]] is never used on them. *)
Definition dependents (g : DependencyGraph) (n : string) : list string :=
  default [] (graph g !! n).
Definition get_dependencies (g : DependencyGraph) (n : string) : list string :=
  default [] (reverse_graph g !! n).

Definition empty_graph : DependencyGraph := mkGraph ∅ ∅ [].

(** [add_node] *)
Definition add_node (g : DependencyGraph) (node : string) : DependencyGraph :=
  if bool_decide (node ∈ nodes g) then g
  else mkGraph (<[node := []]> (graph g)) (<[node := []]> (reverse_graph g))
               (nodes g ++ [node]).

(** [add_dependency node depends_on]: edge [depends_on -> node]. *)
Definition add_dependency (g : DependencyGraph) (node depends_on : string)
  : DependencyGraph :=
  let g1 := add_node (add_node g node) depends_on in
  let fwd := dependents g1 depends_on in
  let g2 := if bool_decide (node ∈ fwd) then g1
            else mkGraph (<[depends_on := fwd ++ [node]]> (graph g1))
                         (reverse_graph g1) (nodes g1) in
  let bwd := get_dependencies g2 node in
  if bool_decide (depends_on ∈ bwd) then g2
  else mkGraph (graph g2) (<[node := bwd ++ [depends_on]]> (reverse_graph g2))
               (nodes g2).

(** Raised errors. *)
Inductive GraphError :=
| CyclicDependencyError (cycle_path : list string)
| RuntimeError (msg : string).

Inductive result (A : Type) :=
| Ok (a : A)
| Err (e : GraphError).
Arguments Ok {A} a.
Arguments Err {A} e.

(** [list.index(x)]: position of the first occurrence. *)
Fixpoint index_of (x : string) (l : list string) : option nat :=
  match l with
  | [] => None
  | y :: l' => if String.eqb x y then Some 0%nat
               else option_map S (index_of x l')
  end.

(** ** [get_ordered_resources]: Kahn's algorithm *)

(** The inner [for dependent in self.graph[node]] loop: decrement the
    in-degree and enqueue the dependents reaching zero. *)
Fixpoint relax (ds : list string) (queue : list string)
    (in_degree : gmap string Z) : list string * gmap string Z :=
  match ds with
  | [] => (queue, in_degree)
  | dependent :: ds' =>
      let v := default 0 (in_degree !! dependent) - 1 in
      let in_degree' := <[dependent := v]> in_degree in
      let queue' := if Z.eqb v 0 then queue ++ [dependent] else queue in
      relax ds' queue' in_degree'
  end.

(** The [while queue] loop.  Every iteration moves one node from the queue
    to [ordered]; [kahn_loop_terminates] below shows that [length nodes]
    iterations always empty the queue, so the [fuel = 0] case is never
    reached from [get_ordered_resources]. *)
Fixpoint kahn_loop (g : DependencyGraph) (fuel : nat) (queue ordered : list string)
    (in_degree : gmap string Z) : list string * gmap string Z :=
  match fuel with
  | O => (ordered, in_degree)
  | S fuel' =>
      match queue with
      | [] => (ordered, in_degree)
      | node :: queue' =>
          let '(queue'', in_degree') := relax (dependents g node) queue' in_degree in
          kahn_loop g fuel' queue'' (ordered ++ [node]) in_degree'
      end
  end.

(** [_find_cycle_path].  The [while True] loop is [walk]; its dead-end
    branch returns [dead_end], the value of the recursive call
    [self._find_cycle_path(nodes_in_cycle[1:])] (a pure call, so computing
    it up front does not change the result).  The loop stops at the latest
    when [len(path) > len(nodes_in_cycle) * 2], which takes at most
    [2 * len(nodes_in_cycle)] iterations, so the fuel [2 * n + 1] never
    runs out. *)
Fixpoint walk (g : DependencyGraph) (nodes_in_cycle dead_end : list string)
    (fuel : nat) (path visited : list string) (current : string) : list string :=
  match fuel with
  | O => path
  | S fuel' =>
      let dependencies :=
        List.filter (fun dep => bool_decide (dep ∈ nodes_in_cycle))
                    (get_dependencies g current) in
      match dependencies with
      | [] => if Nat.ltb 1 (List.length nodes_in_cycle) then dead_end else path
      | next_node :: _ =>
          if bool_decide (next_node ∈ visited) then
            match index_of next_node path with
            | Some cycle_start => drop cycle_start path ++ [next_node]
            | None => path
            end
          else
            let path' := path ++ [next_node] in
            if Nat.ltb (List.length nodes_in_cycle * 2) (List.length path')
            then take 10 path'
            else walk g nodes_in_cycle dead_end fuel' path' (next_node :: visited)
                      next_node
      end
  end.

Fixpoint find_cycle_path (g : DependencyGraph) (nodes_in_cycle : list string)
  : list string :=
  match nodes_in_cycle with
  | [] => []
  | start :: rest =>
      walk g nodes_in_cycle (find_cycle_path g rest)
           (2 * List.length nodes_in_cycle + 1)%nat [start] [start] start
  end.

(** [in_degree = {node: len(self.reverse_graph[node]) for node in self.nodes}] *)
Definition initial_in_degree (g : DependencyGraph) : gmap string Z :=
  list_to_map (map (fun n => (n, Z.of_nat (List.length (get_dependencies g n))))
                   (nodes g)).

Definition get_ordered_resources (g : DependencyGraph) : result (list string) :=
  let in_degree := initial_in_degree g in
  let queue := List.filter (fun n => bool_decide (in_degree !! n = Some 0)) (nodes g) in
  let '(ordered, in_degree') := kahn_loop g (List.length (nodes g)) queue [] in_degree in
  let remaining :=
    List.filter (fun n => Z.ltb 0 (default 0 (in_degree' !! n))) (nodes g) in
  match remaining with
  | [] => Ok ordered
  | _ => Err (CyclicDependencyError (find_cycle_path g remaining))
  end.

(** [has_cycle]: catches [CyclicDependencyError] only. *)
Definition has_cycle (g : DependencyGraph) : bool :=
  match get_ordered_resources g with
  | Ok _ => false
  | Err (CyclicDependencyError _) => true
  | Err (RuntimeError _) => false
  end.

(** ** [get_deployment_batches] *)

(** The [while len(deployed) < len(ordered)] loop.  Each iteration adds at
    least one new node to [deployed], so [len(ordered) + 1] iterations
    suffice ([batches_loop_ok] below). *)
Fixpoint batches_loop (g : DependencyGraph) (fuel : nat) (ordered : list string)
    (batches : list (list string)) (deployed : gset string)
  : result (list (list string)) :=
  match fuel with
  | O => Ok batches
  | S fuel' =>
      if Nat.ltb (size deployed) (List.length ordered) then
        let batch :=
          List.filter (fun resource =>
              negb (bool_decide (resource ∈ deployed)) &&
              forallb (fun dep => bool_decide (dep ∈ deployed))
                      (get_dependencies g resource)) ordered in
        match batch with
        | [] => Err (RuntimeError "Unable to form deployment batch")
        | _ => batches_loop g fuel' ordered (batches ++ [batch])
                            (deployed ∪ list_to_set batch)
        end
      else Ok batches
  end.

Definition get_deployment_batches (g : DependencyGraph)
  : result (list (list string)) :=
  match get_ordered_resources g with
  | Err e => Err e
  | Ok ordered => batches_loop g (S (List.length ordered)) ordered [] ∅
  end.

(** The example of the specification: C depends on B depends on A. *)
Definition chain_ABC : DependencyGraph :=
  add_dependency (add_dependency empty_graph "B" "A") "C" "B".

Example chain_ABC_order : get_ordered_resources chain_ABC = Ok ["A"; "B"; "C"].
Proof. vm_compute. reflexivity. Qed.

Example chain_ABC_batches :
  get_deployment_batches chain_ABC = Ok [["A"]; ["B"]; ["C"]].
Proof. vm_compute. reflexivity. Qed.

Example chain_ABC_cycle :
  get_ordered_resources (add_dependency chain_ABC "A" "C")
  = Err (CyclicDependencyError ["B"; "A"; "C"; "B"]).
Proof. vm_compute. reflexivity. Qed.


(** ** Well-formed graphs: the invariant [add_node]/[add_dependency] keep *)

(** [x] must be deployed before [y]: [x] is a dependency of [y]. *)
Definition edge (g : DependencyGraph) (x y : string) : Prop :=
  x ∈ get_dependencies g y.

Record wf (g : DependencyGraph) : Prop := {
  wf_nodes_nodup : NoDup (nodes g);
  wf_dom : ∀ n, n ∈ nodes g →
    is_Some (graph g !! n) ∧ is_Some (reverse_graph g !! n);
  wf_rev_nodup : ∀ n, NoDup (get_dependencies g n);
  wf_fwd_nodup : ∀ n, NoDup (dependents g n);
  wf_sym : ∀ x y, x ∈ get_dependencies g y ↔ y ∈ dependents g x;
  wf_edge_nodes : ∀ x y, x ∈ get_dependencies g y → x ∈ nodes g ∧ y ∈ nodes g
}.

Lemma wf_empty : wf empty_graph.
Proof.
  split; unfold dependents, get_dependencies; simpl.
  - constructor.
  - intros n Hn. set_solver.
  - intros n. rewrite lookup_empty. constructor.
  - intros n. rewrite lookup_empty. constructor.
  - intros x y. rewrite !lookup_empty. simpl. set_solver.
  - intros x y. rewrite lookup_empty. simpl. set_solver.
Qed.

Lemma add_node_id g n : n ∈ nodes g → add_node g n = g.
Proof. intros H. unfold add_node. by rewrite bool_decide_eq_true_2. Qed.

Section AddNode.
Variables (g : DependencyGraph) (n : string).
Hypothesis Hnew : n ∉ nodes g.

Let g' := mkGraph (<[n := []]> (graph g)) (<[n := []]> (reverse_graph g))
                  (nodes g ++ [n]).

Lemma add_node_new : add_node g n = g'.
Proof. unfold add_node. by rewrite bool_decide_eq_false_2. Qed.

Lemma add_node_deps m :
  get_dependencies g' m = if decide (m = n) then [] else get_dependencies g m.
Proof.
  unfold get_dependencies; simpl. destruct (decide (m = n)) as [->|Hne].
  - by rewrite lookup_insert_eq.
  - by rewrite lookup_insert_ne.
Qed.

Lemma add_node_dependents m :
  dependents g' m = if decide (m = n) then [] else dependents g m.
Proof.
  unfold dependents; simpl. destruct (decide (m = n)) as [->|Hne].
  - by rewrite lookup_insert_eq.
  - by rewrite lookup_insert_ne.
Qed.

Lemma wf_add_node_new : wf g → wf g'.
Proof.
  intros [Hnd Hdom Hrnd Hfnd Hsym Hen].
  split.
  - simpl. apply NoDup_app. split; [done|]. split; [|apply NoDup_singleton].
    intros x Hx Hx'. apply list_elem_of_singleton in Hx'. subst. done.
  - intros m Hm. simpl in Hm. simpl.
    destruct (decide (m = n)) as [->|Hne].
    + rewrite !lookup_insert_eq. done.
    + rewrite !lookup_insert_ne by done. apply Hdom. set_solver.
  - intros m. rewrite add_node_deps. case_decide; [constructor|done].
  - intros m. rewrite add_node_dependents. case_decide; [constructor|done].
  - intros x y. rewrite add_node_deps, add_node_dependents.
    destruct (decide (y = n)) as [->|Hy], (decide (x = n)) as [->|Hx];
      try rewrite Hsym; try set_solver.
  - intros x y. rewrite add_node_deps. simpl.
    destruct (decide (y = n)); [set_solver|]. intros H. apply Hen in H. set_solver.
Qed.

End AddNode.

Lemma wf_add_node g n : wf g → wf (add_node g n).
Proof.
  intros Hwf. destruct (decide (n ∈ nodes g)) as [Hin|Hin].
  - by rewrite add_node_id.
  - rewrite add_node_new by done. by apply wf_add_node_new.
Qed.

Lemma add_node_nodes g n m : m ∈ nodes g → m ∈ nodes (add_node g n).
Proof.
  intros H. unfold add_node. case_bool_decide; simpl; set_solver.
Qed.

Lemma add_node_self g n : n ∈ nodes (add_node g n).
Proof.
  unfold add_node. case_bool_decide; simpl; set_solver.
Qed.

(** Inserting the edge [b -> a] into a well-formed graph holding both nodes
    and not yet holding the edge. *)
Section AddEdge.
Variables (g : DependencyGraph) (a b : string).
Hypothesis Hwf : wf g.
Hypothesis Ha : a ∈ nodes g.
Hypothesis Hb : b ∈ nodes g.
Hypothesis Hab : a ∉ dependents g b.

Let g' := mkGraph (<[b := dependents g b ++ [a]]> (graph g))
                  (<[a := get_dependencies g a ++ [b]]> (reverse_graph g))
                  (nodes g).

Lemma add_edge_deps m :
  get_dependencies g' m =
    if decide (m = a) then get_dependencies g a ++ [b] else get_dependencies g m.
Proof.
  unfold get_dependencies at 1; simpl. destruct (decide (m = a)) as [->|Hne].
  - by rewrite lookup_insert_eq.
  - by rewrite lookup_insert_ne.
Qed.

Lemma add_edge_dependents m :
  dependents g' m = if decide (m = b) then dependents g b ++ [a] else dependents g m.
Proof.
  unfold dependents at 1; simpl. destruct (decide (m = b)) as [->|Hne].
  - by rewrite lookup_insert_eq.
  - by rewrite lookup_insert_ne.
Qed.

Lemma wf_add_edge : wf g'.
Proof.
  destruct Hwf as [Hnd Hdom Hrnd Hfnd Hsym Hen].
  assert (Hba : b ∉ get_dependencies g a) by (rewrite Hsym; done).
  split.
  - done.
  - intros m Hm. simpl. split.
    + destruct (decide (m = b)) as [->|]; [by rewrite lookup_insert_eq|].
      rewrite lookup_insert_ne by done. by apply Hdom.
    + destruct (decide (m = a)) as [->|]; [by rewrite lookup_insert_eq|].
      rewrite lookup_insert_ne by done. by apply Hdom.
  - intros m. rewrite add_edge_deps. case_decide; [|done]. subst.
    apply NoDup_app. split; [done|]. split; [|apply NoDup_singleton].
    intros x Hx Hx'. apply list_elem_of_singleton in Hx'. by subst.
  - intros m. rewrite add_edge_dependents. case_decide; [|done]. subst.
    apply NoDup_app. split; [done|]. split; [|apply NoDup_singleton].
    intros x Hx Hx'. apply list_elem_of_singleton in Hx'. by subst.
  - intros x y. rewrite add_edge_deps, add_edge_dependents.
    destruct (decide (y = a)) as [->|Hy], (decide (x = b)) as [->|Hx];
      rewrite ?elem_of_app, ?list_elem_of_singleton, ?Hsym; naive_solver.
  - intros x y. rewrite add_edge_deps. simpl.
    destruct (decide (y = a)) as [->|Hy]; [|by apply Hen].
    rewrite elem_of_app, list_elem_of_singleton. intros [H| ->]; [by apply Hen|].
    done.
Qed.

Lemma add_edge_nodes : nodes g' = nodes g.
Proof. done. Qed.

End AddEdge.

Lemma wf_add_dependency g node depends_on :
  wf g → wf (add_dependency g node depends_on).
Proof.
  intros Hwf. unfold add_dependency. cbv zeta.
  set (g1 := add_node (add_node g node) depends_on).
  assert (Hwf1 : wf g1) by (by apply wf_add_node, wf_add_node).
  assert (Hn1 : node ∈ nodes g1) by (by apply add_node_nodes, add_node_self).
  assert (Hd1 : depends_on ∈ nodes g1) by apply add_node_self.
  destruct (decide (node ∈ dependents g1 depends_on)) as [Hin|Hin].
  - rewrite (bool_decide_eq_true_2 _ Hin).
    rewrite (bool_decide_eq_true_2 (depends_on ∈ get_dependencies g1 node)); [done|].
    by apply (wf_sym _ Hwf1).
  - rewrite (bool_decide_eq_false_2 _ Hin).
    change (get_dependencies (mkGraph (<[depends_on:=dependents g1 depends_on ++ [node]]>
              (graph g1)) (reverse_graph g1) (nodes g1)) node)
      with (get_dependencies g1 node).
    rewrite (bool_decide_eq_false_2 (depends_on ∈ get_dependencies g1 node)).
    + by apply (wf_add_edge g1 node depends_on).
    + rewrite (wf_sym _ Hwf1). done.
Qed.

Lemma add_dependency_nodes g node depends_on m :
  m ∈ nodes g → m ∈ nodes (add_dependency g node depends_on).
Proof.
  intros H. unfold add_dependency.
  assert (H1 : m ∈ nodes (add_node (add_node g node) depends_on))
    by (by apply add_node_nodes, add_node_nodes).
  repeat case_bool_decide; simpl; done.
Qed.

(** ** Kahn's loop: invariant *)

(** Dependencies of a node not yet in [ordered]. *)
Definition count_pending (o deps : list string) : nat :=
  List.length (List.filter (fun d => negb (bool_decide (d ∈ o))) deps).

Lemma count_pending_zero o deps :
  count_pending o deps = 0%nat → ∀ d, d ∈ deps → d ∈ o.
Proof.
  unfold count_pending. intros H d Hd.
  apply length_zero_iff_nil in H.
  destruct (decide (d ∈ o)) as [|Hno]; [done|].
  assert (Hf : In d (List.filter (fun d => negb (bool_decide (d ∈ o))) deps)).
  { apply filter_In. split; [by apply list_elem_of_In|].
    by rewrite bool_decide_eq_false_2. }
  rewrite H in Hf. destruct Hf.
Qed.

Lemma count_pending_all o deps :
  (∀ d, d ∈ deps → d ∈ o) → count_pending o deps = 0%nat.
Proof.
  unfold count_pending. induction deps as [|d deps IH]; intros H; [done|].
  simpl. rewrite bool_decide_eq_true_2 by set_solver. simpl.
  apply IH. set_solver.
Qed.

Lemma count_pending_snoc o x deps :
  x ∉ o → NoDup deps →
  (count_pending (o ++ [x]) deps + (if bool_decide (x ∈ deps) then 1 else 0))%nat
  = count_pending o deps.
Proof.
  unfold count_pending. intros Hx. induction deps as [|d deps IH]; intros Hnd.
  - done.
  - apply NoDup_cons in Hnd as [Hd Hnd]. simpl.
    specialize (IH Hnd).
    destruct (decide (d = x)) as [->|Hne].
    + rewrite (bool_decide_eq_true_2 (x ∈ o ++ [x])) by set_solver.
      rewrite (bool_decide_eq_false_2 (x ∈ o)) by done.
      rewrite (bool_decide_eq_true_2 (x ∈ x :: deps)) by set_solver.
      rewrite (bool_decide_eq_false_2 (x ∈ deps)) in IH by done. simpl. lia.
    + assert (Hiff : d ∈ o ++ [x] ↔ d ∈ o) by set_solver.
      rewrite (bool_decide_ext _ _ Hiff).
      assert (Hiff2 : x ∈ d :: deps ↔ x ∈ deps) by set_solver.
      rewrite (bool_decide_ext _ _ Hiff2).
      destruct (bool_decide (d ∈ o)); simpl; lia.
Qed.

Lemma relax_spec ds q m :
  NoDup ds →
  fst (relax ds q m) =
    q ++ List.filter (fun d => Z.eqb (default 0 (m !! d) - 1) 0) ds ∧
  ∀ k, snd (relax ds q m) !! k =
    if bool_decide (k ∈ ds) then Some (default 0 (m !! k) - 1) else m !! k.
Proof.
  revert q m. induction ds as [|d ds IH]; intros q m Hnd.
  - simpl. split; [by rewrite app_nil_r|]. intros k. done.
  - apply NoDup_cons in Hnd as [Hd Hnd]. simpl.
    destruct (IH (if Z.eqb (default 0 (m !! d) - 1) 0 then q ++ [d] else q)
                 (<[d:=default 0 (m !! d) - 1]> m) Hnd) as [IH1 IH2].
    split.
    + rewrite IH1.
      assert (Hf : List.filter (fun e => Z.eqb (default 0 (<[d:=default 0 (m !! d) - 1]> m !! e) - 1) 0) ds
                 = List.filter (fun e => Z.eqb (default 0 (m !! e) - 1) 0) ds).
      { apply filter_ext_in. intros e He. rewrite lookup_insert_ne; [done|].
        intros ->. apply Hd. by apply list_elem_of_In. }
      rewrite Hf. destruct (Z.eqb _ 0); simpl; [by rewrite <- app_assoc|done].
    + intros k. rewrite IH2.
      destruct (decide (k = d)) as [->|Hne].
      * rewrite (bool_decide_eq_false_2 (d ∈ ds)) by done.
        rewrite (bool_decide_eq_true_2 (d ∈ d :: ds)) by set_solver.
        by rewrite lookup_insert_eq.
      * rewrite lookup_insert_ne by done.
        assert (Hiff : k ∈ d :: ds ↔ k ∈ ds) by set_solver.
        by rewrite (bool_decide_ext _ _ Hiff).
Qed.

Record kahn_inv (g : DependencyGraph) (q o : list string) (m : gmap string Z)
  : Prop := {
  ki_nodup : NoDup (o ++ q);
  ki_nodes : ∀ x, x ∈ o ++ q → x ∈ nodes g;
  ki_count : ∀ n, n ∈ nodes g →
    m !! n = Some (Z.of_nat (count_pending o (get_dependencies g n)));
  ki_queue : ∀ n, n ∈ nodes g → n ∉ o → (n ∈ q ↔ m !! n = Some 0);
  ki_closed : ∀ x y, y ∈ o → edge g x y → x ∈ o;
  ki_order : ∀ i j x y, o !! i = Some x → o !! j = Some y → edge g x y → (i < j)%nat
}.

Lemma elem_of_List_filter {A} (p : A → bool) (l : list A) x :
  x ∈ List.filter p l ↔ x ∈ l ∧ p x = true.
Proof. rewrite !list_elem_of_In. apply filter_In. Qed.

Lemma kahn_step g x q o m :
  wf g → kahn_inv g (x :: q) o m →
  kahn_inv g (fst (relax (dependents g x) q m)) (o ++ [x])
             (snd (relax (dependents g x) q m)).
Proof.
  intros Hwf [Hnd Hnodes Hcnt Hq Hcl Hord].
  destruct (relax_spec (dependents g x) q m (wf_fwd_nodup _ Hwf x)) as [Hq' Hm'].
  rewrite Hq'.
  set (ds := dependents g x) in *.
  set (f := List.filter (fun d => Z.eqb (default 0 (m !! d) - 1) 0) ds).
  assert (Hxo : x ∉ o).
  { apply NoDup_app in Hnd as (_ & Hdis & _). intros Hx. apply (Hdis x Hx). set_solver. }
  assert (Hqo : ∀ n, n ∈ q → (n ∉ o) ∧ (n ≠ x)).
  { apply NoDup_app in Hnd as (_ & Hdis & Hnd2). apply NoDup_cons in Hnd2 as [Hxq _].
    intros n Hn. split; [intros Ho; apply (Hdis n Ho); set_solver | by intros ->]. }
  assert (Hxn : x ∈ nodes g) by (apply Hnodes; set_solver).
  assert (Hx0 : m !! x = Some 0) by (apply Hq; set_solver).
  assert (Hxdeps : ∀ d, edge g d x → d ∈ o).
  { intros d Hd. rewrite Hcnt in Hx0 by done. injection Hx0 as Hx0.
    apply (count_pending_zero o (get_dependencies g x)); [lia|done]. }
  assert (Hds : ∀ n, n ∈ ds ↔ edge g x n).
  { intros n. unfold edge, ds. by rewrite (wf_sym _ Hwf). }
  assert (Hdsn : ∀ n, n ∈ ds → n ∈ nodes g).
  { intros n Hn. apply Hds in Hn. by apply (wf_edge_nodes _ Hwf) in Hn as [_ ?]. }
  assert (Hdso : ∀ n, n ∈ ds → n ∉ o).
  { intros n Hn Ho. apply Hds in Hn. apply Hxo. by apply (Hcl x n). }
  assert (Hnewc : ∀ n, n ∈ nodes g →
     (Z.of_nat (count_pending (o ++ [x]) (get_dependencies g n))
      + (if bool_decide (n ∈ ds) then 1 else 0))
     = Z.of_nat (count_pending o (get_dependencies g n))).
  { intros n Hn. rewrite <- (count_pending_snoc o x) by (done || apply (wf_rev_nodup _ Hwf)).
    assert (Hiff : x ∈ get_dependencies g n ↔ n ∈ ds) by (rewrite Hds; done).
    rewrite (bool_decide_ext _ _ Hiff). destruct (bool_decide (n ∈ ds)); lia. }
  assert (Hf : ∀ n, n ∈ f ↔ n ∈ ds ∧ m !! n = Some 1).
  { intros n. unfold f. rewrite elem_of_List_filter.
    split; intros [Hn Hv]; split; try done.
    - rewrite Hcnt in Hv |- * by auto. simpl in Hv. apply Z.eqb_eq in Hv.
      f_equal. lia.
    - rewrite Hv. done. }
  assert (Hq0 : ∀ n, n ∈ q → m !! n = Some 0).
  { intros n Hn. destruct (Hqo n Hn). apply Hq; [apply Hnodes; set_solver|done|set_solver]. }
  assert (Hqds : ∀ n, n ∈ q → n ∉ ds).
  { intros n Hn Hd. pose proof (Hq0 n Hn) as H0.
    assert (Hnn : n ∈ nodes g) by (apply Hnodes; set_solver).
    rewrite Hcnt in H0 by done. injection H0 as H0.
    apply Hds in Hd. apply (count_pending_zero o) with (d := x) in Hd; [done|lia]. }
  split.
  - (* NoDup *)
    rewrite <- app_assoc. simpl.
    replace (o ++ x :: q ++ f) with ((o ++ x :: q) ++ f) by (by rewrite <- app_assoc).
    apply NoDup_app. split; [done|]. split.
    + intros n Hn Hnf. apply Hf in Hnf as [Hnds Hn1].
      apply elem_of_app in Hn as [Hn|Hn]; [by apply (Hdso n)|].
      apply elem_of_cons in Hn as [->|Hn]; [congruence|].
      rewrite Hq0 in Hn1 by done. congruence.
    + unfold f. apply NoDup_ListNoDup, List.NoDup_filter, NoDup_ListNoDup.
      apply (wf_fwd_nodup _ Hwf).
  - (* nodes *)
    intros n Hn. rewrite <- app_assoc in Hn. simpl in Hn.
    apply elem_of_app in Hn as [Hn|Hn]; [apply Hnodes; set_solver|].
    apply elem_of_cons in Hn as [->|Hn]; [done|].
    apply elem_of_app in Hn as [Hn|Hn]; [apply Hnodes; set_solver|].
    apply Hf in Hn as [Hn _]. by apply Hdsn.
  - (* count *)
    intros n Hn. rewrite Hm'. pose proof (Hnewc n Hn) as Hc.
    case_bool_decide as Hnd'.
    + rewrite Hcnt by done. simpl. f_equal. lia.
    + rewrite Hcnt by done. f_equal. lia.
  - (* queue *)
    intros n Hn Hno. rewrite Hm'. rewrite elem_of_app.
    assert (Hno' : (n ∉ o) ∧ (n ≠ x)) by set_solver.
    case_bool_decide as Hnds.
    + rewrite Hcnt by done. simpl. split.
      * intros [Hnq|Hnf]; [by destruct (Hqds n Hnq)|].
        apply Hf in Hnf as [_ H1]. rewrite Hcnt in H1 by done.
        injection H1 as H1. rewrite H1. done.
      * intros H0. right. apply Hf. split; [done|]. rewrite Hcnt by done.
        injection H0 as H0. f_equal. lia.
    + split.
      * intros [Hnq|Hnf]; [by apply Hq0|]. by apply Hf in Hnf as [? _].
      * intros H0. left. assert (Hnxq : n ∈ x :: q) by (apply Hq; tauto).
        set_solver.
  - (* closed *)
    intros a b Hb Hab. apply elem_of_app in Hb as [Hb|Hb].
    + apply elem_of_app. left. by apply (Hcl a b).
    + apply list_elem_of_singleton in Hb as ->. apply elem_of_app. left. by apply Hxdeps.
  - (* order *)
    intros i j a b Hi Hj Hab.
    apply lookup_app_Some in Hi, Hj.
    destruct Hi as [Hi|[Hi1 Hi2]], Hj as [Hj|[Hj1 Hj2]].
    + by apply (Hord i j a b).
    + apply lookup_lt_Some in Hi. apply list_lookup_singleton_Some in Hj2 as [? _]. lia.
    + apply list_lookup_singleton_Some in Hi2 as [_ ->].
      exfalso. apply Hxo. apply (Hcl _ b); [|done]. by apply list_elem_of_lookup_2 in Hj.
    + apply list_lookup_singleton_Some in Hi2 as [_ ->].
      apply list_lookup_singleton_Some in Hj2 as [_ ->].
      exfalso. apply Hxo. by apply Hxdeps.
Qed.

Lemma list_to_map_lookup_nodes (f : string → Z) (l : list string) n :
  NoDup l → n ∈ l → (list_to_map (map (fun k => (k, f k)) l) : gmap string Z) !! n = Some (f n).
Proof.
  induction l as [|k l IH]; intros Hnd Hn; [set_solver|].
  apply NoDup_cons in Hnd as [Hk Hnd]. simpl.
  destruct (decide (n = k)) as [->|Hne]; [by rewrite lookup_insert_eq|].
  rewrite lookup_insert_ne by done. apply IH; [done|set_solver].
Qed.

Lemma count_pending_nil deps : count_pending [] deps = List.length deps.
Proof.
  unfold count_pending. induction deps as [|d deps IH]; [done|].
  cbn [List.filter List.length].
  rewrite (bool_decide_eq_false_2 (d ∈ [])) by set_solver.
  cbn [negb List.length]. by rewrite IH.
Qed.

Lemma kahn_init g :
  wf g →
  kahn_inv g (List.filter (fun n => bool_decide (initial_in_degree g !! n = Some 0)) (nodes g))
           [] (initial_in_degree g).
Proof.
  intros Hwf.
  assert (Hm : ∀ n, n ∈ nodes g →
     initial_in_degree g !! n = Some (Z.of_nat (List.length (get_dependencies g n)))).
  { intros n Hn. unfold initial_in_degree.
    apply (list_to_map_lookup_nodes (fun k => Z.of_nat (List.length (get_dependencies g k))));
      [apply (wf_nodes_nodup _ Hwf)|done]. }
  split.
  - simpl. apply NoDup_ListNoDup, List.NoDup_filter, NoDup_ListNoDup.
    apply (wf_nodes_nodup _ Hwf).
  - intros x Hx. simpl in Hx. by apply elem_of_List_filter in Hx as [? _].
  - intros n Hn. rewrite count_pending_nil. by apply Hm.
  - intros n Hn _. rewrite elem_of_List_filter. cbv beta. rewrite bool_decide_eq_true. tauto.
  - intros x y Hy. set_solver.
  - intros i j x y Hi. done.
Qed.

Lemma kahn_loop_spec g :
  wf g → ∀ fuel q o m, kahn_inv g q o m →
  (List.length (nodes g) <= fuel + List.length o)%nat →
  kahn_inv g [] (kahn_loop g fuel q o m).1 (kahn_loop g fuel q o m).2.
Proof.
  intros Hwf fuel. induction fuel as [|fuel IH]; intros q o m Hinv Hlen.
  - destruct q as [|x q]; [done|]. exfalso.
    assert (Hle : (List.length (o ++ x :: q) <= List.length (nodes g))%nat).
    { apply NoDup_incl_length.
      - apply NoDup_ListNoDup, (ki_nodup _ _ _ _ Hinv).
      - intros z Hz. apply list_elem_of_In, (ki_nodes _ _ _ _ Hinv), list_elem_of_In, Hz. }
    rewrite length_app in Hle. simpl in Hle. lia.
  - destruct q as [|x q]; [done|]. simpl.
    pose proof (kahn_step g x q o m Hwf Hinv) as Hstep.
    destruct (relax (dependents g x) q m) as [q' m'] eqn:Hr. simpl in Hstep.
    apply IH; [done|]. rewrite length_app. simpl. lia.
Qed.

(** At the end of the loop, the nodes left with a positive in-degree are
    exactly the nodes not in [ordered]. *)
Lemma kahn_final_remaining g o m :
  kahn_inv g [] o m → ∀ n, n ∈ nodes g →
  (Z.ltb 0 (default 0 (m !! n)) = negb (bool_decide (n ∈ o))).
Proof.
  intros Hinv n Hn.
  rewrite (ki_count _ _ _ _ Hinv n Hn). simpl.
  destruct (decide (n ∈ o)) as [Ho|Ho].
  - rewrite bool_decide_eq_true_2 by done.
    rewrite count_pending_all; [done|].
    intros d Hd. by apply (ki_closed _ _ _ _ Hinv d n).
  - rewrite bool_decide_eq_false_2 by done. simpl.
    pose proof (ki_queue _ _ _ _ Hinv n Hn Ho) as Hq.
    rewrite (ki_count _ _ _ _ Hinv n Hn) in Hq.
    apply Z.ltb_lt. destruct (count_pending o (get_dependencies g n)) eqn:E.
    + exfalso. apply (not_elem_of_nil n). by apply Hq.
    + lia.
Qed.

Lemma get_ordered_resources_spec g :
  wf g →
  ∃ o m, kahn_inv g [] o m ∧
    get_ordered_resources g =
      let rem := List.filter (fun n => negb (bool_decide (n ∈ o))) (nodes g) in
      match rem with
      | [] => Ok o
      | _ => Err (CyclicDependencyError (find_cycle_path g rem))
      end.
Proof.
  intros Hwf. unfold get_ordered_resources.
  pose proof (kahn_loop_spec g Hwf (List.length (nodes g)) _ [] _ (kahn_init g Hwf)) as H.
  destruct (kahn_loop g _ _ [] _) as [o m] eqn:Hk. simpl in H.
  exists o, m. split; [apply H; simpl; lia|].
  assert (Hinv : kahn_inv g [] o m) by (apply H; simpl; lia).
  cbv zeta.
  rewrite (filter_ext_in _ (fun n => negb (bool_decide (n ∈ o)))); [reflexivity|].
  intros n Hn. apply (kahn_final_remaining g o m Hinv). by apply list_elem_of_In.
Qed.

(** ** The reported cycle path *)

Lemma index_of_spec x l : x ∈ l → ∃ k, index_of x l = Some k ∧ l !! k = Some x.
Proof.
  induction l as [|y l IH]; intros Hx; [set_solver|]. simpl.
  destruct (String.eqb_spec x y) as [->|Hne]; [by exists 0%nat|].
  destruct IH as [k [Hk Hl]]; [set_solver|]. exists (S k). by rewrite Hk.
Qed.

(** Consecutive entries of [w] are linked by dependency edges, walking
    from a node to one of its dependencies (as [_find_cycle_path] does). *)
Definition chain (g : DependencyGraph) (w : list string) : Prop :=
  ∀ i a b, w !! i = Some a → w !! S i = Some b → edge g b a.

Definition closed_walk (g : DependencyGraph) (w : list string) : Prop :=
  (2 <= List.length w)%nat ∧ w !! 0%nat = last w ∧ chain g w.

Lemma chain_snoc g path current next :
  chain g path → last path = Some current → edge g next current →
  chain g (path ++ [next]).
Proof.
  intros Hc Hl He i a b Ha Hb.
  rewrite last_lookup in Hl.
  apply lookup_app_Some in Ha, Hb.
  destruct Hb as [Hb|[Hb1 Hb2]].
  - destruct Ha as [Ha|[Ha1 _]]; [by apply (Hc i)|].
    apply lookup_lt_Some in Hb. lia.
  - apply list_lookup_singleton_Some in Hb2 as [Hi ->].
    destruct Ha as [Ha|[Ha1 Ha2]].
    + replace i with (pred (List.length path)) in Ha by lia. congruence.
    + apply list_lookup_singleton_Some in Ha2 as [? _]. lia.
Qed.

Lemma walk_spec g N dead :
  (∀ r, r ∈ N → ∃ d, d ∈ get_dependencies g r ∧ d ∈ N) →
  ∀ fuel path visited current,
    NoDup path → (∀ z, z ∈ path → z ∈ N) → (∀ z, z ∈ visited ↔ z ∈ path) →
    last path = Some current → chain g path →
    (List.length N < fuel + List.length path)%nat →
    closed_walk g (walk g N dead fuel path visited current).
Proof.
  intros Hstuck fuel. induction fuel as [|fuel IH];
    intros path visited current Hnd HN Hvis Hlast Hch Hlen.
  - exfalso.
    assert (Hle : (List.length path <= List.length N)%nat).
    { apply NoDup_incl_length; [by apply NoDup_ListNoDup|].
      intros z Hz. apply list_elem_of_In, HN, list_elem_of_In, Hz. }
    simpl in Hlen. lia.
  - simpl.
    assert (Hcur : current ∈ N) by (apply HN; by apply last_Some_elem_of).
    destruct (Hstuck current Hcur) as [d [Hd HdN]].
    destruct (List.filter _ (get_dependencies g current)) as [|next rest] eqn:Hf.
    + exfalso. assert (Hin : d ∈ List.filter (fun dep => bool_decide (dep ∈ N))
                                   (get_dependencies g current)).
      { apply elem_of_List_filter. split; [done|]. by apply bool_decide_eq_true. }
      rewrite Hf in Hin. set_solver.
    + assert (Hnext : next ∈ get_dependencies g current ∧ next ∈ N).
      { assert (Hin : next ∈ List.filter (fun dep => bool_decide (dep ∈ N))
                                   (get_dependencies g current)) by (rewrite Hf; set_solver).
        apply elem_of_List_filter in Hin as [Hin Hb]. split; [done|].
        by apply bool_decide_eq_true in Hb. }
      destruct Hnext as [Hedge HnextN].
      case_bool_decide as Hv.
      * apply Hvis in Hv. destruct (index_of_spec next path Hv) as [k [Hk Hpk]].
        rewrite Hk.
        assert (Hklt : (k < List.length path)%nat) by (by apply lookup_lt_Some in Hpk).
        split; [|split].
        -- rewrite length_app, length_drop. simpl. lia.
        -- rewrite last_snoc. rewrite lookup_app_l by (rewrite length_drop; lia).
           rewrite lookup_drop. by rewrite Nat.add_0_r.
        -- intros i a b Ha Hb.
           rewrite last_lookup in Hlast.
           apply lookup_app_Some in Ha, Hb. rewrite !length_drop in Ha, Hb.
           rewrite !lookup_drop in Ha, Hb.
           destruct Hb as [Hb|[Hb1 Hb2]].
           ++ destruct Ha as [Ha|[Ha1 _]].
              ** apply (Hch (k + i)%nat); [done|]. by rewrite <- Nat.add_succ_r.
              ** apply lookup_lt_Some in Hb. lia.
           ++ apply list_lookup_singleton_Some in Hb2 as [Hi ->].
              destruct Ha as [Ha|[Ha1 Ha2]].
              ** replace (k + i)%nat with (pred (List.length path)) in Ha by lia.
                 rewrite Ha in Hlast. injection Hlast as ->. done.
              ** apply list_lookup_singleton_Some in Ha2 as [? _]. lia.
      * assert (Hle : (List.length (path ++ [next]) <= List.length N)%nat).
        { apply NoDup_incl_length.
          - apply NoDup_ListNoDup, NoDup_app. split; [done|]. split; [|apply NoDup_singleton].
            intros z Hz Hz'. apply list_elem_of_singleton in Hz'. subst. by apply Hv, Hvis.
          - intros z Hz. apply list_elem_of_In in Hz. apply list_elem_of_In.
            apply elem_of_app in Hz as [Hz|Hz]; [by apply HN|].
            apply list_elem_of_singleton in Hz. by subst. }
        rewrite (proj2 (Nat.ltb_ge _ _)) by lia.
        apply IH.
        -- apply NoDup_app. split; [done|]. split; [|apply NoDup_singleton].
           intros z Hz Hz'. apply list_elem_of_singleton in Hz'. subst. by apply Hv, Hvis.
        -- intros z Hz. apply elem_of_app in Hz as [Hz|Hz]; [by apply HN|].
           apply list_elem_of_singleton in Hz. by subst.
        -- intros z. rewrite elem_of_cons, elem_of_app, list_elem_of_singleton, Hvis. tauto.
        -- apply last_snoc.
        -- by apply (chain_snoc g path current next).
        -- rewrite length_app. simpl. lia.
Qed.

(** When every node of [N] has a dependency in [N], the reported path is a
    closed walk. *)
Lemma find_cycle_path_closed g N :
  N ≠ [] → (∀ r, r ∈ N → ∃ d, d ∈ get_dependencies g r ∧ d ∈ N) →
  closed_walk g (find_cycle_path g N).
Proof.
  intros Hne Hstuck. destruct N as [|start rest]; [done|].
  cbn [find_cycle_path].
  apply walk_spec; [done| | | | | |].
  - apply NoDup_singleton.
  - intros z Hz. apply list_elem_of_singleton in Hz. subst. set_solver.
  - done.
  - done.
  - intros i a b _ Hb. destruct i; simpl in Hb; done.
  - simpl. lia.
Qed.

Lemma chain_down g w :
  chain g w → ∀ i j a b, (j < i)%nat → w !! i = Some a → w !! j = Some b →
  clos_trans _ (edge g) a b.
Proof.
  intros Hc i. induction i as [|i IH]; intros j a b Hji Ha Hb; [lia|].
  destruct (w !! i) as [c|] eqn:Hc'.
  2:{ apply lookup_ge_None in Hc'. apply lookup_lt_Some in Ha. lia. }
  assert (Hac : edge g a c) by (by apply (Hc i)).
  destruct (decide (j = i)) as [->|Hne].
  - rewrite Hc' in Hb. injection Hb as ->. by apply t_step.
  - apply t_trans with c; [by apply t_step|]. apply (IH j); [lia|done|done].
Qed.

Lemma closed_walk_reach g w :
  closed_walk g w → ∀ x y, x ∈ w → y ∈ w → clos_trans _ (edge g) x y.
Proof.
  intros [Hlen [Hhd Hch]] x y Hx Hy.
  apply list_elem_of_lookup in Hx as [i Hi], Hy as [j Hj].
  rewrite last_lookup in Hhd.
  set (k := pred (List.length w)) in *.
  destruct (w !! 0%nat) as [h|] eqn:H0.
  2:{ apply lookup_ge_None in H0. lia. }
  symmetry in Hhd.
  assert (Hik : (i <= k)%nat) by (apply lookup_lt_Some in Hi; lia).
  assert (Hjk : (j <= k)%nat) by (apply lookup_lt_Some in Hj; lia).
  destruct (decide (j < i)%nat) as [Hlt|Hge]; [by apply (chain_down g w Hch i j)|].
  destruct (decide (j < k)%nat) as [Hjk'|Hjk'].
  - destruct (decide (i = 0%nat)) as [->|Hi0].
    + rewrite H0 in Hi. injection Hi as <-. apply (chain_down g w Hch k j); [lia|done|done].
    + apply t_trans with h.
      * apply (chain_down g w Hch i 0); [lia|done|done].
      * apply (chain_down g w Hch k j); [lia|done|done].
  - assert (j = k) as -> by lia. rewrite Hhd in Hj. injection Hj as <-.
    destruct (decide (i = 0%nat)) as [->|Hi0].
    + rewrite H0 in Hi. injection Hi as <-. apply (chain_down g w Hch k 0); [lia|done|done].
    + apply (chain_down g w Hch i 0); [lia|done|done].
Qed.

Lemma closed_walk_cycle g w :
  closed_walk g w → ∃ x, x ∈ w ∧ clos_trans _ (edge g) x x.
Proof.
  intros Hw. destruct w as [|x w'].
  - destruct Hw as [Hl _]. simpl in Hl. lia.
  - exists x. split; [set_solver|]. apply (closed_walk_reach g (x :: w')); set_solver.
Qed.

(** ** Acyclic graphs and topological orders *)

Definition acyclic (g : DependencyGraph) : Prop :=
  ∀ x, ¬ clos_trans _ (edge g) x x.

(** Every node exactly once, and every dependency before its dependent. *)
Definition topological_order (g : DependencyGraph) (l : list string) : Prop :=
  NoDup l ∧ (∀ x, x ∈ l ↔ x ∈ nodes g) ∧
  (∀ i j x y, l !! i = Some x → l !! j = Some y → edge g x y → (i < j)%nat).

Lemma inv_tc g q o m :
  kahn_inv g q o m → ∀ a b, clos_trans _ (edge g) a b →
  ∀ j, o !! j = Some b → ∃ i, o !! i = Some a ∧ (i < j)%nat.
Proof.
  intros Hinv a b Hab. induction Hab as [a b Hab|a b c _ IH1 _ IH2]; intros j Hj.
  - assert (Ha : a ∈ o).
    { apply (ki_closed _ _ _ _ Hinv a b); [|done]. by eapply list_elem_of_lookup_2. }
    apply list_elem_of_lookup in Ha as [i Hi]. exists i. split; [done|].
    by apply (ki_order _ _ _ _ Hinv i j a b).
  - destruct (IH2 j Hj) as [k [Hk Hkj]]. destruct (IH1 k Hk) as [i [Hi Hik]].
    exists i. split; [done|lia].
Qed.

Lemma tc_nodes g a b : wf g → clos_trans _ (edge g) a b → a ∈ nodes g.
Proof.
  intros Hwf H. induction H as [a b H|]; [by apply (wf_edge_nodes g Hwf a b)|done].
Qed.

(** Nodes left over by Kahn's loop each have a dependency left over. *)
Lemma remaining_stuck g o m :
  wf g → kahn_inv g [] o m →
  ∀ r, r ∈ List.filter (fun n => negb (bool_decide (n ∈ o))) (nodes g) →
  ∃ d, d ∈ get_dependencies g r ∧
       d ∈ List.filter (fun n => negb (bool_decide (n ∈ o))) (nodes g).
Proof.
  intros Hwf Hinv r Hr.
  apply elem_of_List_filter in Hr as [Hr Hro]. apply negb_true_iff in Hro.
  apply bool_decide_eq_false in Hro.
  destruct (List.filter (fun d => negb (bool_decide (d ∈ o))) (get_dependencies g r))
    as [|d ds] eqn:Hf.
  - exfalso. assert (Hc : count_pending o (get_dependencies g r) = 0%nat)
      by (unfold count_pending; by rewrite Hf).
    pose proof (ki_count _ _ _ _ Hinv r Hr) as Hm. rewrite Hc in Hm.
    apply (not_elem_of_nil r). by apply (ki_queue _ _ _ _ Hinv r Hr Hro).
  - assert (Hd : d ∈ List.filter (fun d => negb (bool_decide (d ∈ o)))
                   (get_dependencies g r)) by (rewrite Hf; set_solver).
    apply elem_of_List_filter in Hd as [Hd Hdo].
    exists d. split; [done|]. apply elem_of_List_filter. split; [|done].
    by apply (wf_edge_nodes g Hwf d r).
Qed.

(** Shape of the result of Kahn's algorithm on a well-formed graph. *)
Lemma ordered_cases g :
  wf g → ∃ o m, kahn_inv g [] o m ∧
   ((List.filter (fun n => negb (bool_decide (n ∈ o))) (nodes g) = [] ∧
     get_ordered_resources g = Ok o) ∨
    (List.filter (fun n => negb (bool_decide (n ∈ o))) (nodes g) ≠ [] ∧
     get_ordered_resources g = Err (CyclicDependencyError (find_cycle_path g
       (List.filter (fun n => negb (bool_decide (n ∈ o))) (nodes g)))))).
Proof.
  intros Hwf. destruct (get_ordered_resources_spec g Hwf) as (o & m & Hinv & Heq).
  exists o, m. split; [done|]. cbv zeta in Heq.
  destruct (List.filter _ (nodes g)) as [|r rs] eqn:Hrem; [by left|by right].
Qed.

Lemma ok_topological g o m :
  kahn_inv g [] o m →
  List.filter (fun n => negb (bool_decide (n ∈ o))) (nodes g) = [] →
  topological_order g o.
Proof.
  intros Hinv Hrem. split; [|split].
  - pose proof (ki_nodup _ _ _ _ Hinv) as H. by rewrite app_nil_r in H.
  - intros x. split.
    + intros Hx. apply (ki_nodes _ _ _ _ Hinv). by rewrite app_nil_r.
    + intros Hx. destruct (decide (x ∈ o)) as [|Hxo]; [done|]. exfalso.
      apply (not_elem_of_nil x). rewrite <- Hrem. apply elem_of_List_filter.
      split; [done|]. apply negb_true_iff. by apply bool_decide_eq_false.
  - apply (ki_order _ _ _ _ Hinv).
Qed.

Lemma err_cycle g o m :
  wf g → kahn_inv g [] o m →
  List.filter (fun n => negb (bool_decide (n ∈ o))) (nodes g) ≠ [] →
  closed_walk g (find_cycle_path g
    (List.filter (fun n => negb (bool_decide (n ∈ o))) (nodes g))).
Proof.
  intros Hwf Hinv Hne. apply find_cycle_path_closed; [done|].
  by apply (remaining_stuck g o m).
Qed.

(** A graph on which Kahn's algorithm succeeds has no cycle. *)
Lemma ok_acyclic g o : wf g → get_ordered_resources g = Ok o → acyclic g.
Proof.
  intros Hwf Hok x Hx.
  destruct (ordered_cases g Hwf) as (o' & m & Hinv & [[Hrem Heq]|[Hne Heq]]);
    rewrite Hok in Heq; [|discriminate].
  destruct (ok_topological g o' m Hinv Hrem) as [Hnd [Hmem _]].
  assert (Hxo : x ∈ o') by (apply Hmem; by apply (tc_nodes g x x)).
  apply list_elem_of_lookup in Hxo as [j Hj].
  destruct (inv_tc g [] o' m Hinv x x Hx j Hj) as [i [Hi Hij]].
  pose proof (NoDup_lookup o' i j x Hnd Hi Hj). lia.
Qed.

Lemma wf_chain_ABC : wf chain_ABC.
Proof. unfold chain_ABC. repeat apply wf_add_dependency. apply wf_empty. Qed.

Lemma acyclic_chain_ABC : acyclic chain_ABC.
Proof. apply (ok_acyclic chain_ABC ["A"; "B"; "C"]); [apply wf_chain_ABC|apply chain_ABC_order]. Qed.

Lemma wf_chain_ABC_cycle : wf (add_dependency chain_ABC "A" "C").
Proof. apply wf_add_dependency, wf_chain_ABC. Qed.

(** [C1] On a well-formed graph (one built with [add_node] and
    [add_dependency], whatever the iteration order of [self.nodes]) with no
    dependency cycle, [get_ordered_resources] succeeds and returns every node
    exactly once, each dependency at a smaller index than its dependent. *)
Theorem get_ordered_resources_topological g :
  wf g → acyclic g →
  ∃ o, get_ordered_resources g = Ok o ∧ topological_order g o.
Proof.
  intros Hwf Hac.
  destruct (ordered_cases g Hwf) as (o & m & Hinv & [[Hrem Heq]|[Hne Heq]]).
  - exists o. split; [done|]. by apply (ok_topological g o m).
  - exfalso. destruct (closed_walk_cycle g _ (err_cycle g o m Hwf Hinv Hne))
      as [x [_ Hx]].
    by apply (Hac x).
Qed.

Lemma get_ordered_resources_topological_witness :
  wf chain_ABC ∧ acyclic chain_ABC ∧
  ∃ o, get_ordered_resources chain_ABC = Ok o ∧ topological_order chain_ABC o.
Proof.
  split; [apply wf_chain_ABC|]. split; [apply acyclic_chain_ABC|].
  apply (get_ordered_resources_topological chain_ABC wf_chain_ABC acyclic_chain_ABC).
Defined.

(** [C3] On a well-formed graph with a dependency cycle,
    [get_ordered_resources] fails with [CyclicDependencyError] whose path is
    nonempty and whose nodes are pairwise reachable along dependency edges
    (so each lies on a cycle).  On every graph, [has_cycle] is a total
    boolean function that is [true] exactly when [get_ordered_resources]
    fails (it only ever fails with [CyclicDependencyError]). *)
Theorem get_ordered_resources_cycle g :
  (wf g → (∃ x, clos_trans _ (edge g) x x) →
   ∃ p, get_ordered_resources g = Err (CyclicDependencyError p) ∧ p ≠ [] ∧
        ∀ x y, x ∈ p → y ∈ p → clos_trans _ (edge g) x y) ∧
  (has_cycle g = true ↔ ∃ e, get_ordered_resources g = Err e).
Proof.
  split.
  - intros Hwf [x Hx].
    destruct (ordered_cases g Hwf) as (o & m & Hinv & [[Hrem Heq]|[Hne Heq]]).
    + exfalso. by apply (ok_acyclic g o Hwf Heq x).
    + eexists. split; [exact Heq|].
      pose proof (err_cycle g o m Hwf Hinv Hne) as Hw. split.
      * intros Hp. rewrite Hp in Hw. destruct Hw as [Hl _]. simpl in Hl. lia.
      * by apply closed_walk_reach.
  - unfold has_cycle, get_ordered_resources.
    destruct (kahn_loop _ _ _ _ _) as [o m].
    destruct (List.filter _ (nodes g)); split; intros H;
      try discriminate; try (destruct H; discriminate); eauto.
Qed.

Lemma chain_ABC_cycle_edges :
  let G := add_dependency chain_ABC "A" "C" in
  edge G "A" "B" ∧ edge G "B" "C" ∧ edge G "C" "A".
Proof.
  cbv zeta. unfold edge. rewrite !list_elem_of_In. vm_compute. tauto.
Qed.

Lemma get_ordered_resources_cycle_witness :
  wf (add_dependency chain_ABC "A" "C") ∧
  (∃ x, clos_trans _ (edge (add_dependency chain_ABC "A" "C")) x x) ∧
  ∃ p, get_ordered_resources (add_dependency chain_ABC "A" "C")
         = Err (CyclicDependencyError p) ∧ p ≠ [] ∧
       ∀ x y, x ∈ p → y ∈ p →
         clos_trans _ (edge (add_dependency chain_ABC "A" "C")) x y.
Proof.
  assert (Hc : ∃ x, clos_trans _ (edge (add_dependency chain_ABC "A" "C")) x x).
  { destruct chain_ABC_cycle_edges as (H1 & H2 & H3). exists "A"%string.
    apply t_trans with "B"%string; [by apply t_step|].
    apply t_trans with "C"%string; by apply t_step. }
  split; [apply wf_chain_ABC_cycle|]. split; [exact Hc|].
  apply (proj1 (get_ordered_resources_cycle (add_dependency chain_ABC "A" "C"))
           wf_chain_ABC_cycle Hc).
Defined.

(** ** Deployment batches *)

Definition batch_of (g : DependencyGraph) (ordered : list string)
    (deployed : gset string) : list string :=
  List.filter (fun resource =>
      negb (bool_decide (resource ∈ deployed)) &&
      forallb (fun dep => bool_decide (dep ∈ deployed))
              (get_dependencies g resource)) ordered.

Lemma elem_of_batch_of g o D x :
  x ∈ batch_of g o D ↔
  x ∈ o ∧ (x ∉ D) ∧ ∀ d, d ∈ get_dependencies g x → d ∈ D.
Proof.
  unfold batch_of. rewrite elem_of_List_filter, andb_true_iff, negb_true_iff,
    bool_decide_eq_false, forallb_forall.
  split.
  - intros [Hx [Hd Hall]]. split; [done|]. split; [done|].
    intros d Hd'. apply (bool_decide_eq_true_1 (d ∈ D)), Hall.
    by apply list_elem_of_In.
  - intros [Hx [Hd Hall]]. split; [done|]. split; [done|].
    intros d Hd'. apply (bool_decide_eq_true_2 (d ∈ D)), Hall.
    by apply list_elem_of_In.
Qed.

Record batches_inv (g : DependencyGraph) (o : list string)
    (bs : list (list string)) (D : gset string) : Prop := {
  bi_set : D = list_to_set (concat bs);
  bi_nodup : NoDup (concat bs);
  bi_sub : ∀ x, x ∈ concat bs → x ∈ o;
  bi_nonempty : ∀ b, b ∈ bs → b ≠ [];
  bi_closed : ∀ x y, y ∈ concat bs → edge g x y → x ∈ concat bs;
  bi_order : ∀ i j x y, concat bs !! i = Some x → concat bs !! j = Some y →
    edge g x y → (i < j)%nat;
  bi_batch : ∀ i j bi bj x y, bs !! i = Some bi → bs !! j = Some bj →
    x ∈ bi → y ∈ bj → edge g x y → (i < j)%nat;
  bi_disj : ∀ i j bi bj x, bs !! i = Some bi → bs !! j = Some bj →
    x ∈ bi → x ∈ bj → i = j
}.

Lemma elem_of_concat_list {A} (bs : list (list A)) x :
  x ∈ concat bs ↔ ∃ b, b ∈ bs ∧ x ∈ b.
Proof.
  rewrite list_elem_of_In, in_concat. split.
  - intros [b [Hb Hx]]. exists b. by rewrite !list_elem_of_In.
  - intros [b [Hb Hx]]. exists b. by rewrite <- !list_elem_of_In.
Qed.

Lemma batches_inv_init g o : batches_inv g o [] ∅.
Proof.
  split; simpl.
  all: first [done | constructor | intros; simplify_eq/=; exfalso; set_solver].
Qed.

Lemma batches_inv_step g o bs D :
  batches_inv g o bs D → NoDup o → batch_of g o D ≠ [] →
  batches_inv g o (bs ++ [batch_of g o D]) (D ∪ list_to_set (batch_of g o D)).
Proof.
  intros [Hset Hnd Hsub Hne Hcl Hord Hbat Hdisj] Hnodo HB.
  set (B := batch_of g o D) in *.
  assert (HBD : ∀ x, x ∈ B → x ∉ D) by (intros x Hx; apply elem_of_batch_of in Hx as (_ & ? & _); done).
  assert (HBdeps : ∀ x d, x ∈ B → d ∈ get_dependencies g x → d ∈ D)
    by (intros x d Hx; apply elem_of_batch_of in Hx as (_ & _ & ?); auto).
  assert (HD : ∀ x, x ∈ D ↔ x ∈ concat bs) by (intros x; subst D; apply elem_of_list_to_set).
  assert (Hcat : concat (bs ++ [B]) = concat bs ++ B)
    by (rewrite concat_app; simpl; by rewrite app_nil_r).
  split; rewrite ?Hcat.
  - subst D. by rewrite list_to_set_app_L.
  - apply NoDup_app. split; [done|]. split.
    + intros x Hx HxB. apply (HBD x HxB). by apply HD.
    + apply NoDup_ListNoDup, List.NoDup_filter, NoDup_ListNoDup, Hnodo.
  - intros x Hx. apply elem_of_app in Hx as [Hx|Hx]; [by apply Hsub|].
    by apply elem_of_batch_of in Hx as [? _].
  - intros b Hb. apply elem_of_app in Hb as [Hb|Hb]; [by apply Hne|].
    apply list_elem_of_singleton in Hb. by subst.
  - intros x y Hy Hxy. apply elem_of_app in Hy as [Hy|Hy].
    + apply elem_of_app. left. by apply (Hcl x y).
    + apply elem_of_app. left. apply HD. by apply (HBdeps y x).
  - intros i j x y Hi Hj Hxy.
    apply lookup_app_Some in Hi, Hj.
    destruct Hj as [Hj|[Hj1 Hj2]]; destruct Hi as [Hi|[Hi1 Hi2]].
    + by apply (Hord i j x y).
    + exfalso. apply (HBD x); [by eapply list_elem_of_lookup_2|].
      apply HD. apply (Hcl x y); [by eapply list_elem_of_lookup_2|done].
    + apply lookup_lt_Some in Hi. lia.
    + exfalso. apply (HBD x); [by eapply list_elem_of_lookup_2|].
      apply (HBdeps y x); [by eapply list_elem_of_lookup_2|done].
  - intros i j bi bj x y Hi Hj Hx Hy Hxy.
    apply lookup_app_Some in Hi, Hj.
    destruct Hj as [Hj|[Hj1 Hj2]]; destruct Hi as [Hi|[Hi1 Hi2]].
    + by apply (Hbat i j bi bj x y).
    + exfalso. apply list_lookup_singleton_Some in Hi2 as [_ <-].
      apply (HBD x Hx). apply HD. apply (Hcl x y); [|done].
      apply elem_of_concat_list. exists bj. split; [by eapply list_elem_of_lookup_2|done].
    + apply lookup_lt_Some in Hi. lia.
    + exfalso. apply list_lookup_singleton_Some in Hi2 as [_ <-].
      apply list_lookup_singleton_Some in Hj2 as [_ <-].
      by apply (HBD x Hx), (HBdeps y x).
  - assert (Hold : ∀ k bk x, bs !! k = Some bk → x ∈ bk → x ∈ B → False).
    { intros k bk x Hk Hx HxB. apply (HBD x HxB), HD, elem_of_concat_list.
      exists bk. split; [by eapply list_elem_of_lookup_2|done]. }
    intros i j bi bj x Hi Hj Hx Hy.
    apply lookup_app_Some in Hi, Hj.
    destruct Hj as [Hj|[Hj1 Hj2]]; destruct Hi as [Hi|[Hi1 Hi2]].
    + by apply (Hdisj i j bi bj x).
    + apply list_lookup_singleton_Some in Hi2 as [_ <-]. exfalso. by apply (Hold j bj x).
    + apply list_lookup_singleton_Some in Hj2 as [_ <-]. exfalso. by apply (Hold i bi x).
    + apply list_lookup_singleton_Some in Hi2 as [? _].
      apply list_lookup_singleton_Some in Hj2 as [? _]. lia.
Qed.

Lemma size_deployed g o bs D :
  batches_inv g o bs D → size D = List.length (concat bs).
Proof.
  intros Hinv. rewrite (bi_set _ _ _ _ Hinv). apply size_list_to_set, (bi_nodup _ _ _ _ Hinv).
Qed.

Lemma batch_nonempty g o bs D :
  wf g → topological_order g o → batches_inv g o bs D →
  (size D < List.length o)%nat → batch_of g o D ≠ [].
Proof.
  intros Hwf [Hnd [Hmem Hord]] Hinv Hlt.
  rewrite (size_deployed g o bs D Hinv) in Hlt.
  destruct (list_find (fun x => x ∉ D) o) as [[i x]|] eqn:Hf.
  - apply list_find_Some in Hf as (Hi & HxD & Hfirst).
    intros HB. apply (not_elem_of_nil x). rewrite <- HB.
    apply elem_of_batch_of. split; [by eapply list_elem_of_lookup_2|]. split; [done|].
    intros d Hd. destruct (decide (d ∈ D)) as [|HdD]; [done|]. exfalso.
    assert (Hdo : d ∈ o) by (apply Hmem; by apply (wf_edge_nodes g Hwf d x)).
    apply list_elem_of_lookup in Hdo as [j Hj].
    apply (Hfirst j d Hj); [|done]. by apply (Hord j i d x).
  - exfalso. apply list_find_None in Hf.
    assert (Hle : (List.length o <= List.length (concat bs))%nat).
    { apply NoDup_incl_length; [by apply NoDup_ListNoDup|].
      intros x Hx. apply list_elem_of_In in Hx. apply list_elem_of_In.
      rewrite Forall_forall in Hf. specialize (Hf x Hx).
      destruct (decide (x ∈ D)) as [HxD|]; [|done].
      rewrite (bi_set _ _ _ _ Hinv) in HxD. by apply elem_of_list_to_set in HxD. }
    lia.
Qed.

Lemma batches_loop_ok g o :
  wf g → topological_order g o →
  ∀ fuel bs D, batches_inv g o bs D →
  (List.length o < fuel + List.length (concat bs))%nat →
  ∃ bs' D', batches_loop g fuel o bs D = Ok bs' ∧ batches_inv g o bs' D' ∧
            ∀ x, x ∈ o → x ∈ concat bs'.
Proof.
  intros Hwf Htop. pose proof Htop as [Hnd [Hmem Hord]].
  assert (Hlen : ∀ bs D, batches_inv g o bs D →
            (List.length (concat bs) <= List.length o)%nat).
  { intros bs D Hinv. apply NoDup_incl_length.
    - apply NoDup_ListNoDup, (bi_nodup _ _ _ _ Hinv).
    - intros x Hx. apply list_elem_of_In, (bi_sub _ _ _ _ Hinv), list_elem_of_In, Hx. }
  intros fuel. induction fuel as [|fuel IH]; intros bs D Hinv Hf.
  - exfalso. pose proof (Hlen bs D Hinv). simpl in Hf. lia.
  - simpl. fold (batch_of g o D).
    destruct (Nat.ltb (size D) (List.length o)) eqn:Hlt.
    + apply Nat.ltb_lt in Hlt.
      pose proof (batch_nonempty g o bs D Hwf Htop Hinv Hlt) as HB.
      destruct (batch_of g o D) as [|b bb] eqn:HBe; [done|]. rewrite <- HBe.
      apply IH; [apply batches_inv_step; [done|done|by rewrite HBe]|].
      rewrite concat_app, length_app, HBe. simpl. lia.
    + apply Nat.ltb_ge in Hlt. rewrite (size_deployed g o bs D Hinv) in Hlt.
      exists bs, D. split; [done|]. split; [done|].
      assert (Hp : concat bs ≡ₚ o).
      { apply submseteq_length_Permutation; [|done].
        apply NoDup_submseteq; [apply (bi_nodup _ _ _ _ Hinv)|apply (bi_sub _ _ _ _ Hinv)]. }
      intros x Hx. by rewrite Hp.
Qed.


(** [C2] On a well-formed acyclic graph, [get_deployment_batches] succeeds;
    its batches are nonempty and pairwise disjoint, their concatenation in
    order is a topological order of all the nodes, and every dependency of a
    node lies in a strictly earlier batch than the node. *)
Theorem get_deployment_batches_spec g :
  wf g → acyclic g →
  ∃ bs, get_deployment_batches g = Ok bs ∧
    (∀ b, b ∈ bs → b ≠ []) ∧
    (∀ i j bi bj x, bs !! i = Some bi → bs !! j = Some bj →
       x ∈ bi → x ∈ bj → i = j) ∧
    topological_order g (concat bs) ∧
    (∀ i j bi bj x y, bs !! i = Some bi → bs !! j = Some bj →
       x ∈ bi → y ∈ bj → edge g x y → (i < j)%nat).
Proof.
  intros Hwf Hac.
  destruct (get_ordered_resources_topological g Hwf Hac) as [o [Ho Htop]].
  unfold get_deployment_batches. rewrite Ho.
  destruct (batches_loop_ok g o Hwf Htop (S (List.length o)) [] ∅
              (batches_inv_init g o)) as (bs & D & Hloop & Hinv & Hcov);
    [simpl; lia|].
  exists bs. rewrite Hloop. split; [done|].
  destruct Hinv as [_ Hnd Hsub Hne _ Hord Hbat Hdisj].
  split; [done|]. split; [done|]. split; [|done].
  destruct Htop as [_ [Hmem _]].
  split; [done|]. split; [|done].
  intros x. rewrite <- Hmem. split; [apply Hsub|apply Hcov].
Qed.

Lemma get_deployment_batches_spec_witness :
  wf chain_ABC ∧ acyclic chain_ABC ∧
  ∃ bs, get_deployment_batches chain_ABC = Ok bs ∧
    (∀ b, b ∈ bs → b ≠ []) ∧
    (∀ i j bi bj x, bs !! i = Some bi → bs !! j = Some bj →
       x ∈ bi → x ∈ bj → i = j) ∧
    topological_order chain_ABC (concat bs) ∧
    (∀ i j bi bj x y, bs !! i = Some bi → bs !! j = Some bj →
       x ∈ bi → y ∈ bj → edge chain_ABC x y → (i < j)%nat).
Proof.
  split; [apply wf_chain_ABC|]. split; [apply acyclic_chain_ABC|].
  apply (get_deployment_batches_spec chain_ABC wf_chain_ABC acyclic_chain_ABC).
Defined.

(** ** Further operations of [DependencyGraph] *)

(** [get_dependents]: [self.graph.get(node, [])]. *)
Definition get_dependents (g : DependencyGraph) (node : string) : list string :=
  default [] (graph g !! node).

(** [clear]: the three containers emptied. *)
Definition clear (g : DependencyGraph) : DependencyGraph := empty_graph.

(** [get_cycle_path]: catches [CyclicDependencyError] only. *)
Definition get_cycle_path (g : DependencyGraph) : result (list string) :=
  match get_ordered_resources g with
  | Ok _ => Ok []
  | Err (CyclicDependencyError p) => Ok p
  | Err e => Err e
  end.

(** The graphs a client can build: [DependencyGraph()] followed by any
    sequence of [add_node], [add_dependency] and [clear]. *)
Inductive built : DependencyGraph → Prop :=
| built_new : built empty_graph
| built_add_node g n : built g → built (add_node g n)
| built_add_dependency g n d : built g → built (add_dependency g n d)
| built_clear g : built g → built (clear g).

Lemma nil_of_no_elem (l : list string) : (∀ x, x ∉ l) → l = [].
Proof. destruct l as [|x l]; [done|]. intros H. exfalso. apply (H x). set_solver. Qed.

Lemma deps_add_node g k m :
  wf g → get_dependencies (add_node g k) m = get_dependencies g m.
Proof.
  intros Hwf. destruct (decide (k ∈ nodes g)) as [Hin|Hin]; [by rewrite add_node_id|].
  rewrite add_node_new by done. rewrite add_node_deps.
  destruct (decide (m = k)) as [->|]; [|done].
  symmetry. apply nil_of_no_elem. intros x Hx.
  by apply Hin, (wf_edge_nodes g Hwf x k).
Qed.

Lemma dependents_add_node g k m :
  wf g → dependents (add_node g k) m = dependents g m.
Proof.
  intros Hwf. destruct (decide (k ∈ nodes g)) as [Hin|Hin]; [by rewrite add_node_id|].
  rewrite add_node_new by done. rewrite add_node_dependents.
  destruct (decide (m = k)) as [->|]; [|done].
  symmetry. apply nil_of_no_elem. intros x Hx.
  apply (wf_sym g Hwf) in Hx. by apply Hin, (wf_edge_nodes g Hwf k x).
Qed.

Lemma nodes_add_node g k m : m ∈ nodes (add_node g k) ↔ m ∈ nodes g ∨ m = k.
Proof. unfold add_node. case_bool_decide; simpl; set_solver. Qed.

Lemma add_dependency_lookup g n d m :
  wf g →
  get_dependencies (add_dependency g n d) m =
    (if decide (m = n) then get_dependencies g n ++
       (if bool_decide (d ∈ get_dependencies g n) then [] else [d])
     else get_dependencies g m) ∧
  dependents (add_dependency g n d) m =
    (if decide (m = d) then dependents g d ++
       (if bool_decide (n ∈ dependents g d) then [] else [n])
     else dependents g m) ∧
  (m ∈ nodes (add_dependency g n d) ↔ m ∈ nodes g ∨ m = n ∨ m = d).
Proof.
  intros Hwf. unfold add_dependency. cbv zeta.
  set (g1 := add_node (add_node g n) d).
  assert (Hwf1 : wf (add_node g n)) by (by apply wf_add_node).
  assert (D1 : ∀ x, get_dependencies g1 x = get_dependencies g x).
  { intros x. unfold g1. rewrite deps_add_node by done. by apply deps_add_node. }
  assert (F1 : ∀ x, dependents g1 x = dependents g x).
  { intros x. unfold g1. rewrite dependents_add_node by done. by apply dependents_add_node. }
  assert (N1 : ∀ x, x ∈ nodes g1 ↔ x ∈ nodes g ∨ x = n ∨ x = d).
  { intros x. unfold g1. rewrite !nodes_add_node. tauto. }
  assert (Hsym : d ∈ get_dependencies g n ↔ n ∈ dependents g d) by apply (wf_sym g Hwf).
  destruct (decide (n ∈ dependents g1 d)) as [Hin|Hin].
  - rewrite (bool_decide_eq_true_2 _ Hin).
    rewrite (bool_decide_eq_true_2 (d ∈ get_dependencies g1 n))
      by (rewrite D1, Hsym, <- F1; done).
    rewrite F1 in Hin.
    rewrite (bool_decide_eq_true_2 (d ∈ get_dependencies g n)) by tauto.
    rewrite (bool_decide_eq_true_2 (n ∈ dependents g d)) by done.
    rewrite D1, F1, N1, !app_nil_r.
    split; [by destruct (decide (m = n)) as [->|]|].
    split; [by destruct (decide (m = d)) as [->|]|done].
  - rewrite (bool_decide_eq_false_2 _ Hin).
    change (get_dependencies (mkGraph (<[d:=dependents g1 d ++ [n]]>
              (graph g1)) (reverse_graph g1) (nodes g1)) n)
      with (get_dependencies g1 n).
    rewrite F1 in Hin.
    rewrite (bool_decide_eq_false_2 (d ∈ get_dependencies g1 n))
      by (rewrite D1; tauto).
    rewrite (bool_decide_eq_false_2 (d ∈ get_dependencies g n)) by tauto.
    rewrite (bool_decide_eq_false_2 (n ∈ dependents g d)) by done.
    split; [|split; [|apply N1]].
    + unfold get_dependencies at 1; simpl.
      destruct (decide (m = n)) as [->|Hne].
      * rewrite lookup_insert_eq. simpl. by rewrite D1.
      * rewrite lookup_insert_ne by done. apply D1.
    + unfold dependents at 1; simpl.
      destruct (decide (m = d)) as [->|Hne].
      * rewrite lookup_insert_eq. simpl. by rewrite F1.
      * rewrite lookup_insert_ne by done. apply F1.
Qed.

Lemma built_wf_h g : built g → wf g.
Proof.
  induction 1; [apply wf_empty | by apply wf_add_node | by apply wf_add_dependency
               | apply wf_empty].
Qed.

Lemma add_dependency_edge g n d x y :
  wf g → edge (add_dependency g n d) x y ↔ edge g x y ∨ (x = d ∧ y = n).
Proof.
  intros Hwf. unfold edge. destruct (add_dependency_lookup g n d y Hwf) as [-> _].
  destruct (decide (y = n)) as [->|Hne].
  - case_bool_decide; rewrite ?app_nil_r, ?elem_of_app, ?list_elem_of_singleton;
      naive_solver.
  - naive_solver.
Qed.

(** [has_cycle] on a well-formed graph is [true] exactly when it has a
    cycle. *)
Lemma has_cycle_iff g : wf g → has_cycle g = true ↔ ¬ acyclic g.
Proof.
  intros Hwf. unfold has_cycle.
  destruct (ordered_cases g Hwf) as (o & m & Hinv & [[Hrem Heq]|[Hne Heq]]);
    rewrite Heq.
  - split; [discriminate|]. intros Hn. exfalso. apply Hn. by apply (ok_acyclic g o).
  - split; [|done]. intros _ Hac.
    destruct (closed_walk_cycle g _ (err_cycle g o m Hwf Hinv Hne)) as [x [_ Hx]].
    by apply (Hac x).
Qed.

(** [X1] Every graph built from [DependencyGraph()] with [add_node],
    [add_dependency] and [clear] is well-formed: [nodes] has no duplicates,
    every node has an entry in [graph] and in [reverse_graph], no adjacency
    list repeats a node, the two maps describe the same edges, and every edge
    joins two nodes. *)
Theorem built_well_formed g : built g → wf g.
Proof. apply built_wf_h. Qed.

(** [X2] Insert/lookup: after [add_dependency(node, depends_on)],
    [get_dependencies(node)] is the old list with [depends_on] appended
    (unless it was already there), [get_dependents(depends_on)] is the old
    list with [node] appended (unless already there), every other lookup is
    unchanged, and the nodes are the old ones plus [node] and [depends_on]. *)
Theorem add_dependency_get g n d m :
  built g →
  get_dependencies (add_dependency g n d) m =
    (if decide (m = n) then get_dependencies g n ++
       (if bool_decide (d ∈ get_dependencies g n) then [] else [d])
     else get_dependencies g m) ∧
  get_dependents (add_dependency g n d) m =
    (if decide (m = d) then get_dependents g d ++
       (if bool_decide (n ∈ get_dependents g d) then [] else [n])
     else get_dependents g m) ∧
  (m ∈ nodes (add_dependency g n d) ↔ m ∈ nodes g ∨ m = n ∨ m = d).
Proof. intros Hb. apply add_dependency_lookup. by apply built_wf_h. Qed.

(** [X3] [add_dependency] is idempotent: adding the same dependency twice
    leaves the graph as adding it once. *)
Theorem add_dependency_idempotent g n d :
  built g → add_dependency (add_dependency g n d) n d = add_dependency g n d.
Proof.
  intros Hb. pose proof (built_wf_h g Hb) as Hwf.
  set (g' := add_dependency g n d).
  assert (Hwf' : wf g') by (by apply wf_add_dependency).
  destruct (add_dependency_lookup g n d n Hwf) as (_ & _ & Hn).
  destruct (add_dependency_lookup g n d d Hwf) as (_ & Hdd & Hd).
  assert (Hen : n ∈ nodes g') by (apply Hn; tauto).
  assert (Hed : d ∈ nodes g') by (apply Hd; tauto).
  assert (Hin : n ∈ dependents g' d).
  { unfold g'. rewrite Hdd. rewrite decide_True by done.
    case_bool_decide; [by rewrite app_nil_r|]. set_solver. }
  unfold add_dependency at 1. cbv zeta.
  rewrite (add_node_id g' n Hen), (add_node_id g' d Hed).
  rewrite (bool_decide_eq_true_2 _ Hin).
  rewrite (bool_decide_eq_true_2 (d ∈ get_dependencies g' n)); [done|].
  by apply (wf_sym g' Hwf').
Qed.

(** [X4] [get_cycle_path] never raises on a built graph.  It returns [[]]
    exactly when the graph is acyclic; otherwise the returned nodes all lie
    on one cycle (each reaches every other one, itself included, along
    dependency edges). *)
Theorem get_cycle_path_spec g :
  built g →
  ∃ p, get_cycle_path g = Ok p ∧ (p = [] ↔ acyclic g) ∧
       (∀ x y, x ∈ p → y ∈ p → clos_trans _ (edge g) x y).
Proof.
  intros Hb. pose proof (built_wf_h g Hb) as Hwf. unfold get_cycle_path.
  destruct (ordered_cases g Hwf) as (o & m & Hinv & [[Hrem Heq]|[Hne Heq]]);
    rewrite Heq.
  - exists []. split; [done|]. split; [|set_solver].
    split; [intros _; by apply (ok_acyclic g o)|done].
  - pose proof (err_cycle g o m Hwf Hinv Hne) as Hc.
    eexists. split; [reflexivity|]. split; [|by apply closed_walk_reach].
    split.
    + intros Hp. destruct Hc as [Hl _]. rewrite Hp in Hl. simpl in Hl. lia.
    + intros Hac. exfalso. destruct (closed_walk_cycle g _ Hc) as [x [_ Hx]].
      by apply (Hac x).
Qed.

(** [X5] On a built graph, [get_deployment_batches] never raises
    [RuntimeError("Unable to form deployment batch")]: it raises exactly
    when [has_cycle()] is true, and then with a [CyclicDependencyError]. *)
Theorem get_deployment_batches_raises g :
  built g →
  (∀ msg, get_deployment_batches g ≠ Err (RuntimeError msg)) ∧
  (has_cycle g = true ↔ ∃ p, get_deployment_batches g = Err (CyclicDependencyError p)).
Proof.
  intros Hb. pose proof (built_wf_h g Hb) as Hwf.
  unfold get_deployment_batches, has_cycle.
  destruct (ordered_cases g Hwf) as (o & m & Hinv & [[Hrem Heq]|[Hne Heq]]);
    rewrite Heq.
  - pose proof (ok_topological g o m Hinv Hrem) as Htop.
    destruct (batches_loop_ok g o Hwf Htop (S (List.length o)) [] ∅
                (batches_inv_init g o)) as (bs & D & Hloop & _);
      [simpl; lia|].
    rewrite Hloop. split; [done|]. split; [discriminate|]. intros [p Hp]. done.
  - split; [done|]. split; [intros _; by eexists|done].
Qed.

(** [X6] Adding a dependency that closes a loop creates a cycle: if [node]
    is [depends_on] itself, or [depends_on] already depends, directly or
    not, on [node], then afterwards [has_cycle()] is true. *)
Theorem add_dependency_closes_cycle g n d :
  built g → (n = d ∨ clos_trans _ (edge g) n d) →
  has_cycle (add_dependency g n d) = true.
Proof.
  intros Hb Hp. pose proof (built_wf_h g Hb) as Hwf.
  apply has_cycle_iff; [by apply wf_add_dependency|].
  intros Hac. apply (Hac n).
  assert (Hdn : edge (add_dependency g n d) d n)
    by (apply add_dependency_edge; [done|by right]).
  destruct Hp as [<- | Hp]; [by apply t_step|].
  apply t_trans with d; [|by apply t_step].
  assert (Hmono : ∀ x y, clos_trans _ (edge g) x y →
                   clos_trans _ (edge (add_dependency g n d)) x y).
  { intros x y Hxy. induction Hxy as [x y Hxy|x y z _ IH1 _ IH2].
    - apply t_step, add_dependency_edge; [done|by left].
    - by apply t_trans with y. }
  by apply Hmono.
Qed.

Lemma built_chain_ABC : built chain_ABC.
Proof. unfold chain_ABC. apply built_add_dependency, built_add_dependency, built_new. Qed.

Lemma chain_ABC_reach : clos_trans _ (edge chain_ABC) "A" "C".
Proof.
  apply t_trans with "B"%string; apply t_step; unfold edge;
    rewrite list_elem_of_In; vm_compute; tauto.
Qed.

Lemma built_well_formed_witness : wf chain_ABC.
Proof. apply built_well_formed. apply built_chain_ABC. Defined.

Lemma add_dependency_get_witness :
  get_dependencies (add_dependency chain_ABC "D" "C") "D" =
    (if decide ("D" = "D")%string then get_dependencies chain_ABC "D" ++
       (if bool_decide ("C" ∈ get_dependencies chain_ABC "D") then [] else ["C"%string])
     else get_dependencies chain_ABC "D") ∧
  get_dependents (add_dependency chain_ABC "D" "C") "D" =
    (if decide ("D" = "C")%string then get_dependents chain_ABC "C" ++
       (if bool_decide ("D" ∈ get_dependents chain_ABC "C") then [] else ["D"%string])
     else get_dependents chain_ABC "D") ∧
  ("D" ∈ nodes (add_dependency chain_ABC "D" "C") ↔
   "D" ∈ nodes chain_ABC ∨ "D" = "D" ∨ "D" = "C")%string.
Proof. apply add_dependency_get. apply built_chain_ABC. Defined.

Lemma add_dependency_idempotent_witness :
  add_dependency (add_dependency chain_ABC "A" "C") "A" "C" = add_dependency chain_ABC "A" "C".
Proof. apply add_dependency_idempotent. apply built_chain_ABC. Defined.

Lemma get_cycle_path_spec_witness :
  ∃ p, get_cycle_path chain_ABC = Ok p ∧ (p = [] ↔ acyclic chain_ABC) ∧
       (∀ x y, x ∈ p → y ∈ p → clos_trans _ (edge chain_ABC) x y).
Proof. apply get_cycle_path_spec. apply built_chain_ABC. Defined.

Lemma get_deployment_batches_raises_witness :
  (∀ msg, get_deployment_batches chain_ABC ≠ Err (RuntimeError msg)) ∧
  (has_cycle chain_ABC = true ↔
   ∃ p, get_deployment_batches chain_ABC = Err (CyclicDependencyError p)).
Proof. apply get_deployment_batches_raises. apply built_chain_ABC. Defined.

Lemma add_dependency_closes_cycle_witness :
  has_cycle (add_dependency chain_ABC "A" "C") = true.
Proof.
  apply add_dependency_closes_cycle; [apply built_chain_ABC|].
  right. apply chain_ABC_reach.
Defined.

End DepGraph.


(** * [utils/retry_policies.py]: [ExponentialBackoff.get_delay]

    [base_delay] and [max_delay] are floats (their annotations and defaults,
    and every [ExponentialBackoff] the package creates passes floats).  A
    finite float is modelled by the exact rational [Q] of its value; rounding
    is not modelled.  Without jitter no rounding happens: multiplying a float
    by a power of two is exact until it overflows to [inf], and then
    [min(inf, max_delay)] is [max_delay], as in [Q].
    [random.uniform(a, b)] is [a + (b - a) * random.random()], so a call is
    modelled by the draw [rnd] of [random.random()], a number in [0, 1). *)
Module Backoff.

Local Open Scope Q_scope.

Record ExponentialBackoff := mkBackoff {
  base_delay : Q;
  max_delay : Q;
  max_attempts : Z;
  jitter : bool
}.

Definition uniform (a b rnd : Q) : Q := a + (b - a) * rnd.

(** The delay [get_delay] computes when it returns. *)
Definition delay_value (self : ExponentialBackoff) (rnd : Q) (attempt : nat) : Q :=
  let delay := base_delay self * inject_Z (2 ^ Z.of_nat attempt) in
  let delay := Qmin delay (max_delay self) in
  let delay :=
    if jitter self then
      let jitter_amount := delay * (1 # 4) in
      delay + uniform (- jitter_amount) jitter_amount rnd
    else delay in
  Qmax 0 delay.

(** [get_delay]; [None] when it raises.  [self.base_delay * (2 ** attempt)]
    multiplies a float by an int, which converts the int to a float and
    raises [OverflowError] ("int too large to convert to float") when it
    exceeds the largest float, that is when [2 ** attempt >= 2 ** 1024]. *)
Definition get_delay (self : ExponentialBackoff) (rnd : Q) (attempt : nat) : option Q :=
  if (1024 <=? attempt)%nat then None else Some (delay_value self rnd attempt).




Lemma get_delay_some self rnd n :
  (n < 1024)%nat → get_delay self rnd n = Some (delay_value self rnd n).
Proof.
  intros Hn. unfold get_delay. destruct (Nat.leb_spec 1024 n); [lia|done].
Qed.




(** ** [execute_sync] and [execute_async]

    Both run the same loop ([execute_async] awaits the function and the
    sleeps).  [func k] is the outcome of the [k]-th call ([inl e]: it raised
    [e]; [inr r]: it returned [r]); the function is called with the same
    arguments every time, so this covers any behaviour it may have.  [rnd k]
    is the random draw made by [get_delay] at attempt [k].  [sleep d] is the
    outcome of [time.sleep(d)] (or [asyncio.sleep(d)]): [None] when it
    returns, [Some msg] when it raises (for instance [time.sleep] raises
    [OverflowError] on a delay too large for the platform's clock type).
    The result records the number of calls, the delays slept, and the
    outcome; an exception raised by [get_delay] or by the sleep inside the
    [except] branch is not caught and leaves the loop. *)
Inductive execute_result (A E : Type) :=
| Returned (result : A)
| RetryExhaustedError (attempts : Z) (last_error : E)
| RuntimeError (msg : string)
| OverflowError (msg : string).
Arguments Returned {A E} result.
Arguments RetryExhaustedError {A E} attempts last_error.
Arguments RuntimeError {A E} msg.
Arguments OverflowError {A E} msg.

Section Execute.
Context {A E : Type}.
Variable self : ExponentialBackoff.
Variable func : nat → E + A.
Variable rnd : nat → Q.
Variable sleep : Q → option string.

(** [for attempt in range(self.max_attempts)], [fuel] iterations left,
    followed by the code after the loop. *)
Fixpoint execute_loop (attempt fuel : nat) (last_error : option E)
  : nat * list Q * execute_result A E :=
  match fuel with
  | O =>
      (O, [],
       match last_error with
       | None => RuntimeError "All retry attempts failed with no error captured"
       | Some e => RetryExhaustedError (max_attempts self) e
       end)
  | S fuel' =>
      match func attempt with
      | inr result => (1%nat, [], Returned result)
      | inl e =>
          if (Z.of_nat attempt <? max_attempts self - 1)%Z then
            match get_delay self (rnd attempt) attempt with
            | None => (1%nat, [], OverflowError "int too large to convert to float")
            | Some delay =>
                match sleep delay with
                | Some msg => (1%nat, [], OverflowError msg)
                | None =>
                    let '(n, ds, r) := execute_loop (S attempt) fuel' (Some e) in
                    (S n, delay :: ds, r)
                end
            end
          else
            let '(n, ds, r) := execute_loop (S attempt) fuel' (Some e) in
            (S n, ds, r)
      end
  end.

Definition execute_sync : nat * list Q * execute_result A E :=
  execute_loop 0 (Z.to_nat (max_attempts self)) None.

Definition execute_async : nat * list Q * execute_result A E := execute_sync.

End Execute.

(** [with_retry(max_attempts, base_delay, max_delay)(func)]: a fresh
    [ExponentialBackoff] (jitter on) running [execute_async]. *)
Definition with_retry {A E} (max_attempts : Z) (base_delay max_delay : Q)
    (func : nat → E + A) (rnd : nat → Q) (sleep : Q → option string)
  : nat * list Q * execute_result A E :=
  execute_async (mkBackoff base_delay max_delay max_attempts true) func rnd sleep.

Lemma execute_loop_success {A E} self (func : nat → E + A) rnd sleep k a :
  (Z.of_nat k < max_attempts self)%Z → (k <= 1024)%nat →
  (∀ i, (i < k)%nat → ∃ e, func i = inl e) → func k = inr a →
  (∀ i, (i < k)%nat → sleep (delay_value self (rnd i) i) = None) →
  ∀ f j le, (k < j + f)%nat → (j <= k)%nat →
  execute_loop self func rnd sleep j f le =
    (S (k - j), map (fun i => delay_value self (rnd i) i) (seq j (k - j)), Returned a).
Proof.
  intros Hk Hk' Hfail Ha Hs f. induction f as [|f IH]; intros j le Hlt Hle; [lia|].
  cbn [execute_loop]. destruct (decide (j = k)) as [->|Hne].
  - rewrite Ha. by rewrite Nat.sub_diag.
  - destruct (Hfail j) as [e He]; [lia|]. rewrite He.
    assert (Hj : (Z.of_nat j <? max_attempts self - 1)%Z = true) by (apply Z.ltb_lt; lia).
    rewrite Hj, get_delay_some, Hs by lia.
    rewrite (IH (S j) (Some e)) by lia.
    replace (k - j)%nat with (S (k - S j)) by lia. reflexivity.
Qed.

Lemma execute_loop_exhausted {A E} self (func : nat → E + A) rnd sleep :
  (max_attempts self <= 1025)%Z →
  (∀ i, (i < Z.to_nat (max_attempts self) - 1)%nat →
        sleep (delay_value self (rnd i) i) = None) →
  ∀ f j le, (1 <= f)%nat → (Z.of_nat (j + f) = max_attempts self)%Z →
  (∀ i, (j <= i < j + f)%nat → ∃ e, func i = inl e) →
  ∃ e, func (j + f - 1)%nat = inl e ∧
    execute_loop self func rnd sleep j f le =
      (f, map (fun i => delay_value self (rnd i) i) (seq j (f - 1)),
       RetryExhaustedError (max_attempts self) e).
Proof.
  intros Hm1 Hs f. induction f as [|f IH]; intros j le Hf Hm Hfail; [lia|].
  cbn [execute_loop]. destruct (Hfail j) as [e He]; [lia|]. rewrite He.
  destruct f as [|f].
  - exists e. replace (j + 1 - 1)%nat with j by lia. split; [done|].
    assert (Hj : (Z.of_nat j <? max_attempts self - 1)%Z = false) by (apply Z.ltb_ge; lia).
    rewrite Hj. reflexivity.
  - destruct (IH (S j) (Some e)) as (e' & He' & Hr); [lia|lia|intros i Hi; apply Hfail; lia|].
    exists e'. split; [by replace (j + S (S f) - 1)%nat with (S j + S f - 1)%nat by lia|].
    assert (Hj : (Z.of_nat j <? max_attempts self - 1)%Z = true) by (apply Z.ltb_lt; lia).
    rewrite Hj, get_delay_some, Hs by lia. rewrite Hr.
    replace (S (S f) - 1)%nat with (S f) by lia.
    replace (S f - 1)%nat with f by lia. reflexivity.
Qed.

Lemma execute_loop_overflow {A E} self (func : nat → E + A) rnd sleep :
  (∀ i, (i < 1024)%nat → sleep (delay_value self (rnd i) i) = None) →
  ∀ f j le, (j <= 1024)%nat → (Z.of_nat (j + f) = max_attempts self)%Z →
  (1026 <= max_attempts self)%Z →
  (∀ i, (j <= i < j + f)%nat → ∃ e, func i = inl e) →
  execute_loop self func rnd sleep j f le =
    ((1025 - j)%nat, map (fun i => delay_value self (rnd i) i) (seq j (1024 - j)),
     OverflowError "int too large to convert to float").
Proof.
  intros Hs f. induction f as [|f IH]; intros j le Hj Hm Hm' Hfail; [lia|].
  cbn [execute_loop]. destruct (Hfail j) as [e He]; [lia|]. rewrite He.
  assert (Hj' : (Z.of_nat j <? max_attempts self - 1)%Z = true) by (apply Z.ltb_lt; lia).
  rewrite Hj'. destruct (decide (j = 1024%nat)) as [->|Hne].
  - reflexivity.
  - rewrite get_delay_some, Hs by lia.
    rewrite (IH (S j) (Some e)) by (lia || (intros i Hi; apply Hfail; lia)).
    replace (1025 - j)%nat with (S (1025 - S j)) by lia.
    replace (1024 - j)%nat with (S (1024 - S j)) by lia. reflexivity.
Qed.

(** [X7] If the first [k] calls raise and call [k] returns [a], with
    [k < max_attempts], [k <= 1024] and every sleep returning, then
    [execute_sync] (and [execute_async]) returns [a] after exactly [k + 1]
    calls, having slept [get_delay(0)], ..., [get_delay(k - 1)] in turn. *)
Theorem execute_sync_success {A E} self (func : nat → E + A) rnd sleep k a :
  (Z.of_nat k < max_attempts self)%Z → (k <= 1024)%nat →
  (∀ i, (i < k)%nat → ∃ e, func i = inl e) → func k = inr a →
  (∀ i, (i < k)%nat → sleep (delay_value self (rnd i) i) = None) →
  execute_sync self func rnd sleep =
    (S k, map (fun i => delay_value self (rnd i) i) (seq 0 k), Returned a).
Proof.
  intros Hk Hk' Hfail Ha Hs. unfold execute_sync.
  rewrite (execute_loop_success self func rnd sleep k a Hk Hk' Hfail Ha Hs
             (Z.to_nat (max_attempts self)) 0 None) by lia.
  by rewrite Nat.sub_0_r.
Qed.

(** [X8] If every call raises: with [max_attempts <= 0] the function is never
    called and [RuntimeError] is raised.  With [1 <= max_attempts <= 1025]
    (and every sleep returning) it is called exactly [max_attempts] times,
    [get_delay(0)], ..., [get_delay(max_attempts - 2)] are slept (none after
    the last call), and [RetryExhaustedError] is raised with [max_attempts]
    and the error of the last call.  With [max_attempts >= 1026] the
    function is called 1025 times and [get_delay(1024)] raises
    [OverflowError] instead. *)
Theorem execute_sync_exhausted {A E} self (func : nat → E + A) rnd sleep :
  (∀ i, (i < Z.to_nat (max_attempts self))%nat → ∃ e, func i = inl e) →
  ((max_attempts self <= 0)%Z →
     execute_sync self func rnd sleep =
       (O, [], RuntimeError "All retry attempts failed with no error captured")) ∧
  ((1 <= max_attempts self <= 1025)%Z →
   (∀ i, (i < Z.to_nat (max_attempts self) - 1)%nat →
         sleep (delay_value self (rnd i) i) = None) →
     ∃ e, func (Z.to_nat (max_attempts self) - 1)%nat = inl e ∧
       execute_sync self func rnd sleep =
         (Z.to_nat (max_attempts self),
          map (fun i => delay_value self (rnd i) i) (seq 0 (Z.to_nat (max_attempts self) - 1)),
          RetryExhaustedError (max_attempts self) e)) ∧
  ((1026 <= max_attempts self)%Z →
   (∀ i, (i < 1024)%nat → sleep (delay_value self (rnd i) i) = None) →
     execute_sync self func rnd sleep =
       (1025%nat, map (fun i => delay_value self (rnd i) i) (seq 0 1024),
        OverflowError "int too large to convert to float")).
Proof.
  intros Hfail. split; [|split].
  - intros Hm. unfold execute_sync.
    replace (Z.to_nat (max_attempts self)) with O by lia. reflexivity.
  - intros Hm Hs. unfold execute_sync.
    destruct (execute_loop_exhausted self func rnd sleep ltac:(lia) Hs
                (Z.to_nat (max_attempts self)) 0 None)
      as (e & He & ->); [lia|lia|intros i Hi; apply Hfail; lia|].
    exists e. split; [done|]. reflexivity.
  - intros Hm Hs. unfold execute_sync.
    apply (execute_loop_overflow self func rnd sleep Hs); [lia|lia|lia|].
    intros i Hi. apply Hfail. lia.
Qed.

(** A call that raises once and then returns [42]. *)
Definition flaky (i : nat) : string + Z :=
  if (i =? 0)%nat then inl "connection reset"%string else inr 42%Z.

Lemma execute_sync_success_witness :
  with_retry 3 1 60 flaky (fun _ => 1 # 2) (fun _ => None) =
    (2%nat, [delay_value (mkBackoff 1 60 3 true) (1 # 2) 0], Returned 42%Z).
Proof.
  unfold with_retry, execute_async.
  apply (execute_sync_success (mkBackoff 1 60 3 true) flaky (fun _ => 1 # 2)
           (fun _ => None) 1 42%Z).
  - simpl. lia.
  - lia.
  - intros i Hi. exists "connection reset"%string. unfold flaky.
    replace i with O by lia. reflexivity.
  - reflexivity.
  - intros i _. reflexivity.
Defined.

Lemma execute_sync_exhausted_witness :
  ((max_attempts (mkBackoff 1 60 3 false) <= 0)%Z →
     execute_sync (mkBackoff 1 60 3 false) (fun _ : nat => @inl string Z "down"%string)
       (fun _ => 0) (fun _ => None) =
       (O, [], RuntimeError "All retry attempts failed with no error captured")) ∧
  ((1 <= max_attempts (mkBackoff 1 60 3 false) <= 1025)%Z →
   (∀ i, (i < Z.to_nat (max_attempts (mkBackoff 1 60 3 false)) - 1)%nat →
         (fun _ : Q => @None string) (delay_value (mkBackoff 1 60 3 false) ((fun _ => 0) i) i)
           = None) →
     ∃ e, (fun _ : nat => @inl string Z "down"%string)
            (Z.to_nat (max_attempts (mkBackoff 1 60 3 false)) - 1)%nat = inl e ∧
       execute_sync (mkBackoff 1 60 3 false) (fun _ : nat => @inl string Z "down"%string)
         (fun _ => 0) (fun _ => None) =
         (Z.to_nat (max_attempts (mkBackoff 1 60 3 false)),
          map (fun i => delay_value (mkBackoff 1 60 3 false) ((fun _ => 0) i) i)
              (seq 0 (Z.to_nat (max_attempts (mkBackoff 1 60 3 false)) - 1)),
          RetryExhaustedError (max_attempts (mkBackoff 1 60 3 false)) e)) ∧
  ((1026 <= max_attempts (mkBackoff 1 60 3 false))%Z →
   (∀ i, (i < 1024)%nat →
         (fun _ : Q => @None string) (delay_value (mkBackoff 1 60 3 false) ((fun _ => 0) i) i)
           = None) →
     execute_sync (mkBackoff 1 60 3 false) (fun _ : nat => @inl string Z "down"%string)
       (fun _ => 0) (fun _ => None) =
       (1025%nat, map (fun i => delay_value (mkBackoff 1 60 3 false) ((fun _ => 0) i) i)
                      (seq 0 1024),
        OverflowError "int too large to convert to float")).
Proof.
  apply execute_sync_exhausted. intros i _. by eexists.
Defined.

(** Every call raises and [max_attempts] is 1100: [get_delay(1024)] raises. *)
Lemma execute_sync_overflow_run :
  (execute_sync (mkBackoff 1 60 1100 false) (fun _ : nat => @inl string Z "down"%string)
     (fun _ => 0) (fun _ => None)).2 =
    OverflowError "int too large to convert to float".
Proof. vm_compute. reflexivity. Qed.

End Backoff.


(** * [utils/retry_policies.py]: [CircuitBreaker]

    Clock readings ([time.time()]) are inputs: a call reads the clock once
    in the OPEN check and once more in [_on_failure].  The guarded function
    is abstracted by its outcome [func_ok] (returns, or raises). *)
Module Breaker.

Local Open Scope Q_scope.

Inductive CircuitState := CLOSED | OPEN | HALF_OPEN.

Record CircuitBreaker := mkCB {
  failure_threshold : Z;
  recovery_timeout : Q;
  success_threshold : Z;
  state : CircuitState;
  failure_count : Z;
  success_count : Z;
  last_failure_time : option Q
}.

Definition set_state (cb : CircuitBreaker) (s : CircuitState) : CircuitBreaker :=
  mkCB (failure_threshold cb) (recovery_timeout cb) (success_threshold cb)
       s (failure_count cb) (success_count cb) (last_failure_time cb).
Definition set_failure_count (cb : CircuitBreaker) (n : Z) : CircuitBreaker :=
  mkCB (failure_threshold cb) (recovery_timeout cb) (success_threshold cb)
       (state cb) n (success_count cb) (last_failure_time cb).
Definition set_success_count (cb : CircuitBreaker) (n : Z) : CircuitBreaker :=
  mkCB (failure_threshold cb) (recovery_timeout cb) (success_threshold cb)
       (state cb) (failure_count cb) n (last_failure_time cb).
Definition set_last_failure_time (cb : CircuitBreaker) (t : Q) : CircuitBreaker :=
  mkCB (failure_threshold cb) (recovery_timeout cb) (success_threshold cb)
       (state cb) (failure_count cb) (success_count cb) (Some t).

(** [CircuitBreaker()] *)
Definition new_breaker : CircuitBreaker := mkCB 5 60 2 CLOSED 0 0 None.

(** Python truthiness of [self.last_failure_time]: [None] and [0.0] are false. *)
Definition truthy (o : option Q) : bool :=
  match o with Some t => negb (Qeq_bool t 0) | None => false end.

(** The OPEN check at the top of [call]: [None] is [CircuitBreakerError]
    (raised before the function runs, the breaker untouched). *)
Definition gate (self : CircuitBreaker) (now : Q) : option CircuitBreaker :=
  match state self with
  | OPEN =>
      match last_failure_time self with
      | Some t =>
          if truthy (Some t) then
            let elapsed := now - t in
            if Qle_bool (recovery_timeout self) elapsed
            then Some (set_success_count (set_state self HALF_OPEN) 0)
            else None
          else Some self
      | None => Some self
      end
  | _ => Some self
  end.

Definition _on_success (self : CircuitBreaker) : CircuitBreaker :=
  match state self with
  | HALF_OPEN =>
      let self := set_success_count self (success_count self + 1)%Z in
      if (success_threshold self <=? success_count self)%Z then
        set_success_count (set_failure_count (set_state self CLOSED) 0) 0
      else self
  | CLOSED => set_failure_count self 0
  | OPEN => self
  end.

Definition _on_failure (self : CircuitBreaker) (now : Q) : CircuitBreaker :=
  let self := set_last_failure_time (set_failure_count self (failure_count self + 1)%Z) now in
  match state self with
  | HALF_OPEN => set_success_count (set_state self OPEN) 0
  | CLOSED =>
      if (failure_threshold self <=? failure_count self)%Z then set_state self OPEN
      else self
  | OPEN => self
  end.

Inductive call_outcome := Rejected | Invoked (func_ok : bool).

(** The [try] block of [call]: the function runs, then the hook. *)
Definition execute (self : CircuitBreaker) (t_fail : Q) (func_ok : bool)
  : CircuitBreaker * call_outcome :=
  if func_ok then (_on_success self, Invoked true)
  else (_on_failure self t_fail, Invoked false).

Definition call (self : CircuitBreaker) (t_check t_fail : Q) (func_ok : bool)
  : CircuitBreaker * call_outcome :=
  match gate self t_check with
  | None => (self, Rejected)
  | Some self' => execute self' t_fail func_ok
  end.

(** A sequence of calls, each given by its two clock readings and outcome. *)
Fixpoint run_calls (self : CircuitBreaker) (cs : list (Q * Q * bool))
  : CircuitBreaker :=
  match cs with
  | [] => self
  | (t0, t1, ok) :: cs' => run_calls (fst (call self t0 t1 ok)) cs'
  end.

Definition all_fail (cs : list (Q * Q * bool)) : Prop :=
  Forall (fun c => snd c = false) cs.
Definition all_succeed (cs : list (Q * Q * bool)) : Prop :=
  Forall (fun c => snd c = true) cs.

Lemma open_stays_open cb cs :
  state cb = OPEN → all_fail cs → state (run_calls cb cs) = OPEN.
Proof.
  revert cb. induction cs as [|[[t0 t1] ok] cs IH]; intros cb Hs Hf; [done|].
  inversion Hf as [|? ? Hok Hf']; subst. simpl in Hok; subst ok.
  simpl. apply IH; [|done]. unfold call, gate. rewrite Hs.
  destruct (last_failure_time cb) as [t|]; simpl.
  - destruct (negb (Qeq_bool t 0)); simpl.
    + destruct (Qle_bool _ _); done.
    + unfold _on_failure. simpl. by rewrite Hs.
  - unfold _on_failure. simpl. by rewrite Hs.
Qed.

Lemma closed_failures cb cs :
  state cb = CLOSED → (0 <= failure_count cb)%Z → cs ≠ [] → all_fail cs →
  (failure_threshold cb <= failure_count cb + Z.of_nat (List.length cs))%Z →
  state (run_calls cb cs) = OPEN.
Proof.
  revert cb. induction cs as [|[[t0 t1] ok] cs IH]; intros cb Hs Hc Hne Hf Hle; [done|].
  inversion Hf as [|? ? Hok Hf']; subst. simpl in Hok; subst ok.
  simpl. unfold call, gate. rewrite Hs. simpl. unfold _on_failure. simpl. rewrite Hs.
  destruct (failure_threshold cb <=? failure_count cb + 1)%Z eqn:Ht.
  - by apply open_stays_open.
  - apply Z.leb_gt in Ht. apply IH; simpl; try done; try lia.
    + destruct cs; [simpl in Hle; lia|done].
    + simpl in Hle. lia.
Qed.

Lemma half_open_successes cb cs :
  state cb = HALF_OPEN → all_succeed cs →
  (Z.of_nat (List.length cs) + success_count cb < success_threshold cb)%Z →
  state (run_calls cb cs) = HALF_OPEN ∧
  success_count (run_calls cb cs) = (success_count cb + Z.of_nat (List.length cs))%Z.
Proof.
  revert cb. induction cs as [|[[t0 t1] ok] cs IH]; intros cb Hs Hf Hlt.
  - simpl. split; [done|lia].
  - inversion Hf as [|? ? Hok Hf']; subst. simpl in Hok; subst ok.
    simpl. unfold call, gate. rewrite Hs. simpl. unfold _on_success. rewrite Hs. simpl.
    simpl in Hlt.
    rewrite (proj2 (Z.leb_gt _ _)) by lia.
    destruct (IH (set_success_count cb (success_count cb + 1))) as [H1 H2];
      simpl; [done|done|lia|].
    split; [done|]. rewrite H2. simpl. lia.
Qed.

Lemma half_open_close cb cs :
  state cb = HALF_OPEN → all_succeed cs → cs ≠ [] →
  (success_count cb + Z.of_nat (List.length cs) = success_threshold cb)%Z →
  state (run_calls cb cs) = CLOSED ∧ failure_count (run_calls cb cs) = 0%Z ∧
  success_count (run_calls cb cs) = 0%Z.
Proof.
  revert cb. induction cs as [|[[t0 t1] ok] cs IH]; intros cb Hs Hf Hne Heq; [done|].
  inversion Hf as [|? ? Hok Hf']; subst. simpl in Hok; subst ok.
  simpl. unfold call, gate. rewrite Hs. simpl. unfold _on_success. rewrite Hs. simpl.
  simpl in Heq.
  destruct (success_threshold cb <=? success_count cb + 1)%Z eqn:Ht.
  - apply Z.leb_le in Ht. destruct cs; [done|simpl in Heq; lia].
  - apply Z.leb_gt in Ht. apply IH; simpl; try done.
    + destruct cs; [simpl in Heq; lia|done].
    + lia.
Qed.

Lemma truthy_pos t : 0 < t → truthy (Some t) = true.
Proof.
  intros Ht. simpl. destruct (Qeq_bool t 0) eqn:E; [|done].
  apply Qeq_bool_iff in E. lra.
Qed.

Lemma gate_half_open s t : state s = HALF_OPEN → gate s t = Some s.
Proof. intros Hs. unfold gate. by rewrite Hs. Qed.

(** [C4] The breaker's state machine, for thresholds of at least one:
    (a) from CLOSED (with a non-negative failure count),
    [failure_threshold] failed calls in a row leave it OPEN;
    (b) while OPEN, a call made before [recovery_timeout] has elapsed since
    the (positive) last failure time raises [CircuitBreakerError], leaves the
    breaker unchanged and does not run the function;
    (c) once the timeout has elapsed, the call first moves to HALF_OPEN with
    [success_count = 0] and then runs the function in that state; later
    calls made in HALF_OPEN go straight to the function, with no further
    transition;
    (d) from HALF_OPEN with [success_count = 0], fewer than
    [success_threshold] successes keep it HALF_OPEN and exactly
    [success_threshold] successes close it with both counters reset;
    (e) a failed call in HALF_OPEN moves it back to OPEN. *)
Theorem circuit_breaker_spec cb :
  (1 <= failure_threshold cb)%Z → (1 <= success_threshold cb)%Z →
  (state cb = CLOSED → (0 <= failure_count cb)%Z →
   ∀ cs, all_fail cs → Z.of_nat (List.length cs) = failure_threshold cb →
   state (run_calls cb cs) = OPEN) ∧
  (∀ t t0 t1 ok, state cb = OPEN → last_failure_time cb = Some t → 0 < t →
   t0 - t < recovery_timeout cb → call cb t0 t1 ok = (cb, Rejected)) ∧
  (∀ t t0 t1 ok, state cb = OPEN → last_failure_time cb = Some t → 0 < t →
   recovery_timeout cb <= t0 - t →
   let h := set_success_count (set_state cb HALF_OPEN) 0 in
   gate cb t0 = Some h ∧ state h = HALF_OPEN ∧ success_count h = 0%Z ∧
   call cb t0 t1 ok = execute h t1 ok ∧
   ∀ s t', state s = HALF_OPEN → gate s t' = Some s) ∧
  (state cb = HALF_OPEN → success_count cb = 0%Z → ∀ cs, all_succeed cs →
   ((Z.of_nat (List.length cs) < success_threshold cb)%Z →
      state (run_calls cb cs) = HALF_OPEN) ∧
   (Z.of_nat (List.length cs) = success_threshold cb →
      state (run_calls cb cs) = CLOSED ∧ failure_count (run_calls cb cs) = 0%Z ∧
      success_count (run_calls cb cs) = 0%Z)) ∧
  (state cb = HALF_OPEN → ∀ t0 t1,
   snd (call cb t0 t1 false) = Invoked false ∧
   state (fst (call cb t0 t1 false)) = OPEN).
Proof.
  intros Hft Hst. split; [|split; [|split; [|split]]].
  - intros Hs Hc cs Hf Hlen. apply closed_failures; try done; [|lia].
    intros ->. simpl in Hlen. lia.
  - intros t t0 t1 ok Hs Hl Ht Hlt. unfold call, gate. rewrite Hs, Hl, truthy_pos by done.
    destruct (Qle_bool (recovery_timeout cb) (t0 - t)) eqn:E; [|done].
    apply Qle_bool_iff in E. lra.
  - intros t t0 t1 ok Hs Hl Ht Hle h.
    assert (Hg : gate cb t0 = Some h).
    { unfold gate. rewrite Hs, Hl, truthy_pos by done.
      apply Qle_bool_iff in Hle. by rewrite Hle. }
    split; [done|]. split; [done|]. split; [done|]. split.
    + unfold call. by rewrite Hg.
    + apply gate_half_open.
  - intros Hs Hc cs Hf. split.
    + intros Hlt. apply half_open_successes; [done|done|lia].
    + intros Heq. apply half_open_close; try done; [|lia].
      intros ->. simpl in Heq. lia.
  - intros Hs t0 t1. unfold call. rewrite gate_half_open by done. simpl.
    split; [done|]. unfold _on_failure. simpl. by rewrite Hs.
Qed.

Lemma circuit_breaker_spec_witness :
  (1 <= failure_threshold new_breaker)%Z ∧ (1 <= success_threshold new_breaker)%Z ∧
  state (run_calls new_breaker
           [(1, 1, false); (2, 2, false); (3, 3, false); (4, 4, false); (5, 5, false)])
  = OPEN.
Proof.
  assert (H1 : (1 <= failure_threshold new_breaker)%Z) by (simpl; lia).
  assert (H2 : (1 <= success_threshold new_breaker)%Z) by (simpl; lia).
  split; [exact H1|]. split; [exact H2|].
  apply (proj1 (circuit_breaker_spec new_breaker H1 H2)); [reflexivity|simpl; lia| |reflexivity].
  repeat constructor.
Defined.

(** [CircuitBreaker(failure_threshold, recovery_timeout, success_threshold)] *)
Definition init (failure_threshold : Z) (recovery_timeout : Q) (success_threshold : Z)
  : CircuitBreaker :=
  mkCB failure_threshold recovery_timeout success_threshold CLOSED 0 0 None.

(** [reset()] *)
Definition reset (self : CircuitBreaker) : CircuitBreaker :=
  mkCB (failure_threshold self) (recovery_timeout self) (success_threshold self)
       CLOSED 0 0 None.

(** What a user does with a breaker: a [call] (its two clock readings and
    whether the function succeeds) or a manual [reset]. *)
Inductive op := Call (t_check t_fail : Q) (func_ok : bool) | Reset.

Definition step (self : CircuitBreaker) (o : op) : CircuitBreaker :=
  match o with
  | Call t0 t1 ok => fst (call self t0 t1 ok)
  | Reset => reset self
  end.

Definition run_ops (self : CircuitBreaker) (os : list op) : CircuitBreaker :=
  fold_left step os self.

(** The clock readings taken by [_on_failure] are positive. *)
Definition clock_ok (o : op) : Prop :=
  match o with Call _ t1 _ => 0 < t1 | Reset => True end.

(** The state invariant kept between calls. *)
Definition breaker_inv (cb : CircuitBreaker) : Prop :=
  (0 <= failure_count cb)%Z ∧
  match state cb with
  | CLOSED => (failure_count cb < failure_threshold cb)%Z ∧ success_count cb = 0%Z
  | OPEN => truthy (last_failure_time cb) = true ∧ success_count cb = 0%Z
  | HALF_OPEN => truthy (last_failure_time cb) = true ∧
                 (1 <= success_count cb < success_threshold cb)%Z
  end.

Lemma step_inv cb o :
  (1 <= failure_threshold cb)%Z → clock_ok o → breaker_inv cb →
  breaker_inv (step cb o) ∧ failure_threshold (step cb o) = failure_threshold cb.
Proof.
  destruct cb as [ft rt st s fc sc lt]. unfold breaker_inv. simpl.
  intros Hft Hc [Hfc Hs]. destruct o as [t0 t1 ok|]; simpl in *.
  - pose proof (truthy_pos t1 Hc) as Ht1. simpl in Ht1.
    unfold call, gate, execute. simpl.
    destruct s; simpl in Hs |- *.
    + destruct Hs as [Hlt ->]. destruct ok; simpl.
      * unfold _on_success. simpl. lia.
      * unfold _on_failure. simpl.
        destruct (ft <=? fc + 1)%Z eqn:E; simpl; rewrite ?Ht1.
        -- lia.
        -- apply Z.leb_gt in E. lia.
    + destruct Hs as [Ht ->]. destruct lt as [t|]; [|done].
      simpl in Ht. rewrite Ht. destruct (Qle_bool rt (t0 - t)); simpl; [|rewrite ?Ht; lia].
      destruct ok; simpl.
      * unfold _on_success. simpl.
        destruct (st <=? 0 + 1)%Z eqn:E; simpl.
        -- lia.
        -- apply Z.leb_gt in E. simpl. rewrite Ht. lia.
      * unfold _on_failure. simpl. rewrite Ht1. lia.
    + destruct Hs as [Ht Hsc]. destruct ok; simpl.
      * unfold _on_success. simpl.
        destruct (st <=? sc + 1)%Z eqn:E; simpl.
        -- lia.
        -- apply Z.leb_gt in E. rewrite Ht. lia.
      * unfold _on_failure. simpl. rewrite Ht1. lia.
  - unfold reset. simpl. lia.
Qed.

Lemma run_ops_inv_gen cb os :
  (1 <= failure_threshold cb)%Z → Forall clock_ok os → breaker_inv cb →
  breaker_inv (run_ops cb os).
Proof.
  unfold run_ops. revert cb. induction os as [|o os IH]; intros cb Hft Hos Hinv; [done|].
  inversion Hos as [|? ? Ho Hos']; subst. simpl.
  destruct (step_inv cb o Hft Ho Hinv) as [Hi Hf].
  apply IH; [lia|done|done].
Qed.

(** [X9] For a breaker built with [failure_threshold >= 1] and any sequence
    of calls and manual resets (with positive clock readings): the failure
    count is never negative; in CLOSED it stays below [failure_threshold]
    and the success count is 0; in OPEN the last failure time is set and
    truthy (so the recovery-timeout check is always made) and the success
    count is 0; in HALF_OPEN the last failure time is truthy and
    [1 <= success_count < success_threshold]. *)
Theorem breaker_reachable_inv ft rt st os :
  (1 <= ft)%Z → Forall clock_ok os → breaker_inv (run_ops (init ft rt st) os).
Proof.
  intros Hft Hos. apply run_ops_inv_gen; [done|done|].
  unfold breaker_inv. simpl. lia.
Qed.

Lemma breaker_reachable_inv_witness :
  breaker_inv (run_ops (init 5 60 2)
    [Call 1 1 false; Call 2 2 false; Call 3 3 false; Call 4 4 false; Call 5 5 false;
     Call 70 70 true; Reset; Call 80 80 true]).
Proof. apply breaker_reachable_inv; [lia|]. repeat constructor; simpl; lra. Defined.

End Breaker.


(** * [validation/endpoint_tester.py] and [validation/fix_orchestrator.py]

    [fix_template_issue] runs the external [specify bicep] command; it is an
    oracle from the issue description to its boolean outcome.  The
    observable effects of [attempt_fix] are the orchestrator's new state, the
    issue descriptions sent to that command, and the returned boolean. *)
Module TestStatus.
Inductive TestStatus := SUCCESS | FAILURE | TIMEOUT | AUTH_ERROR | SERVER_ERROR | SKIPPED.
End TestStatus.

Module ErrorCategory.
Inductive ErrorCategory := TIMEOUT | AUTH_ERROR | SERVER_ERROR | TEMPLATE_ISSUE
  | DEPENDENCY_ISSUE | CONFIGURATION_ISSUE | NETWORK_ISSUE | UNKNOWN.

Definition value (c : ErrorCategory) : string :=
  match c with
  | TIMEOUT => "timeout" | AUTH_ERROR => "auth_error" | SERVER_ERROR => "server_error"
  | TEMPLATE_ISSUE => "template_issue" | DEPENDENCY_ISSUE => "dependency_issue"
  | CONFIGURATION_ISSUE => "configuration_issue" | NETWORK_ISSUE => "network_issue"
  | UNKNOWN => "unknown"
  end.
End ErrorCategory.

Module FixStrategy.
Inductive FixStrategy := RETRY | UPDATE_TEMPLATE | UPDATE_DEPENDENCIES | RECONFIGURE
  | MANUAL_INTERVENTION.
End FixStrategy.

Module FixOrch.

Import TestStatus ErrorCategory FixStrategy.

#[global] Instance ErrorCategory_eq_dec : EqDecision ErrorCategory.
Proof. solve_decision. Defined.

Record Endpoint := mkEndpoint { method : string; path : string }.

Record TestResult := mkTestResult {
  endpoint : Endpoint;
  status : TestStatus;
  status_code : option Z;
  error_message : option string
}.

Record FixAttempt := mkFixAttempt {
  error_category : ErrorCategory;
  fix_strategy : FixStrategy;
  description : string;
  success : bool;
  fa_error_message : option string
}.

Record FixOrchestrator := mkFixOrchestrator {
  max_fix_attempts : Z;
  enable_template_fixes : bool;
  fix_attempts : list FixAttempt;
  circuit_breaker_open : bool
}.

Definition set_fix_attempts (self : FixOrchestrator) (l : list FixAttempt) :=
  mkFixOrchestrator (max_fix_attempts self) (enable_template_fixes self) l
                    (circuit_breaker_open self).
Definition set_circuit_breaker_open (self : FixOrchestrator) (b : bool) :=
  mkFixOrchestrator (max_fix_attempts self) (enable_template_fixes self)
                    (fix_attempts self) b.

(** Python's [f"{x}"] of an optional value. *)
Definition show_opt_Z (o : option Z) : string :=
  match o with Some z => pretty z | None => "None" end.
Definition show_opt_str (o : option string) : string :=
  match o with Some s => s | None => "None" end.

(** [classifications.setdefault(category, []).append(message)] on an
    insertion-ordered dict. *)
Fixpoint setdefault_append (k : ErrorCategory) (m : string)
    (d : list (ErrorCategory * list string)) : list (ErrorCategory * list string) :=
  match d with
  | [] => [(k, [m])]
  | (k', ms) :: d' =>
      if decide (k = k') then (k', ms ++ [m]) :: d'
      else (k', ms) :: setdefault_append k m d'
  end.

(** The [if/elif] chain on one test result. *)
Definition classify_result (result : TestResult) : option (ErrorCategory * string) :=
  let ep := method (endpoint result) +:+ " " +:+ path (endpoint result) in
  match status result with
  | TestStatus.TIMEOUT => Some (TIMEOUT, "Endpoint timeout: " +:+ ep)
  | TestStatus.AUTH_ERROR => Some (AUTH_ERROR, "Authentication error: " +:+ ep)
  | TestStatus.SERVER_ERROR =>
      Some (SERVER_ERROR,
            "Server error (" +:+ show_opt_Z (status_code result) +:+ "): " +:+ ep)
  | TestStatus.FAILURE =>
      Some (UNKNOWN, "Test failure: " +:+ ep +:+ " - " +:+
                     show_opt_str (error_message result))
  | _ => None
  end.

(** [str.lower()] on ASCII text.  Messages are modelled as byte strings;
    on an ASCII message this is exactly Python's [str.lower()].  Python
    also lower-cases non-ASCII characters (U+212A KELVIN SIGN becomes ["k"]),
    which this function does not model, so the properties below that depend
    on lower-casing assume an ASCII message ([is_ascii]). *)
Definition lower_ascii (c : Ascii.ascii) : Ascii.ascii :=
  let n := Ascii.nat_of_ascii c in
  if (65 <=? n)%nat && (n <=? 90)%nat then Ascii.ascii_of_nat (n + 32) else c.

Fixpoint lower (s : string) : string :=
  match s with
  | EmptyString => EmptyString
  | String c s' => String (lower_ascii c) (lower s')
  end.

(** Every character of [s] is ASCII (code point below 128). *)
Definition is_ascii (s : string) : bool :=
  forallb (fun c => Nat.ltb (Ascii.nat_of_ascii c) 128) (list_ascii_of_string s).

(** [keyword in s] *)
Fixpoint contains (keyword s : string) : bool :=
  String.prefix keyword s ||
  match s with EmptyString => false | String _ s' => contains keyword s' end.

Definition any_in (keywords : list string) (s : string) : bool :=
  existsb (fun keyword => contains keyword s) keywords.

Definition _classify_deployment_error (error_message : string) : ErrorCategory :=
  let error_lower := lower error_message in
  if any_in ["template"; "bicep"; "syntax"; "validation"; "schema"] error_lower
  then TEMPLATE_ISSUE
  else if any_in ["dependency"; "resource not found"; "does not exist"] error_lower
  then DEPENDENCY_ISSUE
  else if any_in ["configuration"; "setting"; "parameter"; "invalid value"] error_lower
  then CONFIGURATION_ISSUE
  else if any_in ["network"; "timeout"; "connection"; "unreachable"] error_lower
  then NETWORK_ISSUE
  else if any_in ["auth"; "permission"; "forbidden"; "unauthorized"] error_lower
  then AUTH_ERROR
  else UNKNOWN.

Definition _classify_errors (test_results : list TestResult)
    (deployment_errors : option (list string)) : list (ErrorCategory * list string) :=
  let classifications :=
    fold_left (fun acc result =>
                 match classify_result result with
                 | Some (category, message) => setdefault_append category message acc
                 | None => acc
                 end) test_results [] in
  match deployment_errors with
  | Some errors =>
      fold_left (fun acc error =>
                   setdefault_append (_classify_deployment_error error) error acc)
                errors classifications
  | None => classifications
  end.

Definition _select_fix_strategy (category : ErrorCategory) : FixStrategy :=
  match category with
  | TIMEOUT => RETRY
  | AUTH_ERROR => RECONFIGURE
  | SERVER_ERROR => UPDATE_TEMPLATE
  | TEMPLATE_ISSUE => UPDATE_TEMPLATE
  | DEPENDENCY_ISSUE => UPDATE_DEPENDENCIES
  | CONFIGURATION_ISSUE => RECONFIGURE
  | NETWORK_ISSUE => RETRY
  | UNKNOWN => MANUAL_INTERVENTION
  end.

Fixpoint join (sep : string) (l : list string) : string :=
  match l with
  | [] => ""
  | [x] => x
  | x :: l' => x +:+ sep +:+ join sep l'
  end.

Section Orchestrator.

Variable fix_template_issue : string → bool.

(** The strategy branches of [_dispatch_fixes]: the template-fix requests
    made and the outcome [success]. *)
Definition run_strategy (self : FixOrchestrator) (strategy : FixStrategy)
    (messages : list string) : list string * bool :=
  match strategy with
  | UPDATE_TEMPLATE =>
      if enable_template_fixes self then
        let issue_description := join " | " messages in
        ([issue_description], fix_template_issue issue_description)
      else ([], false)
  | UPDATE_DEPENDENCIES => ([], false)
  | RECONFIGURE => ([], false)
  | RETRY => ([], true)
  | MANUAL_INTERVENTION => ([], false)
  end.

Definition outcome (self : FixOrchestrator) (entry : ErrorCategory * list string) : bool :=
  snd (run_strategy self (_select_fix_strategy (fst entry)) (snd entry)).

Definition make_attempt (category : ErrorCategory) (strategy : FixStrategy)
    (messages : list string) (success : bool) : FixAttempt :=
  mkFixAttempt category strategy
    ("Fixed " +:+ pretty (Z.of_nat (List.length messages)) +:+ " " +:+
     value category +:+ " error(s)")
    success (if success then None else Some "Fix failed").

Fixpoint dispatch_loop (self : FixOrchestrator)
    (classifications : list (ErrorCategory * list string))
    (calls : list string) (all_fixes_successful : bool)
  : FixOrchestrator * list string * bool :=
  match classifications with
  | [] => (self, calls, all_fixes_successful)
  | (category, messages) :: rest =>
      let strategy := _select_fix_strategy category in
      let '(cs, success) := run_strategy self strategy messages in
      let fix_attempt := make_attempt category strategy messages success in
      dispatch_loop (set_fix_attempts self (fix_attempts self ++ [fix_attempt])) rest
        (calls ++ cs) (if success then all_fixes_successful else false)
  end.

Definition _dispatch_fixes (self : FixOrchestrator)
    (error_classifications : list (ErrorCategory * list string))
  : FixOrchestrator * list string * bool :=
  dispatch_loop self error_classifications [] true.

Definition attempt_fix (self : FixOrchestrator) (test_results : list TestResult)
    (deployment_errors : option (list string))
  : FixOrchestrator * list string * bool :=
  if circuit_breaker_open self then (self, [], false)
  else if (max_fix_attempts self <=? Z.of_nat (List.length (fix_attempts self)))%Z
  then (set_circuit_breaker_open self true, [], false)
  else
    let error_classifications := _classify_errors test_results deployment_errors in
    match error_classifications with
    | [] => (self, [], true)
    | _ => _dispatch_fixes self error_classifications
    end.

Definition reset_circuit_breaker (self : FixOrchestrator) : FixOrchestrator :=
  mkFixOrchestrator (max_fix_attempts self) (enable_template_fixes self) [] false.

(** Successive [attempt_fix] calls: final state, all template-fix requests,
    and the list of returned values. *)
Fixpoint run_attempts (self : FixOrchestrator)
    (inputs : list (list TestResult * option (list string)))
  : FixOrchestrator * list string * list bool :=
  match inputs with
  | [] => (self, [], [])
  | (trs, des) :: rest =>
      let '(self', cs, r) := attempt_fix self trs des in
      let '(self'', cs', rs) := run_attempts self' rest in
      (self'', cs ++ cs', r :: rs)
  end.

End Orchestrator.

Lemma run_strategy_set_fix_attempts f self l st ms :
  run_strategy f (set_fix_attempts self l) st ms = run_strategy f self st ms.
Proof. reflexivity. Qed.

Lemma dispatch_loop_spec f cls :
  ∀ self calls acc, ∃ recs calls',
    dispatch_loop f self cls calls acc =
      (set_fix_attempts self (fix_attempts self ++ recs), calls',
       acc && forallb success recs) ∧
    map error_category recs = map fst cls ∧
    map success recs = map (outcome f self) cls.
Proof.
  induction cls as [|[category messages] rest IH]; intros self calls acc.
  - exists [], calls. simpl. rewrite app_nil_r, andb_true_r.
    split; [|done]. by destruct self.
  - simpl. destruct (run_strategy f self (_select_fix_strategy category) messages)
      as [cs succ] eqn:E.
    set (fa := make_attempt category (_select_fix_strategy category) messages succ).
    destruct (IH (set_fix_attempts self (fix_attempts self ++ [fa])) (calls ++ cs)
                 (if succ then acc else false)) as (recs & calls' & Heq & Hcat & Hsucc).
    exists (fa :: recs), calls'. rewrite Heq. simpl. split; [|split].
    + unfold set_fix_attempts. simpl. rewrite <- app_assoc. simpl. by destruct succ, acc.
    + by rewrite Hcat.
    + assert (Ho : outcome f self (category, messages) = succ)
        by (unfold outcome; cbn [fst snd]; rewrite E; reflexivity).
      rewrite Hsucc. cbn [map]. rewrite Ho. reflexivity.
Qed.

Lemma attempt_fix_blocked f self trs des :
  ((max_fix_attempts self <= Z.of_nat (List.length (fix_attempts self)))%Z ∨
   circuit_breaker_open self = true) →
  attempt_fix f self trs des = (set_circuit_breaker_open self true, [], false).
Proof.
  intros H. unfold attempt_fix.
  destruct (circuit_breaker_open self) eqn:Hb.
  - destruct self; simpl in *; by subst.
  - destruct H as [H|H]; [|done]. apply Z.leb_le in H. by rewrite H.
Qed.

Lemma run_attempts_blocked f self inputs :
  ((max_fix_attempts self <= Z.of_nat (List.length (fix_attempts self)))%Z ∨
   circuit_breaker_open self = true) →
  inputs ≠ [] →
  run_attempts f self inputs =
    (set_circuit_breaker_open self true, [], map (fun _ => false) inputs).
Proof.
  revert self. induction inputs as [|[trs des] rest IH]; intros self H Hne; [done|].
  simpl. rewrite attempt_fix_blocked by done.
  destruct rest as [|i rest'].
  - done.
  - rewrite IH by (simpl; auto; discriminate). done.
Qed.

Lemma classify_none trs des :
  Forall (fun r => status r = TestStatus.SUCCESS ∨ status r = TestStatus.SKIPPED) trs →
  (des = None ∨ des = Some []) →
  _classify_errors trs des = [].
Proof.
  intros Htrs Hdes. unfold _classify_errors.
  assert (Hf : ∀ acc, fold_left (fun acc result =>
                 match classify_result result with
                 | Some (category, message) => setdefault_append category message acc
                 | None => acc
                 end) trs acc = acc).
  { induction Htrs as [|r trs Hr _ IH]; intros acc; [done|]. cbn [fold_left].
    assert (Hn : classify_result r = None)
      by (unfold classify_result; destruct Hr as [-> | ->]; reflexivity).
    rewrite Hn. apply IH. }
  rewrite Hf. by destruct Hdes as [-> | ->].
Qed.

(** The example below: at most one attempt, and one timed-out endpoint. *)
Definition orch1 : FixOrchestrator := mkFixOrchestrator 1 true [] false.

Definition timeout_result : TestResult :=
  mkTestResult (mkEndpoint "GET" "/health") TestStatus.TIMEOUT None None.

(** [C9] (counterexample) The number of recorded attempts can reach
    [max_fix_attempts] while [circuit_breaker_open] stays [false]: the flag
    is only set by the next call to [attempt_fix]. *)
Lemma attempt_fix_lazy_breaker :
  let '(s, calls, r) := attempt_fix (fun _ => true) orch1 [timeout_result] None in
  r = true ∧ calls = [] ∧
  (max_fix_attempts s <= Z.of_nat (List.length (fix_attempts s)))%Z ∧
  circuit_breaker_open s = false.
Proof. vm_compute. split; [done|]. split; [done|]. split; [discriminate|done]. Qed.

(** [C9] (amended) Once the number of recorded attempts has reached
    [max_fix_attempts] (or the flag is set), every later [attempt_fix] call
    returns [false], requests no template fix and records nothing; the first
    such call sets [circuit_breaker_open].  [reset_circuit_breaker] clears the
    flag and the records.  A call that reaches dispatch appends exactly one
    record per error category, in order, each with its strategy's outcome,
    and returns the conjunction of those outcomes. *)
Theorem attempt_fix_spec f self :
  (((max_fix_attempts self <= Z.of_nat (List.length (fix_attempts self)))%Z ∨
    circuit_breaker_open self = true) →
   ∀ inputs, inputs ≠ [] →
   run_attempts f self inputs =
     (set_circuit_breaker_open self true, [], map (fun _ => false) inputs)) ∧
  (circuit_breaker_open (reset_circuit_breaker self) = false ∧
   fix_attempts (reset_circuit_breaker self) = []) ∧
  (circuit_breaker_open self = false →
   (Z.of_nat (List.length (fix_attempts self)) < max_fix_attempts self)%Z →
   ∀ trs des, _classify_errors trs des ≠ [] →
   ∃ recs calls,
     attempt_fix f self trs des =
       (set_fix_attempts self (fix_attempts self ++ recs), calls,
        forallb success recs) ∧
     map error_category recs = map fst (_classify_errors trs des) ∧
     map success recs = map (outcome f self) (_classify_errors trs des)).
Proof.
  split; [|split; [done|]].
  - intros H inputs Hne. by apply run_attempts_blocked.
  - intros Hb Hlt trs des Hne. unfold attempt_fix. rewrite Hb.
    rewrite (proj2 (Z.leb_gt _ _)) by lia.
    destruct (_classify_errors trs des) as [|c cs] eqn:E; [done|].
    apply dispatch_loop_spec.
Qed.

Lemma attempt_fix_spec_witness :
  run_attempts (fun _ => true)
    (fst (fst (attempt_fix (fun _ => true) orch1 [timeout_result] None)))
    [([timeout_result], None); ([], None)]
  = (set_circuit_breaker_open
       (fst (fst (attempt_fix (fun _ => true) orch1 [timeout_result] None))) true,
     [], [false; false]).
Proof.
  apply (proj1 (attempt_fix_spec (fun _ => true)
    (fst (fst (attempt_fix (fun _ => true) orch1 [timeout_result] None))))).
  - left. vm_compute. discriminate.
  - discriminate.
Defined.

(** One attempt already recorded, at most one allowed, flag not yet set. *)
Definition orch1_used : FixOrchestrator :=
  fst (fst (attempt_fix (fun _ => true) orch1 [timeout_result] None)).

(** [C10] (counterexample) With [circuit_breaker_open = false] but the
    attempt budget used up, a call with nothing to classify returns [false]
    and sets the flag. *)
Lemma attempt_fix_no_errors_budget_used :
  circuit_breaker_open orch1_used = false ∧
  attempt_fix (fun _ => true) orch1_used [] None
    = (set_circuit_breaker_open orch1_used true, [], false).
Proof. split; vm_compute; reflexivity. Qed.

(** [C10] (amended) With the flag clear, a call whose test results are all
    [SUCCESS] or [SKIPPED] and whose deployment-error list is absent or
    empty: with fewer than [max_fix_attempts] records it returns [true],
    requests no fix and leaves the orchestrator unchanged; with the budget
    used up it returns [false], requests no fix, records nothing and sets
    [circuit_breaker_open]. *)
Theorem attempt_fix_no_errors f self trs des :
  circuit_breaker_open self = false →
  Forall (fun r => status r = TestStatus.SUCCESS ∨ status r = TestStatus.SKIPPED) trs →
  (des = None ∨ des = Some []) →
  ((Z.of_nat (List.length (fix_attempts self)) < max_fix_attempts self)%Z →
   attempt_fix f self trs des = (self, [], true)) ∧
  ((max_fix_attempts self <= Z.of_nat (List.length (fix_attempts self)))%Z →
   attempt_fix f self trs des = (set_circuit_breaker_open self true, [], false)).
Proof.
  intros Hb Htrs Hdes. split.
  - intros Hlt. unfold attempt_fix. rewrite Hb.
    rewrite (proj2 (Z.leb_gt _ _)) by lia. by rewrite classify_none.
  - intros Hle. apply attempt_fix_blocked. by left.
Qed.

Lemma attempt_fix_no_errors_witness :
  (Z.of_nat (List.length (fix_attempts orch1)) < max_fix_attempts orch1)%Z ∧
  attempt_fix (fun _ => true) orch1
    [mkTestResult (mkEndpoint "GET" "/health") TestStatus.SUCCESS (Some 200%Z) None] None
  = (orch1, [], true) ∧
  circuit_breaker_open orch1_used = false ∧
  (max_fix_attempts orch1_used <= Z.of_nat (List.length (fix_attempts orch1_used)))%Z ∧
  attempt_fix (fun _ => true) orch1_used
    [mkTestResult (mkEndpoint "GET" "/health") TestStatus.SUCCESS (Some 200%Z) None] None
  = (set_circuit_breaker_open orch1_used true, [], false).
Proof.
  assert (H1 : circuit_breaker_open orch1 = false) by reflexivity.
  assert (H1' : circuit_breaker_open orch1_used = false) by (vm_compute; reflexivity).
  assert (H2 : (Z.of_nat (List.length (fix_attempts orch1)) < max_fix_attempts orch1)%Z)
    by (simpl; lia).
  assert (H2' : (max_fix_attempts orch1_used <=
                 Z.of_nat (List.length (fix_attempts orch1_used)))%Z)
    by (vm_compute; discriminate).
  assert (H3 : Forall (fun r => status r = TestStatus.SUCCESS ∨ status r = TestStatus.SKIPPED)
    [mkTestResult (mkEndpoint "GET" "/health") TestStatus.SUCCESS (Some 200%Z) None])
    by (constructor; [by left|constructor]).
  assert (H4 : (None : option (list string)) = None ∨ (None : option (list string)) = Some [])
    by (by left).
  split; [exact H2|]. split.
  - exact (proj1 (attempt_fix_no_errors (fun _ => true) orch1 _ None H1 H3 H4) H2).
  - split; [exact H1'|]. split; [exact H2'|].
    exact (proj2 (attempt_fix_no_errors (fun _ => true) orch1_used _ None H1' H3 H4) H2').
Defined.

(** ** Further properties of the orchestrator *)

(** [classifications.get(category, [])] *)
Fixpoint lookup_cat (c : ErrorCategory) (d : list (ErrorCategory * list string))
  : list string :=
  match d with
  | [] => []
  | (k, ms) :: d' => if decide (c = k) then ms else lookup_cat c d'
  end.

(** The (category, message) pairs in the order [_classify_errors] adds them:
    first the failing test results, then the deployment errors. *)
Definition classified_items (test_results : list TestResult)
    (deployment_errors : option (list string)) : list (ErrorCategory * string) :=
  omap classify_result test_results ++
  map (fun error => (_classify_deployment_error error, error)) (default [] deployment_errors).

Definition add_item (acc : list (ErrorCategory * list string)) (p : ErrorCategory * string) :=
  setdefault_append p.1 p.2 acc.

(** [__init__(project_root, max_fix_attempts, enable_template_fixes)] *)
Definition new_orchestrator (max_fix_attempts : Z) (enable_template_fixes : bool)
  : FixOrchestrator :=
  mkFixOrchestrator max_fix_attempts enable_template_fixes [] false.

(** The template-fix requests made by the strategy of one category. *)
Definition strategy_calls (f : string → bool) (self : FixOrchestrator)
    (e : ErrorCategory * list string) : list string :=
  (run_strategy f self (_select_fix_strategy e.1) e.2).1.

(** The record [_dispatch_fixes] appends for one category. *)
Definition attempt_record (f : string → bool) (self : FixOrchestrator)
    (e : ErrorCategory * list string) : FixAttempt :=
  make_attempt e.1 (_select_fix_strategy e.1) e.2 (outcome f self e).

Lemma classify_errors_fold trs des :
  _classify_errors trs des = fold_left add_item (classified_items trs des) [].
Proof.
  unfold _classify_errors, classified_items. rewrite fold_left_app.
  assert (H : ∀ acc, fold_left (fun acc result =>
                 match classify_result result with
                 | Some (category, message) => setdefault_append category message acc
                 | None => acc
                 end) trs acc = fold_left add_item (omap classify_result trs) acc).
  { induction trs as [|r trs IH]; intros acc; [done|]. simpl.
    destruct (classify_result r) as [[c m]|]; simpl; apply IH. }
  rewrite H. generalize (fold_left add_item (omap classify_result trs) []).
  destruct des as [errs|]; simpl; [|done].
  induction errs as [|e errs IH]; intros acc; simpl; [done|]. apply IH.
Qed.

Lemma lookup_cat_setdefault c k m d :
  lookup_cat c (setdefault_append k m d) =
    lookup_cat c d ++ (if decide (c = k) then [m] else []).
Proof.
  induction d as [|[k' ms] d IH]; simpl.
  - destruct (decide (c = k)); reflexivity.
  - destruct (decide (k = k')) as [->|Hne]; simpl.
    + destruct (decide (c = k')); [done|]. by rewrite app_nil_r.
    + destruct (decide (c = k')) as [->|Hc].
      * destruct (decide (k' = k)); [congruence|]. by rewrite app_nil_r.
      * apply IH.
Qed.

Lemma keys_setdefault k m d :
  map fst (setdefault_append k m d) =
    map fst d ++ (if decide (k ∈ map fst d) then [] else [k]).
Proof.
  induction d as [|[k' ms] d IH]; simpl.
  - destruct (decide (k ∈ [])) as [H|]; [by apply elem_of_nil in H|done].
  - destruct (decide (k = k')) as [->|Hne]; simpl.
    + destruct (decide (k' ∈ k' :: map fst d)) as [|H]; [by rewrite app_nil_r|].
      exfalso. apply H. by left.
    + rewrite IH. f_equal.
      destruct (decide (k ∈ map fst d)), (decide (k ∈ k' :: map fst d)) as [H|H];
        try done.
      * exfalso. apply H. by right.
      * apply elem_of_cons in H as [H|H]; done.
Qed.

Lemma nonempty_setdefault k m d :
  Forall (fun e => e.2 ≠ []) d → Forall (fun e => e.2 ≠ []) (setdefault_append k m d).
Proof.
  induction 1 as [|[k' ms] d Hms Hd IH]; simpl.
  - repeat constructor. discriminate.
  - destruct (decide (k = k')); constructor; try done.
    simpl. by destruct ms.
Qed.

Lemma fold_add_item items : ∀ acc,
  NoDup (map fst acc) → Forall (fun e => e.2 ≠ []) acc →
  NoDup (map fst (fold_left add_item items acc)) ∧
  Forall (fun e => e.2 ≠ []) (fold_left add_item items acc) ∧
  ∀ c, lookup_cat c (fold_left add_item items acc) =
       lookup_cat c acc ++ map snd (filter (fun p => p.1 = c) items).
Proof.
  induction items as [|[k m] items IH]; intros acc Hn Hf; simpl.
  - split_and!; [done|done|]. intros c. by rewrite app_nil_r.
  - destruct (IH (setdefault_append k m acc)) as (H1 & H2 & H3).
    + rewrite keys_setdefault. destruct (decide (k ∈ map fst acc)).
      * by rewrite app_nil_r.
      * apply NoDup_app. split_and!; [done| |by apply NoDup_singleton].
        intros x Hx Hx'. apply list_elem_of_singleton in Hx'. by subst.
    + by apply nonempty_setdefault.
    + split_and!; [done|done|]. intros c. rewrite H3, lookup_cat_setdefault, filter_cons.
      simpl. destruct (decide (c = k)) as [->|Hc].
      * rewrite decide_True by done. simpl. by rewrite <- app_assoc.
      * rewrite decide_False by congruence. by rewrite app_nil_r.
Qed.

Lemma lookup_cat_in c ms d :
  NoDup (map fst d) → (c, ms) ∈ d → lookup_cat c d = ms.
Proof.
  induction d as [|[k ms'] d IH]; intros Hn Hin; [by apply elem_of_nil in Hin|].
  simpl in Hn. apply NoDup_cons in Hn as [Hk Hn]. simpl.
  apply elem_of_cons in Hin as [Heq|Hin].
  - injection Heq as -> ->. by rewrite decide_True.
  - destruct (decide (c = k)) as [->|]; [|by apply IH].
    exfalso. apply Hk. apply list_elem_of_fmap. by exists (k, ms).
Qed.

Lemma lookup_cat_elem c d : lookup_cat c d ≠ [] → (c, lookup_cat c d) ∈ d.
Proof.
  induction d as [|[k ms] d IH]; simpl; intros H; [done|].
  destruct (decide (c = k)) as [->|]; [by left|right; by apply IH].
Qed.

Lemma all_categories c :
  c ∈ [TIMEOUT; AUTH_ERROR; SERVER_ERROR; TEMPLATE_ISSUE; DEPENDENCY_ISSUE;
       CONFIGURATION_ISSUE; NETWORK_ISSUE; UNKNOWN].
Proof. rewrite list_elem_of_In. destruct c; simpl; tauto. Qed.

Lemma nodup_length_le (l k : list ErrorCategory) :
  NoDup l → (∀ x, x ∈ l → x ∈ k) → (length l <= length k)%nat.
Proof. intros Hn Hk. apply submseteq_length, NoDup_submseteq; done. Qed.

Lemma lower_ascii_idem c : lower_ascii (lower_ascii c) = lower_ascii c.
Proof. destruct c as [[] [] [] [] [] [] [] []]; reflexivity. Qed.

Lemma lower_idem s : lower (lower s) = lower s.
Proof. induction s as [|c s IH]; simpl; [done|]. by rewrite lower_ascii_idem, IH. Qed.

Lemma dispatch_loop_full f cls : ∀ self calls acc,
  dispatch_loop f self cls calls acc =
    (set_fix_attempts self (fix_attempts self ++ map (attempt_record f self) cls),
     calls ++ concat (map (strategy_calls f self) cls),
     acc && forallb (outcome f self) cls).
Proof.
  induction cls as [|[c ms] rest IH]; intros self calls acc; simpl.
  - rewrite !app_nil_r, andb_true_r. by destruct self.
  - destruct (run_strategy f self (_select_fix_strategy c) ms) as [cs succ] eqn:E.
    rewrite IH.
    assert (Ho : outcome f self (c, ms) = succ)
      by (unfold outcome; cbn [fst snd]; rewrite E; reflexivity).
    assert (Hs : strategy_calls f self (c, ms) = cs)
      by (unfold strategy_calls; cbn [fst snd]; rewrite E; reflexivity).
    unfold attempt_record at 2. rewrite Ho, Hs.
    cbn [set_fix_attempts fix_attempts map concat]. rewrite <- !app_assoc. simpl.
    by destruct succ, acc.
Qed.

Lemma attempt_fix_open f self trs des :
  circuit_breaker_open self = false →
  (Z.of_nat (List.length (fix_attempts self)) < max_fix_attempts self)%Z →
  attempt_fix f self trs des =
    (set_fix_attempts self
       (fix_attempts self ++ map (attempt_record f self) (_classify_errors trs des)),
     concat (map (strategy_calls f self) (_classify_errors trs des)),
     forallb (outcome f self) (_classify_errors trs des)).
Proof.
  intros Hb Hm. unfold attempt_fix. rewrite Hb, (proj2 (Z.leb_gt _ _) Hm).
  destruct (_classify_errors trs des) as [|e cls] eqn:E.
  - simpl. rewrite app_nil_r. by destruct self.
  - unfold _dispatch_fixes. by rewrite dispatch_loop_full.
Qed.

Lemma outcome_eq f self c ms :
  outcome f self (c, ms) =
    match c with
    | TIMEOUT | NETWORK_ISSUE => true
    | SERVER_ERROR | TEMPLATE_ISSUE =>
        enable_template_fixes self && f (join " | " ms)
    | _ => false
    end.
Proof. unfold outcome. destruct c; simpl; try done; by destruct (enable_template_fixes self). Qed.

Lemma strategy_calls_eq f self c ms :
  strategy_calls f self (c, ms) =
    if enable_template_fixes self && bool_decide (c = SERVER_ERROR ∨ c = TEMPLATE_ISSUE)
    then [join " | " ms] else [].
Proof.
  unfold strategy_calls. destruct c; simpl;
    destruct (enable_template_fixes self); simpl; try done;
    (case_bool_decide as Hb;
     [destruct Hb as [Hb|Hb]; try discriminate; done
     |try done; exfalso; apply Hb; auto]).
Qed.

Lemma classify_errors_aux trs des :
  NoDup (map fst (_classify_errors trs des)) ∧
  Forall (fun e => e.2 ≠ []) (_classify_errors trs des) ∧
  ∀ c, lookup_cat c (_classify_errors trs des) =
       map snd (filter (fun p => p.1 = c) (classified_items trs des)).
Proof.
  rewrite classify_errors_fold.
  destruct (fold_add_item (classified_items trs des) []) as (H1 & H2 & H3);
    [constructor|constructor|].
  split_and!; [done|done|]. intros c. by rewrite H3.
Qed.

Lemma classify_errors_entry trs des c ms :
  (c, ms) ∈ _classify_errors trs des →
  ms = lookup_cat c (_classify_errors trs des) ∧ ∃ m, (c, m) ∈ classified_items trs des.
Proof.
  intros Hin. destruct (classify_errors_aux trs des) as (Hn & Hf & Hl).
  assert (Hms : lookup_cat c (_classify_errors trs des) = ms) by (by apply lookup_cat_in).
  split; [done|].
  rewrite Forall_forall in Hf. pose proof (Hf _ Hin) as Hne. simpl in Hne.
  rewrite <- Hms, Hl in Hne.
  destruct (filter (fun p => p.1 = c) (classified_items trs des)) as [|[c' m] l] eqn:E;
    [done|].
  exists m. assert (Hp : (c', m) ∈ filter (fun p => p.1 = c) (classified_items trs des))
    by (rewrite E; left).
  apply list_elem_of_filter in Hp as [Hc Hp]. simpl in Hc. by subst.
Qed.

Lemma classify_errors_length trs des : (length (_classify_errors trs des) <= 8)%nat.
Proof.
  destruct (classify_errors_aux trs des) as (Hn & _ & _).
  rewrite <- (length_map fst).
  apply (nodup_length_le _ [TIMEOUT; AUTH_ERROR; SERVER_ERROR; TEMPLATE_ISSUE;
    DEPENDENCY_ISSUE; CONFIGURATION_ISSUE; NETWORK_ISSUE; UNKNOWN] Hn).
  intros x _. apply all_categories.
Qed.

Lemma attempt_fix_keeps f self trs des :
  let s := (attempt_fix f self trs des).1.1 in
  max_fix_attempts s = max_fix_attempts self ∧
  enable_template_fixes s = enable_template_fixes self ∧
  ((circuit_breaker_open self = true ∨
    (max_fix_attempts self <= Z.of_nat (length (fix_attempts self)))%Z) →
   fix_attempts s = fix_attempts self) ∧
  (length (fix_attempts s) <= length (fix_attempts self) + 8)%nat.
Proof.
  simpl. destruct (circuit_breaker_open self) eqn:Hb.
  - rewrite attempt_fix_blocked by (by right). simpl. split_and!; try done; lia.
  - destruct (decide (max_fix_attempts self <= Z.of_nat (length (fix_attempts self)))%Z)
      as [Hm|Hm].
    + rewrite attempt_fix_blocked by (by left). simpl. split_and!; try done; lia.
    + rewrite attempt_fix_open by (done || lia). simpl. split_and!; try done.
      * intros [H|H]; [discriminate|lia].
      * rewrite length_app, length_map. pose proof (classify_errors_length trs des). lia.
Qed.

(** [X10] [_classify_errors] builds a dictionary with no category twice and
    no empty message list; the messages under each category are exactly the
    messages of that category, in input order: first those of the failing
    test results (TIMEOUT, AUTH_ERROR, SERVER_ERROR, FAILURE), then the
    deployment errors. *)
Theorem classify_errors_groups trs des :
  NoDup (map fst (_classify_errors trs des)) ∧
  (∀ c ms, (c, ms) ∈ _classify_errors trs des → ms ≠ []) ∧
  (∀ c, lookup_cat c (_classify_errors trs des) =
        map snd (filter (fun p => p.1 = c) (classified_items trs des))).
Proof.
  destruct (classify_errors_aux trs des) as (H1 & H2 & H3).
  split_and!; [done| |done].
  intros c ms Hin. rewrite Forall_forall in H2. exact (H2 _ Hin).
Qed.

(** [X11] On an ASCII message, [_classify_deployment_error] ignores case
    (classifying [s.lower()] gives the same category as classifying [s]);
    on every message it never returns TIMEOUT or SERVER_ERROR. *)
Theorem classify_deployment_error_case s :
  (is_ascii s = true →
   _classify_deployment_error (lower s) = _classify_deployment_error s) ∧
  _classify_deployment_error s ≠ TIMEOUT ∧ _classify_deployment_error s ≠ SERVER_ERROR.
Proof.
  unfold _classify_deployment_error. rewrite lower_idem.
  split_and!; [done| |]; repeat case_match; discriminate.
Qed.

(** [X12] One [attempt_fix] call requests at most two template fixes
    (through [fix_template_issue]), none when template fixes are disabled;
    each request is the " | "-join of all messages classified SERVER_ERROR,
    or of all messages classified TEMPLATE_ISSUE. *)
Theorem attempt_fix_template_calls f self trs des :
  (length (attempt_fix f self trs des).1.2 <= 2)%nat ∧
  (enable_template_fixes self = false → (attempt_fix f self trs des).1.2 = []) ∧
  (∀ s, s ∈ (attempt_fix f self trs des).1.2 →
     s = join " | " (lookup_cat SERVER_ERROR (_classify_errors trs des)) ∨
     s = join " | " (lookup_cat TEMPLATE_ISSUE (_classify_errors trs des))).
Proof.
  destruct (circuit_breaker_open self) eqn:Hb;
    [rewrite attempt_fix_blocked by (by right); simpl; split_and!; try done; [lia|];
     intros s Hs; by apply elem_of_nil in Hs|].
  destruct (decide (max_fix_attempts self <= Z.of_nat (length (fix_attempts self)))%Z)
    as [Hm|Hm];
    [rewrite attempt_fix_blocked by (by left); simpl; split_and!; try done; [lia|];
     intros s Hs; by apply elem_of_nil in Hs|].
  rewrite attempt_fix_open by (done || lia). simpl.
  destruct (classify_errors_aux trs des) as (Hn & _ & _).
  set (P := fun c => c = SERVER_ERROR ∨ c = TEMPLATE_ISSUE).
  assert (Hlen : ∀ cls, (length (concat (map (strategy_calls f self) cls))
                         <= length (filter P (map fst cls)))%nat).
  { induction cls as [|[c ms] cls IH]; [done|]. cbn [map concat fst].
    rewrite length_app, strategy_calls_eq, filter_cons.
    destruct (enable_template_fixes self); simpl;
      destruct (decide (P c)) as [Hp|Hp]; try case_bool_decide; simpl; try lia.
    exfalso. unfold P in Hp. tauto. }
  split_and!.
  - etransitivity; [apply Hlen|]. apply (nodup_length_le _ [SERVER_ERROR; TEMPLATE_ISSUE]).
    + by apply NoDup_filter.
    + intros x Hx. apply list_elem_of_filter in Hx as [[-> | ->] _]; [left|right; left].
  - intros He. clear Hlen. induction (_classify_errors trs des) as [|[c ms] cls IH]; [done|].
    cbn [map concat]. rewrite strategy_calls_eq, He. simpl. apply IH.
    simpl in Hn. by apply NoDup_cons in Hn as [_ Hn].
  - intros s Hs. apply list_elem_of_In, in_concat in Hs as (cs & Hcs & Hs).
    apply list_elem_of_In in Hs. apply in_map_iff in Hcs as ([c ms] & <- & Hin).
    apply list_elem_of_In in Hin.
    rewrite strategy_calls_eq in Hs.
    destruct (enable_template_fixes self && bool_decide (c = SERVER_ERROR ∨ c = TEMPLATE_ISSUE))
      eqn:E; [|by apply elem_of_nil in Hs].
    apply list_elem_of_singleton in Hs as ->.
    apply andb_true_iff in E as [_ E]. apply bool_decide_eq_true_1 in E.
    assert (Hl : lookup_cat c (_classify_errors trs des) = ms) by (by apply lookup_cat_in).
    destruct E as [-> | ->]; rewrite Hl; [left|right]; done.
Qed.

(** [X13] With the flag clear and fewer than [max_fix_attempts] records, if
    one of the classified errors is an AUTH_ERROR, DEPENDENCY_ISSUE,
    CONFIGURATION_ISSUE or UNKNOWN (for instance a test result with status
    AUTH_ERROR or FAILURE), or a SERVER_ERROR or TEMPLATE_ISSUE while template
    fixes are disabled, then [attempt_fix] returns [false]. *)
Theorem attempt_fix_unfixable f self trs des c m :
  circuit_breaker_open self = false →
  (Z.of_nat (length (fix_attempts self)) < max_fix_attempts self)%Z →
  (c, m) ∈ classified_items trs des →
  (c = AUTH_ERROR ∨ c = DEPENDENCY_ISSUE ∨ c = CONFIGURATION_ISSUE ∨ c = UNKNOWN ∨
   ((c = SERVER_ERROR ∨ c = TEMPLATE_ISSUE) ∧ enable_template_fixes self = false)) →
  (attempt_fix f self trs des).2 = false.
Proof.
  intros Hb Hm Hin Hc. rewrite attempt_fix_open by done. simpl.
  destruct (classify_errors_aux trs des) as (_ & _ & Hl).
  assert (Hne : lookup_cat c (_classify_errors trs des) ≠ []).
  { rewrite Hl. intros E. apply map_eq_nil in E.
    assert (Hp : (c, m) ∈ filter (fun p => p.1 = c) (classified_items trs des))
      by (by apply list_elem_of_filter).
    rewrite E in Hp. by apply elem_of_nil in Hp. }
  apply lookup_cat_elem in Hne.
  apply not_true_iff_false. intros Hall.
  apply forallb_forall with (x := (c, lookup_cat c (_classify_errors trs des))) in Hall;
    [|by apply list_elem_of_In].
  rewrite outcome_eq in Hall.
  destruct Hc as [-> | [-> | [-> | [-> | [[-> | ->] He]]]]]; try discriminate;
    rewrite He in Hall; discriminate.
Qed.

(** [X14] With the flag clear and fewer than [max_fix_attempts] records, if
    every classified error is a TIMEOUT or a NETWORK_ISSUE (test results that
    are successful, skipped or timed out, deployment errors about the
    network), then [attempt_fix] returns [true], requests no template fix,
    and appends at most two records, each with strategy RETRY and success. *)
Theorem attempt_fix_retry_only f self trs des :
  circuit_breaker_open self = false →
  (Z.of_nat (length (fix_attempts self)) < max_fix_attempts self)%Z →
  (∀ c m, (c, m) ∈ classified_items trs des → c = TIMEOUT ∨ c = NETWORK_ISSUE) →
  ∃ recs, attempt_fix f self trs des =
            (set_fix_attempts self (fix_attempts self ++ recs), [], true) ∧
          (length recs <= 2)%nat ∧
          Forall (fun a => fix_strategy a = RETRY ∧ success a = true) recs.
Proof.
  intros Hb Hm Hall. rewrite attempt_fix_open by done.
  assert (Hcat : ∀ c ms, (c, ms) ∈ _classify_errors trs des → c = TIMEOUT ∨ c = NETWORK_ISSUE).
  { intros c ms Hin. destruct (classify_errors_entry trs des c ms Hin) as [_ [m Hm']].
    by apply (Hall c m). }
  destruct (classify_errors_aux trs des) as (Hn & _ & _).
  exists (map (attempt_record f self) (_classify_errors trs des)). split_and!.
  - f_equal. f_equal.
    + clear Hn. induction (_classify_errors trs des) as [|[c ms] cls IH]; [done|].
      cbn [map concat]. rewrite strategy_calls_eq.
      assert (Hc : c = TIMEOUT ∨ c = NETWORK_ISSUE)
        by (apply (Hcat c ms); apply elem_of_cons; by left).
      destruct Hc as [-> | ->];
        (rewrite bool_decide_eq_false_2 by (intros [H|H]; discriminate));
        rewrite andb_false_r; simpl;
        apply IH; intros c' ms' Hin; apply (Hcat c' ms'); by right.
    + apply forallb_forall. intros [c ms] Hin. apply list_elem_of_In in Hin.
      rewrite outcome_eq. by destruct (Hcat c ms Hin) as [-> | ->].
  - rewrite length_map, <- (length_map fst).
    apply (nodup_length_le _ [TIMEOUT; NETWORK_ISSUE]); [done|].
    intros x Hx. apply list_elem_of_fmap in Hx as ([c ms] & -> & Hin).
    destruct (Hcat c ms Hin) as [-> | ->]; [left|right; left].
  - apply Forall_forall. intros a Ha. apply list_elem_of_fmap in Ha as ([c ms] & -> & Hin).
    unfold attempt_record. simpl. rewrite outcome_eq.
    by destruct (Hcat c ms Hin) as [-> | ->].
Qed.

(** [X15] Starting from a new orchestrator, over any sequence of
    [attempt_fix] calls, [max_fix_attempts] and [enable_template_fixes] never
    change and the number of recorded attempts never exceeds
    [max(0, max_fix_attempts + 7)]: the budget is checked only before a call,
    and one call records at most one attempt per error category (eight). *)
Theorem run_attempts_records_bound f mx en inputs :
  max_fix_attempts (run_attempts f (new_orchestrator mx en) inputs).1.1 = mx ∧
  enable_template_fixes (run_attempts f (new_orchestrator mx en) inputs).1.1 = en ∧
  (Z.of_nat (length (fix_attempts (run_attempts f (new_orchestrator mx en) inputs).1.1))
     <= Z.max 0 (mx + 7))%Z.
Proof.
  assert (Hgen : ∀ inputs self,
    max_fix_attempts self = mx → enable_template_fixes self = en →
    (Z.of_nat (length (fix_attempts self)) <= Z.max 0 (mx + 7))%Z →
    max_fix_attempts (run_attempts f self inputs).1.1 = mx ∧
    enable_template_fixes (run_attempts f self inputs).1.1 = en ∧
    (Z.of_nat (length (fix_attempts (run_attempts f self inputs).1.1)) <= Z.max 0 (mx + 7))%Z).
  { clear inputs. induction inputs as [|[trs des] rest IH]; intros self H1 H2 H3; [done|].
    simpl. destruct (attempt_fix_keeps f self trs des) as (K1 & K2 & K3 & K4).
    destruct (attempt_fix f self trs des) as [[s' cs] r] eqn:E. simpl in *.
    destruct (run_attempts f s' rest) as [[s'' cs'] rs] eqn:E'. simpl.
    replace s'' with (run_attempts f s' rest).1.1 by (by rewrite E').
    apply IH; [congruence|congruence|].
    destruct (decide (circuit_breaker_open self = true ∨
                      (max_fix_attempts self <= Z.of_nat (length (fix_attempts self)))%Z))
      as [Hbl|Hbl].
    - by rewrite K3.
    - apply Decidable.not_or in Hbl as [Hb Hm]. lia. }
  apply Hgen; simpl; [done|done|lia].
Qed.

Definition auth_result : TestResult :=
  mkTestResult (mkEndpoint "GET" "/admin") TestStatus.AUTH_ERROR (Some 401%Z) None.

Lemma classify_deployment_error_case_witness :
  is_ascii "Network TIMEOUT while deploying" = true ∧
  (is_ascii "Network TIMEOUT while deploying" = true →
   _classify_deployment_error (lower "Network TIMEOUT while deploying") =
     _classify_deployment_error "Network TIMEOUT while deploying") ∧
  _classify_deployment_error "Network TIMEOUT while deploying" ≠ TIMEOUT ∧
  _classify_deployment_error "Network TIMEOUT while deploying" ≠ SERVER_ERROR.
Proof.
  split; [reflexivity|]. apply classify_deployment_error_case.
Defined.

Lemma attempt_fix_unfixable_witness :
  (attempt_fix (fun _ => true) orch1 [timeout_result; auth_result] None).2 = false.
Proof.
  apply (attempt_fix_unfixable (fun _ => true) orch1 [timeout_result; auth_result] None
           AUTH_ERROR "Authentication error: GET /admin").
  - reflexivity.
  - simpl. lia.
  - apply list_elem_of_In. vm_compute. right. left. reflexivity.
  - left. reflexivity.
Defined.

Lemma attempt_fix_retry_only_witness :
  ∃ recs, attempt_fix (fun _ => false) orch1 [timeout_result]
            (Some ["Connection refused by host"]) =
          (set_fix_attempts orch1 (fix_attempts orch1 ++ recs), [], true) ∧
          (length recs <= 2)%nat ∧
          Forall (fun a => fix_strategy a = RETRY ∧ success a = true) recs.
Proof.
  apply attempt_fix_retry_only.
  - reflexivity.
  - simpl. lia.
  - intros c m Hin. apply list_elem_of_In in Hin. vm_compute in Hin.
    destruct Hin as [H|[H|[]]]; injection H as <- _; auto.
Defined.

End FixOrch.


(** * [validation/validation_session.py]: [ValidationSession.run]

    The environment is given by oracles: the number of discovered projects,
    whether a Key Vault URL is configured and whether storing the secrets
    succeeds, the result of each testing round ([None] when no endpoint is
    discovered), the outcome of the external template-fix command, and
    whether [ResourceDeployer(self.resource_group)] can be constructed (its
    [AzureCLIWrapper] runs [az --version] and raises [RuntimeError] when the
    Azure CLI is missing, fails or times out).  The deployment stage deploys
    nothing ([deployments = []] in the source). *)
Module Session.

Import TestStatus FixOrch.

Inductive ValidationStage := INITIALIZING | DISCOVERING | ANALYZING | DEPLOYING
  | TESTING | FIXING | COMPLETED | FAILED.

Record ValidationSummary := mkSummary {
  current_stage : ValidationStage;
  stages_completed : list ValidationStage;
  projects_discovered : Z;
  tests_failed : Z;
  summary_fix_attempts : Z;
  fixes_successful : Z;
  success : bool
}.

Definition initial_summary : ValidationSummary :=
  mkSummary INITIALIZING [] 0 0 0 0 false.

Record SessionState := mkSession {
  summary : ValidationSummary;
  test_results : list TestResult;
  fix_orchestrator : FixOrchestrator
}.

Definition map_summary (f : ValidationSummary → ValidationSummary) (st : SessionState) :=
  mkSession (f (summary st)) (test_results st) (fix_orchestrator st).

Definition _transition_to_stage (stage : ValidationStage) (st : SessionState) :=
  map_summary (fun s => mkSummary stage (stages_completed s) (projects_discovered s)
    (tests_failed s) (summary_fix_attempts s) (fixes_successful s) (success s)) st.

Definition _complete_stage (stage : ValidationStage) (st : SessionState) :=
  map_summary (fun s => mkSummary (current_stage s) (stages_completed s ++ [stage])
    (projects_discovered s) (tests_failed s) (summary_fix_attempts s)
    (fixes_successful s) (success s)) st.

Definition set_success (b : bool) (st : SessionState) :=
  map_summary (fun s => mkSummary (current_stage s) (stages_completed s)
    (projects_discovered s) (tests_failed s) (summary_fix_attempts s)
    (fixes_successful s) b) st.

(** [r.status not in [TestStatus.SUCCESS, TestStatus.SKIPPED]] *)
Definition is_failed (r : TestResult) : bool :=
  match status r with SUCCESS | SKIPPED => false | _ => true end.

Definition count_true {A} (p : A → bool) (l : list A) : Z :=
  Z.of_nat (List.length (List.filter p l)).

Section Run.

Variable max_fix_attempts : Z.
Variable enable_fixes : bool.
Variable keyvault_url : bool.
Variable discovered_project_count : nat.
Variable store_secrets_ok : bool.
Variable testing_round : nat → option (list TestResult).
Variable fix_template_issue : string → bool.
Variable deployer_ok : bool.

Definition _run_testing_stage (attempt : nat) (st : SessionState) : SessionState :=
  let st := _transition_to_stage TESTING st in
  match testing_round attempt with
  | None => _complete_stage TESTING st
  | Some results =>
      let st := mkSession
        (mkSummary (current_stage (summary st)) (stages_completed (summary st))
           (projects_discovered (summary st)) (count_true is_failed results)
           (summary_fix_attempts (summary st)) (fixes_successful (summary st))
           (success (summary st)))
        results (fix_orchestrator st) in
      _complete_stage TESTING st
  end.

Definition _run_fixing_stage (failed_tests : list TestResult) (st : SessionState)
  : SessionState :=
  let st := _transition_to_stage FIXING st in
  let '(orch, _, _) :=
    attempt_fix fix_template_issue (fix_orchestrator st) failed_tests None in
  let st := mkSession
    (mkSummary (current_stage (summary st)) (stages_completed (summary st))
       (projects_discovered (summary st)) (tests_failed (summary st))
       (Z.of_nat (List.length (fix_attempts orch)))
       (count_true FixOrch.success (fix_attempts orch)) (success (summary st)))
    (test_results st) orch in
  _complete_stage FIXING st.

(** [for attempt in range(self.max_fix_attempts + 1)], [n] iterations left. *)
Fixpoint fix_loop (n attempt : nat) (st : SessionState) : SessionState :=
  match n with
  | O => st
  | S n' =>
      let st := _run_testing_stage attempt st in
      let failed_tests := List.filter is_failed (test_results st) in
      match failed_tests with
      | [] => st
      | _ =>
          if (Z.of_nat attempt <? max_fix_attempts)%Z then
            let st := _run_fixing_stage failed_tests st in
            if circuit_breaker_open (fix_orchestrator st) then st
            else fix_loop n' (S attempt) st
          else fix_loop n' (S attempt) st
      end
  end.

Definition _run_testing_and_fixing_stages (st : SessionState) : SessionState :=
  let st := mkSession (summary st) (test_results st)
              (mkFixOrchestrator max_fix_attempts enable_fixes [] false) in
  fix_loop (Z.to_nat (max_fix_attempts + 1)) 0 st.

(** The [except] branch of [run]. *)
Definition fail (st : SessionState) : ValidationSummary :=
  summary (set_success false (_transition_to_stage FAILED st)).

Definition run (st : SessionState) : ValidationSummary :=
  let st := _transition_to_stage DISCOVERING st in
  let st := map_summary (fun s => mkSummary (current_stage s) (stages_completed s)
              (Z.of_nat discovered_project_count) (tests_failed s)
              (summary_fix_attempts s) (fixes_successful s) (success s)) st in
  match discovered_project_count with
  | O => fail st
  | S _ =>
      let st := _complete_stage DISCOVERING st in
      let st := _complete_stage ANALYZING (_transition_to_stage ANALYZING st) in
      let st := _transition_to_stage DEPLOYING st in
      (* [self.deployer = ResourceDeployer(self.resource_group)] *)
      if negb deployer_ok then fail st
      (* [if self.keyvault_url and self.analyzer]: the analyzer is set since
         at least one project was analyzed *)
      else if keyvault_url && negb store_secrets_ok then fail st
      else
        let st := _complete_stage DEPLOYING st in
        let st := _run_testing_and_fixing_stages st in
        summary (set_success true (_transition_to_stage COMPLETED st))
  end.

Lemma setdefault_append_nonempty k m d : setdefault_append k m d ≠ [].
Proof. destruct d as [|[k' ms] d]; simpl; [done|]. by case_decide. Qed.

Lemma classify_failed_nonempty (failed : list TestResult) :
  failed ≠ [] → Forall (fun r => is_failed r = true) failed →
  _classify_errors failed None ≠ [].
Proof.
  intros Hne Hall. unfold _classify_errors.
  set (F := fun acc result =>
              match classify_result result with
              | Some (category, message) => setdefault_append category message acc
              | None => acc
              end).
  assert (Hkeep : ∀ l acc, acc ≠ [] → fold_left F l acc ≠ []).
  { induction l as [|r l IH]; intros acc Hacc; [done|]. simpl. apply IH.
    unfold F. destruct (classify_result r) as [[c m]|]; [apply setdefault_append_nonempty|done]. }
  destruct failed as [|r rest]; [done|]. simpl. apply Hkeep.
  inversion Hall as [|? ? Hr _]; subst. unfold F, classify_result.
  unfold is_failed in Hr.
  destruct (status r); try discriminate; apply setdefault_append_nonempty.
Qed.

Lemma testing_stage_failing attempt st rs :
  testing_round attempt = Some rs → Exists (fun r => is_failed r = true) rs →
  let st' := _run_testing_stage attempt st in
  List.filter is_failed (test_results st') ≠ [] ∧
  Forall (fun r => is_failed r = true) (List.filter is_failed (test_results st')) ∧
  stages_completed (summary st') = stages_completed (summary st) ++ [TESTING] ∧
  fix_orchestrator st' = fix_orchestrator st ∧
  (1 <= tests_failed (summary st'))%Z ∧
  summary_fix_attempts (summary st') = summary_fix_attempts (summary st).
Proof.
  intros Hr Hex st'. unfold st', _run_testing_stage. rewrite Hr. simpl.
  assert (Hf : List.filter is_failed rs ≠ []).
  { apply Exists_exists in Hex as [r [Hin Hr']]. intros Hnil.
    assert (Hr2 : r ∈ List.filter is_failed rs)
      by (apply DepGraph.elem_of_List_filter; split; [done|exact Hr']).
    rewrite Hnil in Hr2. set_solver. }
  split; [done|]. split.
  - apply Forall_forall. intros x Hx. apply DepGraph.elem_of_List_filter in Hx. apply Hx.
  - split; [done|]. split; [done|]. split; [|done].
    unfold count_true. destruct (List.filter is_failed rs); [done|simpl; lia].
Qed.

Lemma fixing_stage_dispatch failed st :
  circuit_breaker_open (fix_orchestrator st) = false →
  (Z.of_nat (List.length (fix_attempts (fix_orchestrator st)))
     < FixOrch.max_fix_attempts (fix_orchestrator st))%Z →
  _classify_errors failed None ≠ [] →
  let st' := _run_fixing_stage failed st in
  circuit_breaker_open (fix_orchestrator st') = false ∧
  FixOrch.max_fix_attempts (fix_orchestrator st') = FixOrch.max_fix_attempts (fix_orchestrator st) ∧
  (List.length (fix_attempts (fix_orchestrator st)) <
     List.length (fix_attempts (fix_orchestrator st')))%nat ∧
  summary_fix_attempts (summary st') =
    Z.of_nat (List.length (fix_attempts (fix_orchestrator st'))) ∧
  stages_completed (summary st') = stages_completed (summary st) ++ [FIXING] ∧
  tests_failed (summary st') = tests_failed (summary st).
Proof.
  intros Hb Hlt Hne st'. unfold st', _run_fixing_stage. cbn [fix_orchestrator
    _transition_to_stage map_summary].
  unfold attempt_fix. rewrite Hb. rewrite (proj2 (Z.leb_gt _ _)) by lia.
  destruct (_classify_errors failed None) as [|c cs] eqn:E; [done|].
  unfold _dispatch_fixes.
  destruct (dispatch_loop_spec fix_template_issue (c :: cs) (fix_orchestrator st) [] true)
    as (recs & calls & Heq & Hcat & _).
  rewrite Heq. simpl. split; [done|]. split; [done|]. split; [|done].
  rewrite length_app.
  assert (Hl : List.length recs = List.length (c :: cs))
    by (rewrite <- (length_map error_category recs), Hcat; apply length_map).
  simpl in Hl. lia.
Qed.

Lemma fixing_stage_blocked failed st :
  (FixOrch.max_fix_attempts (fix_orchestrator st)
     <= Z.of_nat (List.length (fix_attempts (fix_orchestrator st))))%Z →
  let st' := _run_fixing_stage failed st in
  circuit_breaker_open (fix_orchestrator st') = true ∧
  fix_attempts (fix_orchestrator st') = fix_attempts (fix_orchestrator st) ∧
  summary_fix_attempts (summary st') =
    Z.of_nat (List.length (fix_attempts (fix_orchestrator st))) ∧
  stages_completed (summary st') = stages_completed (summary st) ++ [FIXING] ∧
  tests_failed (summary st') = tests_failed (summary st).
Proof.
  intros Hle st'. unfold st', _run_fixing_stage. cbn [fix_orchestrator
    _transition_to_stage map_summary].
  unfold attempt_fix.
  destruct (circuit_breaker_open (fix_orchestrator st)) eqn:Hb.
  - simpl. by rewrite Hb.
  - apply Z.leb_le in Hle. rewrite Hle. simpl. done.
Qed.

Lemma fix_loop_S n attempt st :
  fix_loop (S n) attempt st =
  match List.filter is_failed (test_results (_run_testing_stage attempt st)) with
  | [] => _run_testing_stage attempt st
  | _ =>
      if (Z.of_nat attempt <? max_fix_attempts)%Z then
        if circuit_breaker_open (fix_orchestrator (_run_fixing_stage
             (List.filter is_failed (test_results (_run_testing_stage attempt st)))
             (_run_testing_stage attempt st)))
        then _run_fixing_stage
             (List.filter is_failed (test_results (_run_testing_stage attempt st)))
             (_run_testing_stage attempt st)
        else fix_loop n (S attempt) (_run_fixing_stage
             (List.filter is_failed (test_results (_run_testing_stage attempt st)))
             (_run_testing_stage attempt st))
      else fix_loop n (S attempt) (_run_testing_stage attempt st)
  end.
Proof. reflexivity. Qed.

(** With [max_fix_attempts = 2] and every testing round failing, the loop
    runs the testing stage two or three times and the fixing stage exactly
    twice, alternating. *)
Lemma fix_loop_two st :
  max_fix_attempts = 2%Z →
  (∀ k, ∃ rs, testing_round k = Some rs ∧ Exists (fun r => is_failed r = true) rs) →
  fix_orchestrator st = mkFixOrchestrator 2 enable_fixes [] false →
  (stages_completed (summary (fix_loop 3 0 st)) =
     stages_completed (summary st) ++ [TESTING; FIXING; TESTING; FIXING] ∨
   stages_completed (summary (fix_loop 3 0 st)) =
     stages_completed (summary st) ++ [TESTING; FIXING; TESTING; FIXING; TESTING]) ∧
  (1 <= tests_failed (summary (fix_loop 3 0 st)))%Z ∧
  (1 <= summary_fix_attempts (summary (fix_loop 3 0 st)))%Z.
Proof.
  intros Hmax Hp Ho.
  (* round 0: test, then fix *)
  destruct (Hp 0%nat) as [rs0 [H0 E0]].
  destruct (testing_stage_failing 0 st rs0 H0 E0) as (F1 & A1 & S1 & O1 & T1 & _).
  rewrite fix_loop_S. set (st1 := _run_testing_stage 0 st) in *.
  set (fl1 := List.filter is_failed (test_results st1)) in *.
  destruct fl1 as [|x1 xs1] eqn:EF1; [done|]. rewrite <- EF1.
  rewrite Hmax. change (Z.of_nat 0 <? 2)%Z with true. cbv iota.
  destruct (fixing_stage_dispatch fl1 st1) as (B2 & M2 & L2 & X2 & S2 & T2);
    [rewrite O1, Ho; done|rewrite O1, Ho; simpl; lia|
     apply classify_failed_nonempty; by rewrite EF1|].
  set (st2 := _run_fixing_stage fl1 st1) in *. rewrite B2.
  (* round 1: test, then fix *)
  destruct (Hp 1%nat) as [rs1 [H1 E1]].
  destruct (testing_stage_failing 1 st2 rs1 H1 E1) as (F3 & A3 & S3 & O3 & T3 & X3).
  rewrite fix_loop_S. set (st3 := _run_testing_stage 1 st2) in *.
  set (fl3 := List.filter is_failed (test_results st3)) in *.
  destruct fl3 as [|x3 xs3] eqn:EF3; [done|]. rewrite <- EF3.
  rewrite Hmax. change (Z.of_nat 1 <? 2)%Z with true. cbv iota.
  assert (Hm3 : FixOrch.max_fix_attempts (fix_orchestrator st3) = 2%Z)
    by (rewrite O3, M2, O1, Ho; done).
  destruct (Z_lt_le_dec (Z.of_nat (List.length (fix_attempts (fix_orchestrator st3)))) 2)
    as [Hlt|Hge].
  - (* a second dispatch; round 2 tests and stops at the bound *)
    destruct (fixing_stage_dispatch fl3 st3) as (B4 & M4 & L4 & X4 & S4 & T4);
      [rewrite O3; done|rewrite Hm3; done|
       apply classify_failed_nonempty; by rewrite EF3|].
    set (st4 := _run_fixing_stage fl3 st3) in *. rewrite B4.
    destruct (Hp 2%nat) as [rs2 [H2 E2]].
    destruct (testing_stage_failing 2 st4 rs2 H2 E2) as (F5 & A5 & S5 & O5 & T5 & X5).
    rewrite fix_loop_S. set (st5 := _run_testing_stage 2 st4) in *.
    set (fl5 := List.filter is_failed (test_results st5)) in *.
    destruct fl5 as [|x5 xs5] eqn:EF5; [done|].
    rewrite Hmax. change (Z.of_nat 2 <? 2)%Z with false. cbv iota. simpl fix_loop.
    split; [right; rewrite S5, S4, S3, S2, S1; by rewrite <- !app_assoc|].
    split; [done|]. rewrite X5, X4. lia.
  - (* the attempt budget is used up: the breaker flag stops the loop *)
    destruct (fixing_stage_blocked fl3 st3) as (B4 & A4 & X4 & S4 & T4);
      [rewrite Hm3; done|].
    set (st4 := _run_fixing_stage fl3 st3) in *. rewrite B4.
    split; [left; rewrite S4, S3, S2, S1; by rewrite <- !app_assoc|].
    split; [rewrite T4; done|]. rewrite X4. rewrite O3. lia.
Qed.

(** The stages one pass of the loop from [attempt] on may append: TESTING,
    then FIXING while [attempt < max_fix_attempts]. *)
Fixpoint loop_stages (n attempt : nat) : list ValidationStage :=
  match n with
  | O => []
  | S n' =>
      TESTING :: (if (Z.of_nat attempt <? max_fix_attempts)%Z
                  then FIXING :: loop_stages n' (S attempt)
                  else loop_stages n' (S attempt))
  end.

Lemma testing_stage_summary attempt st :
  stages_completed (summary (_run_testing_stage attempt st)) =
    stages_completed (summary st) ++ [TESTING] ∧
  projects_discovered (summary (_run_testing_stage attempt st)) =
    projects_discovered (summary st).
Proof. unfold _run_testing_stage. by destruct (testing_round attempt). Qed.

Lemma fixing_stage_summary failed st :
  stages_completed (summary (_run_fixing_stage failed st)) =
    stages_completed (summary st) ++ [FIXING] ∧
  projects_discovered (summary (_run_fixing_stage failed st)) =
    projects_discovered (summary st).
Proof.
  unfold _run_fixing_stage.
  by destruct (attempt_fix fix_template_issue _ failed None) as [[o c] r].
Qed.

Lemma fix_loop_shape n : ∀ attempt st,
  projects_discovered (summary (fix_loop n attempt st)) = projects_discovered (summary st) ∧
  ∃ k, stages_completed (summary (fix_loop n attempt st)) =
         stages_completed (summary st) ++ take k (loop_stages n attempt) ∧
       ((1 <= n)%nat → (1 <= k)%nat).
Proof.
  induction n as [|n IH]; intros attempt st.
  - split; [done|]. exists O. simpl. by rewrite app_nil_r.
  - rewrite fix_loop_S.
    destruct (testing_stage_summary attempt st) as [T1 T2].
    set (st1 := _run_testing_stage attempt st) in *.
    destruct (List.filter is_failed (test_results st1)) as [|x xs] eqn:E.
    + split; [done|]. exists 1%nat. split; [|lia]. by rewrite T1.
    + rewrite <- E. cbn [loop_stages].
      destruct (Z.of_nat attempt <? max_fix_attempts)%Z.
      * destruct (fixing_stage_summary (List.filter is_failed (test_results st1)) st1)
          as [F1 F2].
        set (st2 := _run_fixing_stage _ st1) in *.
        destruct (circuit_breaker_open (fix_orchestrator st2)).
        -- split; [congruence|]. exists 2%nat. split; [|lia].
           rewrite F1, T1, <- app_assoc. done.
        -- destruct (IH (S attempt) st2) as [P [k [Hk _]]].
           split; [congruence|]. exists (S (S k)). split; [|lia].
           rewrite Hk, F1, T1, <- !app_assoc. done.
      * destruct (IH (S attempt) st1) as [P [k [Hk _]]].
        split; [congruence|]. exists (S k). split; [|lia].
        rewrite Hk, T1, <- app_assoc. done.
Qed.

Lemma loop_stages_S n attempt :
  loop_stages (S n) attempt =
    TESTING :: (if (Z.of_nat attempt <? max_fix_attempts)%Z
                then FIXING :: loop_stages n (S attempt)
                else loop_stages n (S attempt)).
Proof. reflexivity. Qed.

Lemma loop_stages_closed m : ∀ attempt,
  Z.of_nat (attempt + m) = max_fix_attempts →
  loop_stages (S m) attempt = concat (repeat [TESTING; FIXING] m) ++ [TESTING].
Proof.
  induction m as [|m IH]; intros attempt Ha; rewrite loop_stages_S.
  - rewrite (proj2 (Z.ltb_ge _ _)) by lia. done.
  - rewrite (proj2 (Z.ltb_lt _ _)) by lia. rewrite IH by lia. done.
Qed.

Definition counts_ok (s : ValidationSummary) : Prop :=
  0 ≤ fixes_successful s ≤ summary_fix_attempts s ∧ 0 ≤ tests_failed s.

Lemma count_true_le {A} (p : A → bool) l : 0 ≤ count_true p l ≤ Z.of_nat (List.length l).
Proof.
  unfold count_true. split; [lia|]. apply inj_le.
  induction l as [|x l IH]; simpl; [done|]. destruct (p x); simpl; lia.
Qed.

Lemma fix_loop_counts n : ∀ attempt st,
  counts_ok (summary st) → counts_ok (summary (fix_loop n attempt st)).
Proof.
  induction n as [|n IH]; intros attempt st Hc; [done|].
  rewrite fix_loop_S.
  assert (Ht : counts_ok (summary (_run_testing_stage attempt st))).
  { unfold _run_testing_stage. destruct (testing_round attempt) as [rs|]; [|done].
    unfold counts_ok in *. simpl. split; [apply Hc|]. apply count_true_le. }
  set (st1 := _run_testing_stage attempt st) in *.
  destruct (List.filter is_failed (test_results st1)) as [|x xs]; [done|].
  set (failed := x :: xs).
  assert (Hf : counts_ok (summary (_run_fixing_stage failed st1))).
  { unfold _run_fixing_stage.
    destruct (attempt_fix fix_template_issue (fix_orchestrator _) failed None)
      as [[orch b] r].
    unfold counts_ok in *. simpl. split; [|apply Ht].
    pose proof (count_true_le FixOrch.success (fix_attempts orch)). lia. }
  destruct (Z.of_nat attempt <? max_fix_attempts)%Z; [|by apply IH].
  destruct (circuit_breaker_open (fix_orchestrator (_run_fixing_stage failed st1)));
    [done|by apply IH].
Qed.

End Run.

(** A fresh session. *)
Definition new_session (max_fix_attempts : Z) (enable_fixes : bool) : SessionState :=
  mkSession initial_summary [] (mkFixOrchestrator max_fix_attempts enable_fixes [] false).

(** Every testing round reports the same timed-out endpoint. *)
Definition persistent_timeout (_ : nat) : option (list TestResult) :=
  Some [timeout_result].

(** [C5] (counterexample) With [max_fix_attempts = 2] and a test that times
    out in every round, [run] ends with [success = true]: after the loop the
    session is marked COMPLETED whatever the test outcome. *)
Lemma run_persistent_failure_succeeds :
  let S := run 2 true false 1 true persistent_timeout (fun _ => true) true
               (new_session 2 true) in
  stages_completed S =
    [DISCOVERING; ANALYZING; DEPLOYING; TESTING; FIXING; TESTING; FIXING; TESTING] ∧
  tests_failed S = 1%Z ∧ success S = true.
Proof. vm_compute. split; [reflexivity|]. split; reflexivity. Qed.

(** [C5] (amended) With [max_fix_attempts = 2], at least one discovered
    project, a deployer that can be constructed (a working Azure CLI),
    secret storage not failing (no Key Vault URL, or storing succeeds), and
    every testing round reporting a failed test, [run] terminates with the
    fixing stage run exactly twice (alternating with two or three testing
    stages), at least one failed test and one recorded fix attempt in the
    summary, and [success = true] with the session COMPLETED. *)
Theorem run_persistent_failures enable keyvault n ok round f cli :
  (0 < n)%nat → cli = true → (keyvault = false ∨ ok = true) →
  (∀ k, ∃ rs, round k = Some rs ∧ Exists (fun r => is_failed r = true) rs) →
  let S := run 2 enable keyvault n ok round f cli (new_session 2 enable) in
  success S = true ∧ current_stage S = COMPLETED ∧
  (stages_completed S =
     [DISCOVERING; ANALYZING; DEPLOYING; TESTING; FIXING; TESTING; FIXING] ∨
   stages_completed S =
     [DISCOVERING; ANALYZING; DEPLOYING; TESTING; FIXING; TESTING; FIXING; TESTING]) ∧
  (1 <= tests_failed S)%Z ∧ (1 <= summary_fix_attempts S)%Z.
Proof.
  intros Hn Hc Hk Hp S. destruct n as [|n]; [lia|]. subst cli.
  assert (Hkv : keyvault && negb ok = false)
    by (destruct Hk as [-> | ->]; [done|by destruct keyvault]).
  unfold S, run. cbn [negb]. rewrite Hkv. unfold _run_testing_and_fixing_stages.
  change (Z.to_nat (2 + 1)) with 3%nat.
  lazymatch goal with
  | |- context [fix_loop ?m ?r ?g 3 0 ?s] =>
      destruct (fix_loop_two m enable r g s eq_refl Hp eq_refl) as (HS & HT & HX);
      set (st' := fix_loop m r g 3 0 s) in *
  end.
  simpl. split; [done|]. split; [done|]. split; [|done].
  simpl in HS. exact HS.
Qed.

Lemma run_persistent_failures_witness :
  let S := run 2 true false 1 true persistent_timeout (fun _ => true) true
               (new_session 2 true) in
  success S = true ∧ current_stage S = COMPLETED ∧
  (stages_completed S =
     [DISCOVERING; ANALYZING; DEPLOYING; TESTING; FIXING; TESTING; FIXING] ∨
   stages_completed S =
     [DISCOVERING; ANALYZING; DEPLOYING; TESTING; FIXING; TESTING; FIXING; TESTING]) ∧
  (1 <= tests_failed S)%Z ∧ (1 <= summary_fix_attempts S)%Z.
Proof.
  apply (run_persistent_failures true false 1 true persistent_timeout (fun _ => true) true).
  - lia.
  - reflexivity.
  - by left.
  - intros k. exists [timeout_result]. split; [reflexivity|]. apply Exists_cons_hd. reflexivity.
Defined.

(** [TESTING, FIXING] repeated [m] times, then a last TESTING. *)
Definition alternation (m : nat) : list ValidationStage :=
  concat (repeat [TESTING; FIXING] m) ++ [TESTING].

(** [X16] [run] on a new session always ends COMPLETED with
    [success = true], or FAILED with [success = false], and records the
    number of discovered projects.  It ends COMPLETED exactly when at least
    one project is discovered, the deployer can be constructed, and secret
    storage (attempted only with a Key Vault URL) does not fail.  With no
    project nothing is completed; when the deployer cannot be constructed,
    or secret storage fails, only DISCOVERING and ANALYZING are. *)
Theorem run_outcome mx en kv n ok round f cli :
  projects_discovered (run mx en kv n ok round f cli (new_session mx en)) = Z.of_nat n ∧
  ((current_stage (run mx en kv n ok round f cli (new_session mx en)) = COMPLETED ∧
    success (run mx en kv n ok round f cli (new_session mx en)) = true ∧
    (0 < n)%nat ∧ cli = true ∧ (kv = false ∨ ok = true)) ∨
   (current_stage (run mx en kv n ok round f cli (new_session mx en)) = FAILED ∧
    success (run mx en kv n ok round f cli (new_session mx en)) = false ∧
    ((n = 0%nat ∧ stages_completed (run mx en kv n ok round f cli (new_session mx en)) = []) ∨
     ((0 < n)%nat ∧ (cli = false ∨ (kv = true ∧ ok = false)) ∧
      stages_completed (run mx en kv n ok round f cli (new_session mx en)) =
        [DISCOVERING; ANALYZING])))).
Proof.
  unfold run. destruct n as [|n].
  - simpl. split; [done|]. right. auto.
  - destruct cli.
    2:{ simpl. split; [done|]. right. split_and!; [done|done|]. right.
        split_and!; [lia|by left|done]. }
    cbn [negb].
    destruct (kv && negb ok) eqn:Hk.
    + apply andb_true_iff in Hk as [-> Hok]. apply negb_true_iff in Hok as ->.
      simpl. split; [done|]. right. split_and!; [done|done|]. right.
      split_and!; [lia|by right|done].
    + unfold _run_testing_and_fixing_stages.
      lazymatch goal with
      | |- context [fix_loop ?m ?r ?g ?k 0 ?s] =>
          destruct (fix_loop_shape m r g k 0 s) as [P _]
      end.
      simpl. simpl in P. rewrite P. split; [lia|]. left. split_and!; [done|done|lia|done|].
      destruct kv, ok; simpl in Hk; auto; discriminate.
Qed.

(** [X17] When [run] completes (at least one project, the deployer
    constructed, secret storage not failing), the completed stages are
    DISCOVERING, ANALYZING, DEPLOYING followed by a prefix of
    [TESTING, FIXING] repeated [max_fix_attempts] times then TESTING:
    testing and fixing alternate, testing runs at most
    [max_fix_attempts + 1] times and fixing at most [max_fix_attempts]
    times; with [max_fix_attempts >= 0] testing runs at least once. *)
Theorem run_stages mx en kv n ok round f cli :
  (0 < n)%nat → cli = true → (kv = false ∨ ok = true) →
  ∃ k, stages_completed (run mx en kv n ok round f cli (new_session mx en)) =
         [DISCOVERING; ANALYZING; DEPLOYING] ++ take k (alternation (Z.to_nat mx)) ∧
       ((0 <= mx)%Z → (1 <= k)%nat).
Proof.
  intros Hn Hc Hk. unfold run. destruct n as [|n]; [lia|]. subst cli. cbn [negb].
  assert (Hkv : kv && negb ok = false)
    by (destruct Hk as [-> | ->]; [done|by destruct kv]).
  rewrite Hkv. unfold _run_testing_and_fixing_stages.
  destruct (Z_lt_le_dec mx 0) as [Hneg|Hpos].
  - replace (Z.to_nat (mx + 1)) with O by lia. exists O. split; [done|lia].
  - replace (Z.to_nat (mx + 1)) with (S (Z.to_nat mx)) by lia.
    lazymatch goal with
    | |- context [fix_loop ?m ?r ?g ?i 0 ?s] =>
        destruct (fix_loop_shape m r g i 0 s) as [_ [k [Hk1 Hk2]]]
    end.
    exists k. split; [|intros _; apply Hk2; lia].
    rewrite (loop_stages_closed mx (Z.to_nat mx) 0) in Hk1 by lia.
    simpl. simpl in Hk1. rewrite Hk1. done.
Qed.

(** [X18] If at least one project is discovered, the deployer is
    constructed, secret storage does not fail, [max_fix_attempts >= 0], and
    the first testing round reports no failed test (or tests nothing), then
    [run] completes successfully after a single testing stage, with no
    fixing stage, no failed test and no fix attempt in the summary. *)
Theorem run_first_round_passes mx en kv n ok round f cli :
  (0 <= mx)%Z → (0 < n)%nat → cli = true → (kv = false ∨ ok = true) →
  Forall (fun r => is_failed r = false) (default [] (round 0%nat)) →
  stages_completed (run mx en kv n ok round f cli (new_session mx en)) =
    [DISCOVERING; ANALYZING; DEPLOYING; TESTING] ∧
  success (run mx en kv n ok round f cli (new_session mx en)) = true ∧
  tests_failed (run mx en kv n ok round f cli (new_session mx en)) = 0%Z ∧
  summary_fix_attempts (run mx en kv n ok round f cli (new_session mx en)) = 0%Z ∧
  fixes_successful (run mx en kv n ok round f cli (new_session mx en)) = 0%Z.
Proof.
  intros Hm Hn Hc Hk Hall. unfold run. destruct n as [|n]; [lia|]. subst cli. cbn [negb].
  assert (Hkv : kv && negb ok = false)
    by (destruct Hk as [-> | ->]; [done|by destruct kv]).
  rewrite Hkv. unfold _run_testing_and_fixing_stages.
  replace (Z.to_nat (mx + 1)) with (S (Z.to_nat mx)) by lia.
  rewrite fix_loop_S. unfold _run_testing_stage.
  destruct (round 0%nat) as [rs|] eqn:Er; simpl in Hall |- *; [|done].
  assert (Hf : List.filter is_failed rs = []).
  { clear Er. induction Hall as [|r rs Hr _ IH]; [done|]. simpl. by rewrite Hr. }
  rewrite Hf. unfold count_true. rewrite Hf. done.
Qed.

Lemma run_stages_witness :
  ∃ k, stages_completed (run 2 true false 1 true persistent_timeout (fun _ => true) true
                           (new_session 2 true)) =
         [DISCOVERING; ANALYZING; DEPLOYING] ++ take k (alternation (Z.to_nat 2)) ∧
       ((0 <= 2)%Z → (1 <= k)%nat).
Proof.
  apply (run_stages 2 true false 1 true persistent_timeout (fun _ => true) true);
    [lia|reflexivity|by left].
Defined.

(** Every testing round reports one passing endpoint. *)
Definition all_pass (_ : nat) : option (list TestResult) :=
  Some [mkTestResult (mkEndpoint "GET" "/health") SUCCESS (Some 200%Z) None].

Lemma run_first_round_passes_witness :
  stages_completed (run 3 true true 1 true all_pass (fun _ => true) true
                      (new_session 3 true)) =
    [DISCOVERING; ANALYZING; DEPLOYING; TESTING] ∧
  success (run 3 true true 1 true all_pass (fun _ => true) true (new_session 3 true)) = true ∧
  tests_failed (run 3 true true 1 true all_pass (fun _ => true) true (new_session 3 true))
    = 0%Z ∧
  summary_fix_attempts (run 3 true true 1 true all_pass (fun _ => true) true
                          (new_session 3 true)) = 0%Z ∧
  fixes_successful (run 3 true true 1 true all_pass (fun _ => true) true (new_session 3 true))
    = 0%Z.
Proof.
  apply (run_first_round_passes 3 true true 1 true all_pass (fun _ => true) true).
  - lia.
  - lia.
  - reflexivity.
  - by right.
  - simpl. repeat constructor.
Defined.

(** [X26] Whatever the projects, the deployer construction, the Key Vault
    step, the testing rounds and the template fixer do, the summary that
    [run] returns from a fresh session never reports more successful fixes
    than fix attempts, and its counters of successful fixes and failed tests
    are non-negative: the fixing stage copies both fix counters from
    [get_fix_summary()] of the same list of fix attempts. *)
Theorem run_fix_counts mx en kv n ok round f cli :
  0 ≤ fixes_successful (run mx en kv n ok round f cli (new_session mx en))
    ≤ summary_fix_attempts (run mx en kv n ok round f cli (new_session mx en)) ∧
  0 ≤ tests_failed (run mx en kv n ok round f cli (new_session mx en)).
Proof.
  unfold run. destruct n as [|n]; [simpl; lia|].
  destruct cli; [cbn [negb]|simpl; lia].
  destruct (kv && negb ok); [simpl; lia|].
  unfold _run_testing_and_fixing_stages.
  lazymatch goal with
  | |- context [fix_loop ?m ?r ?g ?k 0 ?s] =>
      pose proof (fix_loop_counts m r g k 0 s) as H
  end.
  simpl in H |- *. apply H. unfold counts_ok. simpl. lia.
Qed.

(** The Azure CLI is missing: [run] fails in the deployment stage even
    though the first testing round would pass. *)
Example run_without_cli :
  let S := run 3 true false 1 true all_pass (fun _ => true) false (new_session 3 true) in
  current_stage S = FAILED ∧ success S = false ∧ stages_completed S = [DISCOVERING; ANALYZING].
Proof. vm_compute. split_and!; reflexivity. Qed.

End Session.


(** * [specify_cli/validation/resource_deployer_simple.py]: [ResourceDeployer]

    This is the deployer that [ValidationSession] instantiates.  The Azure
    CLI wrapper is the backend: each of its methods is an oracle whose answer
    may depend on every call the deployer made before (the call trace), so
    any deterministic backend, including one whose state changes as
    resources are created or deleted, is covered.  Logging, progress bars,
    timestamps and the [asyncio.sleep] between retries have no effect on the
    results and are left out. *)

Module Deployer.

(** [ResourceDeployment]; [deployment_status] is never read or written by
    this deployer and is left out. *)
Record ResourceDeployment := mkDeployment {
  resource_id : string;
  resource_type : string;
  resource_name : string;
  deployment_order : Z;
  bicep_template_path : string;
  output_values : list (string * string)
}.

Definition set_output_values (d : ResourceDeployment) (o : list (string * string))
  : ResourceDeployment :=
  mkDeployment (resource_id d) (resource_type d) (resource_name d)
               (deployment_order d) (bicep_template_path d) o.

(** Python [dict] with insertion order: [dict[k] = v] keeps the position of
    an existing key and appends a new one. *)
Fixpoint dict_set (k v : string) (m : list (string * string)) : list (string * string) :=
  match m with
  | [] => [(k, v)]
  | (k', v') :: m' => if String.eqb k k' then (k, v) :: m' else (k', v') :: dict_set k v m'
  end.

(** [dict.update(other)] *)
Definition dict_update (m other : list (string * string)) : list (string * string) :=
  fold_left (fun acc kv => dict_set kv.1 kv.2 acc) other m.

(** The backend calls the deployer makes, with the arguments that identify
    them ([deploy_template]'s [deployment_name] is
    ["deploy-{resource_name}-{timestamp}"]; the timestamp is dropped). *)
Inductive event :=
| EvGetResource (rid : string)
| EvValidateTemplate (template_path : string)
| EvDeployTemplate (template_path : string) (name : string)
| EvDeleteResource (rid : string).

(** The backend.  [None] means the call raised.
    - [get_resource]: [Some b], [b] telling whether the result is not [None];
    - [validate_template]: [Some valid], the ["valid"] entry of the result;
    - [deploy_template]: [Some outputs], [outputs] the ["outputs"] entry if
      the result has one;
    - [delete_resource]: [true] if it returned, [false] if it raised. *)
Record Backend := mkBackend {
  get_resource : list event -> string -> option bool;
  validate_template : list event -> string -> option bool;
  deploy_template : list event -> string -> option (option (list (string * string)));
  delete_resource : list event -> string -> bool
}.

(** The deployer's state: its flags, [self._deployed_resources], and the
    trace of backend calls made so far. *)
Record ResourceDeployer := mkDeployer {
  force_redeploy : bool;
  enable_rollback : bool;
  _deployed_resources : list ResourceDeployment;
  calls : list event
}.

Definition log (self : ResourceDeployer) (e : event) : ResourceDeployer :=
  mkDeployer (force_redeploy self) (enable_rollback self)
             (_deployed_resources self) (calls self ++ [e]).

Definition push_deployed (self : ResourceDeployer) (d : ResourceDeployment)
  : ResourceDeployer :=
  mkDeployer (force_redeploy self) (enable_rollback self)
             (_deployed_resources self ++ [d]) (calls self).

(** [self._retry_policy = ExponentialBackoff(max_attempts=3, ...)] *)
Definition max_attempts : nat := 3.

(** [_check_resource_exists]: both [except] branches return [False]. *)
Definition _check_resource_exists (B : Backend) (self : ResourceDeployer)
    (d : ResourceDeployment) : ResourceDeployer * bool :=
  let r := get_resource B (calls self) (resource_id d) in
  (log self (EvGetResource (resource_id d)),
   match r with Some true => true | _ => false end).

(** The validation retry loop of [_deploy_single].  An invalid template
    raises [ValidationError] inside the [try], so it is retried like a raising
    call; after the last attempt the exception reaches the outer [except]
    and [_deploy_single] returns [False] (result [false] here). *)
Fixpoint validate_loop (B : Backend) (k : nat) (self : ResourceDeployer)
    (template_path : string) : ResourceDeployer * bool :=
  match k with
  | O => (self, false)
  | S k' =>
      let r := validate_template B (calls self) template_path in
      let self1 := log self (EvValidateTemplate template_path) in
      match r with
      | Some true => (self1, true)
      | _ => validate_loop B k' self1 template_path
      end
  end.

(** The deployment retry loop.  On success the outputs are merged into the
    deployment's [output_values] (the object is mutated, so the caller sees
    the new value: it is returned with the flag) and the deployment is
    appended to [self._deployed_resources].  Each deployment is taken to own
    its [output_values] dict: a dict shared by two deployments (which the
    dataclass allows) would see the other's updates, which this value model
    does not represent. *)
Fixpoint deploy_loop (B : Backend) (k : nat) (self : ResourceDeployer)
    (d : ResourceDeployment) : ResourceDeployer * ResourceDeployment * bool :=
  match k with
  | O => (self, d, false)
  | S k' =>
      let r := deploy_template B (calls self) (bicep_template_path d) in
      let self1 := log self (EvDeployTemplate (bicep_template_path d) (resource_name d)) in
      match r with
      | Some outs =>
          let d' := match outs with
                    | Some o => set_output_values d (dict_update (output_values d) o)
                    | None => d
                    end in
          (push_deployed self1 d', d', true)
      | None => deploy_loop B k' self1 d
      end
  end.

(** [_deploy_single] *)
Definition _deploy_single (B : Backend) (self : ResourceDeployer)
    (d : ResourceDeployment) : ResourceDeployer * ResourceDeployment * bool :=
  let '(self1, exists_) :=
    if force_redeploy self then (self, false) else _check_resource_exists B self d in
  if exists_ then (push_deployed self1 d, d, true)
  else
    let '(self2, valid) := validate_loop B max_attempts self1 (bicep_template_path d) in
    if valid then deploy_loop B max_attempts self2 d
    else (self2, d, false).

(** [deployment_outputs[f"{resource_id}/{key}"] = str(value)] for every
    output of a deployed resource. *)
Definition record_outputs (d : ResourceDeployment) (outputs : list (string * string))
  : list (string * string) :=
  fold_left (fun acc kv => dict_set (resource_id d ++ "/" ++ kv.1)%string kv.2 acc)
            (output_values d) outputs.

(** [_deploy_without_progress] (and [_deploy_with_progress], which runs the
    same loop behind a progress bar).  [_deploy_single] catches every
    exception itself, so the loop's own [except] is never reached. *)
Fixpoint deploy_each (B : Backend) (self : ResourceDeployer)
    (ds deployed : list ResourceDeployment) (outputs : list (string * string))
    (errors : list string)
  : ResourceDeployer * list ResourceDeployment * list (string * string) * list string :=
  match ds with
  | [] => (self, deployed, outputs, errors)
  | d :: ds' =>
      let '(self1, d', ok) := _deploy_single B self d in
      if ok then
        deploy_each B self1 ds' (deployed ++ [d'])
                    (match output_values d' with
                     | [] => outputs
                     | _ => record_outputs d' outputs
                     end) errors
      else
        deploy_each B self1 ds' deployed outputs
                    (errors ++ [("Deployment failed for " ++ resource_name d')%string])
  end.

(** [_rollback_deployments]: one [delete_resource] per deployed resource, in
    reverse order; a raising delete is logged and the loop goes on. *)
Fixpoint rollback_loop (B : Backend) (self : ResourceDeployer)
    (ds : list ResourceDeployment) : ResourceDeployer :=
  match ds with
  | [] => self
  | d :: ds' =>
      let r := delete_resource B (calls self) (resource_id d) in
      let self1 := log self (EvDeleteResource (resource_id d)) in
      match r with
      | true => rollback_loop B self1 ds'    (* "Successfully deleted" *)
      | false => rollback_loop B self1 ds'   (* "Failed to delete" *)
      end
  end.

Definition _rollback_deployments (B : Backend) (self : ResourceDeployer)
    (deployed : list ResourceDeployment) : ResourceDeployer :=
  rollback_loop B self (rev deployed).

(** [DeploymentResult]; the id, timestamp and duration are left out. *)
Record DeploymentResult := mkResult {
  success : bool;
  deployed_resources : list ResourceDeployment;
  deployment_outputs : list (string * string);
  error_messages : list string
}.

(** A call that returns or raises. *)
Inductive raises (A : Type) :=
| Raised (msg : string)
| Returned (a : A).
Arguments Raised {A} msg.
Arguments Returned {A} a.

(** The sort key [ordered_ids.index(d.resource_id) if d.resource_id in
    ordered_ids else 999]. *)
Definition order_key (ordered_ids : list string) (d : ResourceDeployment) : nat :=
  match DepGraph.index_of (resource_id d) ordered_ids with
  | Some i => i
  | None => 999%nat
  end.

(** [sorted(deployments, key=...)]: Python's sort is stable, and so is this
    insertion sort (an element goes before the first one of a larger or
    equal key among those that followed it). *)
Fixpoint insert_by (key : ResourceDeployment -> nat) (d : ResourceDeployment)
    (l : list ResourceDeployment) : list ResourceDeployment :=
  match l with
  | [] => [d]
  | d' :: l' => if Nat.leb (key d) (key d') then d :: l else d' :: insert_by key d l'
  end.

Fixpoint sort_by (key : ResourceDeployment -> nat) (l : list ResourceDeployment)
  : list ResourceDeployment :=
  match l with
  | [] => []
  | d :: l' => insert_by key d (sort_by key l')
  end.

(** [deploy_resources].  A [DependencyGraph] object has no [__len__] or
    [__bool__], so [if dependency_graph] tests for [None] only. *)
Definition deploy_resources (B : Backend) (self : ResourceDeployer)
    (deployments : list ResourceDeployment)
    (dependency_graph : option DepGraph.DependencyGraph)
  : raises (ResourceDeployer * DeploymentResult) :=
  if (match dependency_graph with
      | Some g => DepGraph.has_cycle g
      | None => false
      end)
  then Raised "Circular dependency detected in resource graph"
  else
    let deployments :=
      match dependency_graph with
      | Some g =>
          match DepGraph.get_ordered_resources g with
          | DepGraph.Ok ordered_ids => sort_by (order_key ordered_ids) deployments
          | DepGraph.Err _ => deployments   (* "Could not order deployments" *)
          end
      | None => deployments
      end in
    let '(self1, deployed_resources, deployment_outputs, error_messages) :=
      deploy_each B self deployments [] [] [] in
    let success :=
      bool_decide (error_messages = []) && negb (bool_decide (deployed_resources = [])) in
    let self2 :=
      if negb success && enable_rollback self1 && negb (bool_decide (deployed_resources = []))
      then _rollback_deployments B self1 deployed_resources
      else self1 in
    Returned (self2, mkResult success deployed_resources deployment_outputs error_messages).

(** ** The example of the specification: three specs in a linear chain

    [spec_C] depends on [spec_B], which depends on [spec_A]
    ([DepGraph.chain_ABC]). *)
Definition spec_A : ResourceDeployment :=
  mkDeployment "A" "Microsoft.Storage/storageAccounts" "res-a" 1 "a.bicep" [].
Definition spec_B : ResourceDeployment :=
  mkDeployment "B" "Microsoft.Web/serverfarms" "res-b" 2 "b.bicep" [].
Definition spec_C : ResourceDeployment :=
  mkDeployment "C" "Microsoft.Web/sites" "res-c" 3 "c.bicep" [].

(** A backend on which nothing exists yet, every template validates, [a] and
    [b] deploy, [c] always raises, and every delete raises. *)
Definition failing_C_backend : Backend :=
  mkBackend (fun _ _ => Some false)
            (fun _ _ => Some true)
            (fun _ p => if String.eqb p "c.bicep" then None else Some None)
            (fun _ _ => false).

Definition fresh_deployer : ResourceDeployer := mkDeployer false true [] [].

Example failing_C_run :
  deploy_resources failing_C_backend fresh_deployer [spec_C; spec_A; spec_B]
                   (Some DepGraph.chain_ABC)
  = Returned (mkDeployer false true [spec_A; spec_B]
       [EvGetResource "A"; EvValidateTemplate "a.bicep"; EvDeployTemplate "a.bicep" "res-a";
        EvGetResource "B"; EvValidateTemplate "b.bicep"; EvDeployTemplate "b.bicep" "res-b";
        EvGetResource "C"; EvValidateTemplate "c.bicep";
        EvDeployTemplate "c.bicep" "res-c"; EvDeployTemplate "c.bicep" "res-c";
        EvDeployTemplate "c.bicep" "res-c";
        EvDeleteResource "B"; EvDeleteResource "A"],
     mkResult false [spec_A; spec_B] [] ["Deployment failed for res-c"]).
Proof. vm_compute. reflexivity. Qed.

(** ** Properties of the deployer *)

Definition is_delete (e : event) : bool :=
  match e with EvDeleteResource _ => true | _ => false end.

(** [self'] is [self] after some backend calls, none of them a delete, and
    with the same flags. *)
Definition advances (self self' : ResourceDeployer) : Prop :=
  force_redeploy self' = force_redeploy self ∧
  enable_rollback self' = enable_rollback self ∧
  ∃ evs, calls self' = calls self ++ evs ∧ forallb (fun e => negb (is_delete e)) evs = true.

Lemma advances_refl self : advances self self.
Proof. split; [done|]. split; [done|]. exists []. by rewrite app_nil_r. Qed.

Lemma advances_trans s1 s2 s3 : advances s1 s2 → advances s2 s3 → advances s1 s3.
Proof.
  intros (F1 & R1 & evs1 & C1 & N1) (F2 & R2 & evs2 & C2 & N2).
  split; [congruence|]. split; [congruence|]. exists (evs1 ++ evs2).
  rewrite C2, C1, app_assoc. split; [done|]. rewrite forallb_app, N1, N2. done.
Qed.

Lemma advances_log self e : is_delete e = false → advances self (log self e).
Proof.
  intros He. split; [done|]. split; [done|]. exists [e]. simpl. rewrite He. done.
Qed.

Lemma advances_log_trans self e s :
  is_delete e = false → advances (log self e) s → advances self s.
Proof. intros He. apply advances_trans. by apply advances_log. Qed.

Lemma advances_push self s d : advances self s → advances self (push_deployed s d).
Proof. intros (F & R & evs & C & N). split; [done|]. split; [done|]. by exists evs. Qed.

Lemma validate_loop_advances B k self p : advances self (validate_loop B k self p).1.
Proof.
  revert self. induction k as [|k IH]; intros self; simpl; [apply advances_refl|].
  destruct (validate_template B (calls self) p) as [[]|].
  - by apply advances_log.
  - eapply advances_log_trans; [|apply IH]; done.
  - eapply advances_log_trans; [|apply IH]; done.
Qed.

Lemma deploy_loop_advances B k self d : advances self (deploy_loop B k self d).1.1.
Proof.
  revert self. induction k as [|k IH]; intros self; simpl; [apply advances_refl|].
  destruct (deploy_template B (calls self) (bicep_template_path d)).
  - apply advances_push. by apply advances_log.
  - eapply advances_log_trans; [|apply IH]; done.
Qed.

Lemma deploy_single_advances B self d : advances self (_deploy_single B self d).1.1.
Proof.
  unfold _deploy_single.
  destruct (if force_redeploy self then (self, false) else _check_resource_exists B self d)
    as [self1 ex] eqn:E1.
  assert (A1 : advances self self1).
  { destruct (force_redeploy self); [injection E1 as <- _; apply advances_refl|].
    unfold _check_resource_exists in E1. injection E1 as <- _. by apply advances_log. }
  destruct ex; [by apply advances_push|].
  destruct (validate_loop B max_attempts self1 (bicep_template_path d)) as [self2 v] eqn:E2.
  pose proof (validate_loop_advances B max_attempts self1 (bicep_template_path d)) as A2.
  rewrite E2 in A2. simpl in A2.
  destruct v.
  - eapply advances_trans; [exact A1|]. eapply advances_trans; [exact A2|].
    apply deploy_loop_advances.
  - simpl. by eapply advances_trans.
Qed.

Lemma rollback_loop_calls B self ds :
  calls (rollback_loop B self ds) =
  calls self ++ map (fun d => EvDeleteResource (resource_id d)) ds.
Proof.
  revert self. induction ds as [|d ds IH]; intros self; simpl; [by rewrite app_nil_r|].
  destruct (delete_resource B (calls self) (resource_id d));
    rewrite IH; simpl; by rewrite <- app_assoc.
Qed.

Lemma insert_by_perm key d l : insert_by key d l ≡ₚ d :: l.
Proof.
  induction l as [|d' l IH]; simpl; [done|].
  destruct (Nat.leb (key d) (key d')); [done|].
  rewrite IH. by constructor.
Qed.

Lemma sort_by_perm key l : sort_by key l ≡ₚ l.
Proof.
  induction l as [|d l IH]; simpl; [done|]. rewrite insert_by_perm, IH. done.
Qed.

Lemma deploy_each_keeps B self ds dep out err d :
  d ∈ dep → d ∈ (deploy_each B self ds dep out err).1.1.2.
Proof.
  revert self dep out err. induction ds as [|d0 ds IH]; intros self dep out err Hd;
    simpl; [done|].
  destruct (_deploy_single B self d0) as [[s1 d'] ok]. destruct ok; apply IH; [|done].
  apply elem_of_app. by left.
Qed.

(** A resource reported as existing is skipped: one lookup, nothing else. *)
Lemma deploy_single_exists B self d :
  force_redeploy self = false →
  get_resource B (calls self) (resource_id d) = Some true →
  _deploy_single B self d = (push_deployed (log self (EvGetResource (resource_id d))) d, d, true).
Proof.
  intros Hf Hg. unfold _deploy_single. rewrite Hf. unfold _check_resource_exists.
  rewrite Hg. reflexivity.
Qed.

Lemma deploy_each_existing B self ds dep out err d :
  force_redeploy self = false →
  (∀ h, get_resource B h (resource_id d) = Some true) →
  d ∈ ds → d ∈ (deploy_each B self ds dep out err).1.1.2.
Proof.
  intros Hf Hg. revert self dep out err Hf.
  induction ds as [|d0 ds IH]; intros self dep out err Hf Hd;
    [by apply elem_of_nil in Hd|].
  simpl. pose proof (deploy_single_advances B self d0) as (F1 & _).
  destruct (_deploy_single B self d0) as [[s1 d'] ok] eqn:E. simpl in F1.
  apply elem_of_cons in Hd as [-> | Hd].
  - rewrite deploy_single_exists in E by done. injection E as <- <- <-.
    apply deploy_each_keeps, elem_of_app. right. by apply list_elem_of_singleton.
  - destruct ok; apply IH; congruence.
Qed.

(** ** Claim C7: idempotency

    (C7) With [force_redeploy = False], a spec whose resource the backend
    reports as existing is skipped: [_deploy_single] makes the existence
    lookup and no other backend call (in particular no [deploy_template]),
    appends the spec to [self._deployed_resources] and returns [True]; and
    in every [deploy_resources] run over specs that include it, it is among
    the deployed resources of the result. *)
Theorem deploy_existing_skipped B self d :
  force_redeploy self = false →
  (∀ h, get_resource B h (resource_id d) = Some true) →
  _deploy_single B self d =
    (push_deployed (log self (EvGetResource (resource_id d))) d, d, true) ∧
  ∀ ds g self' res,
    d ∈ ds → deploy_resources B self ds g = Returned (self', res) →
    d ∈ deployed_resources res.
Proof.
  intros Hf Hg. split; [by apply deploy_single_exists|].
  intros ds g self' res Hd Hrun. unfold deploy_resources in Hrun.
  set (ds' := match g with
              | Some g0 =>
                  match DepGraph.get_ordered_resources g0 with
                  | DepGraph.Ok o => sort_by (order_key o) ds
                  | DepGraph.Err _ => ds
                  end
              | None => ds
              end) in Hrun.
  assert (Hd' : d ∈ ds').
  { subst ds'. destruct g as [g0|]; [|done].
    destruct (DepGraph.get_ordered_resources g0); [|done]. by rewrite sort_by_perm. }
  pose proof (deploy_each_existing B self ds' [] [] [] d Hf Hg Hd') as Hin.
  destruct (match g with Some g0 => DepGraph.has_cycle g0 | None => false end);
    [discriminate|].
  destruct (deploy_each B self ds' [] [] []) as [[[s1 dep] out] err].
  injection Hrun as _ <-. exact Hin.
Qed.

(** A backend on which every resource exists. *)
Definition existing_backend : Backend :=
  mkBackend (fun _ _ => Some true) (fun _ _ => Some true)
            (fun _ _ => Some None) (fun _ _ => true).

Lemma deploy_existing_skipped_witness :
  _deploy_single existing_backend fresh_deployer spec_A =
    (push_deployed (log fresh_deployer (EvGetResource "A")) spec_A, spec_A, true) ∧
  ∀ ds g self' res,
    spec_A ∈ ds → deploy_resources existing_backend fresh_deployer ds g = Returned (self', res) →
    spec_A ∈ deployed_resources res.
Proof.
  apply (deploy_existing_skipped existing_backend fresh_deployer spec_A).
  - reflexivity.
  - intros h. reflexivity.
Defined.

(** ** Further properties of the deployer *)

Lemma validate_loop_shape B k self p :
  let '(s', v) := validate_loop B k self p in
  ∃ i, (i ≤ k)%nat ∧
    s' = mkDeployer (force_redeploy self) (enable_rollback self) (_deployed_resources self)
                    (calls self ++ repeat (EvValidateTemplate p) i) ∧
    (v = true → (0 < i)%nat) ∧ (v = false → i = k).
Proof.
  revert self. induction k as [|k IH]; intros self; simpl.
  - exists 0%nat. rewrite app_nil_r. destruct self; simpl. split_and!; first [lia | done | intros Hx; discriminate Hx].
  - destruct (validate_template B (calls self) p) as [[]|].
    + exists 1%nat. split_and!; [lia|done|lia|intros Hx; discriminate Hx].
    + specialize (IH (log self (EvValidateTemplate p))).
      destruct (validate_loop B k _ p) as [s' v].
      destruct IH as (i & Hi & -> & H1 & H2). exists (S i). simpl.
      rewrite <- app_assoc. split; [lia|]. split; [done|]. split; [lia|].
      intros Hv; rewrite (H2 Hv); done.
    + specialize (IH (log self (EvValidateTemplate p))).
      destruct (validate_loop B k _ p) as [s' v].
      destruct IH as (i & Hi & -> & H1 & H2). exists (S i). simpl.
      rewrite <- app_assoc. split; [lia|]. split; [done|]. split; [lia|].
      intros Hv; rewrite (H2 Hv); done.
Qed.

Lemma deploy_loop_shape B k self d :
  let '(s', d', ok) := deploy_loop B k self d in
  ∃ j, (j ≤ k)%nat ∧
    s' = mkDeployer (force_redeploy self) (enable_rollback self)
                    (_deployed_resources self ++ (if ok then [d'] else []))
                    (calls self ++ repeat (EvDeployTemplate (bicep_template_path d)
                                                            (resource_name d)) j) ∧
    d' = set_output_values d (output_values d') ∧
    (ok = true → (0 < j)%nat) ∧ (ok = false → j = k ∧ d' = d).
Proof.
  revert self. induction k as [|k IH]; intros self; simpl.
  - exists 0%nat. rewrite !app_nil_r. destruct self, d; simpl. split_and!; first [lia | done | intros Hx; discriminate Hx].
  - destruct (deploy_template B (calls self) (bicep_template_path d)) as [outs|].
    + exists 1%nat. split; [lia|]. split; [done|].
      split; [destruct outs; [done|]; destruct d; done|]. split; [lia|done].
    + specialize (IH (log self (EvDeployTemplate (bicep_template_path d) (resource_name d)))).
      destruct (deploy_loop B k _ d) as [[s' d'] ok].
      destruct IH as (j & Hj & -> & Hd & H1 & H2). exists (S j). simpl.
      rewrite <- app_assoc. split; [lia|]. split; [done|]. split; [done|].
      split; [lia|]. intros Hk. destruct (H2 Hk). split; [lia|done].
Qed.

Lemma validate_deploy_shape B s1 d :
  let '(self', d', ok) :=
    (let '(self2, valid) := validate_loop B max_attempts s1 (bicep_template_path d) in
     if valid then deploy_loop B max_attempts self2 d else (self2, d, false)) in
  force_redeploy self' = force_redeploy s1 ∧
  enable_rollback self' = enable_rollback s1 ∧
  d' = set_output_values d (output_values d') ∧
  _deployed_resources self' = _deployed_resources s1 ++ (if ok then [d'] else []) ∧
  ∃ i j,
    calls self' = calls s1 ++
      repeat (EvValidateTemplate (bicep_template_path d)) i ++
      repeat (EvDeployTemplate (bicep_template_path d) (resource_name d)) j ∧
    (i ≤ max_attempts)%nat ∧ (j ≤ max_attempts)%nat ∧
    ((ok = true ∧ (0 < i)%nat ∧ (0 < j)%nat) ∨
     (ok = false ∧ i = max_attempts ∧ j = 0%nat ∧ d' = d) ∨
     (ok = false ∧ (0 < i)%nat ∧ j = max_attempts ∧ d' = d)).
Proof.
  pose proof (validate_loop_shape B max_attempts s1 (bicep_template_path d)) as Hv.
  destruct (validate_loop B max_attempts s1 _) as [s2 v].
  destruct Hv as (i & Hi & -> & Hv1 & Hv2).
  destruct v.
  - pose proof (deploy_loop_shape B max_attempts
      (mkDeployer (force_redeploy s1) (enable_rollback s1) (_deployed_resources s1)
                  (calls s1 ++ repeat (EvValidateTemplate (bicep_template_path d)) i)) d)
      as Hl.
    destruct (deploy_loop B max_attempts _ d) as [[s3 d'] ok].
    destruct Hl as (j & Hj & -> & Hd & Hl1 & Hl2). simpl.
    split_and!; [done|done|done|done|]. exists i, j. rewrite <- app_assoc.
    split_and!; [done|lia|lia|]. specialize (Hv1 eq_refl).
    destruct ok; [left; split_and!; [done|lia|by apply Hl1]|].
    destruct (Hl2 eq_refl) as [-> ->]. right; right. done.
  - simpl. rewrite app_nil_r. split_and!; [done|done|destruct d; done|done|]. exists i, 0%nat.
    simpl. rewrite app_nil_r. split_and!; [done|lia|unfold max_attempts; lia|].
    right; left. rewrite (Hv2 eq_refl). done.
Qed.

(** [X19] [_deploy_single] keeps the flags and the [resource_id] (it only changes
    [output_values]), appends the returned deployment to
    [self._deployed_resources] exactly when it returns [True], and its
    backend calls are: the existence lookup (skipped with
    [force_redeploy]), then [i] validation attempts, then [j] deployment
    attempts, with [i, j <= 3].  The four outcomes are: skipped as existing
    (no validation, no deployment, the spec unchanged); deployed after at
    least one validation and one deployment call; validation failed at all 3
    attempts (no deployment call); deployment failed at all 3 attempts. *)
Theorem deploy_single_calls B self d :
  let '(self', d', ok) := _deploy_single B self d in
  force_redeploy self' = force_redeploy self ∧
  enable_rollback self' = enable_rollback self ∧
  d' = set_output_values d (output_values d') ∧
  _deployed_resources self' = _deployed_resources self ++ (if ok then [d'] else []) ∧
  ∃ i j,
    calls self' = calls self ++
      (if force_redeploy self then [] else [EvGetResource (resource_id d)]) ++
      repeat (EvValidateTemplate (bicep_template_path d)) i ++
      repeat (EvDeployTemplate (bicep_template_path d) (resource_name d)) j ∧
    (i ≤ max_attempts)%nat ∧ (j ≤ max_attempts)%nat ∧
    ((ok = true ∧ i = 0%nat ∧ j = 0%nat ∧ force_redeploy self = false ∧ d' = d) ∨
     (ok = true ∧ (0 < i)%nat ∧ (0 < j)%nat) ∨
     (ok = false ∧ i = max_attempts ∧ j = 0%nat ∧ d' = d) ∨
     (ok = false ∧ (0 < i)%nat ∧ j = max_attempts ∧ d' = d)).
Proof.
  unfold _deploy_single.
  destruct (force_redeploy self) eqn:Ef.
  - pose proof (validate_deploy_shape B self d) as H.
    destruct (let '(self2, valid) := _ in _) as [[s' d'] ok].
    destruct H as (F & R & Hd & Dp & i & j & C & Hi & Hj & Hc). rewrite ?Ef in F.
    split_and!; [done..|]. exists i, j. split_and!; [done..|]. right. done.
  - unfold _check_resource_exists.
    destruct (get_resource B (calls self) (resource_id d)) as [[]|] eqn:Eg.
    + simpl. rewrite Ef. split_and!; [done|done|destruct d; done|done|]. exists 0%nat, 0%nat. simpl.
      split_and!; [by rewrite ?app_nil_r|unfold max_attempts; lia..|]. left. done.
    + pose proof (validate_deploy_shape B (log self (EvGetResource (resource_id d))) d) as H.
      destruct (let '(self2, valid) := _ in _) as [[s' d'] ok].
      destruct H as (F & R & Hd & Dp & i & j & C & Hi & Hj & Hc). simpl in F. rewrite ?Ef in F.
      split_and!; [done..|]. exists i, j. rewrite C. simpl. rewrite <- app_assoc.
      split_and!; [done..|]. right. done.
    + pose proof (validate_deploy_shape B (log self (EvGetResource (resource_id d))) d) as H.
      destruct (let '(self2, valid) := _ in _) as [[s' d'] ok].
      destruct H as (F & R & Hd & Dp & i & j & C & Hi & Hj & Hc). simpl in F. rewrite ?Ef in F.
      split_and!; [done..|]. exists i, j. rewrite C. simpl. rewrite <- app_assoc.
      split_and!; [done..|]. right. done.
Qed.

Lemma deploy_single_deployed B self d :
  let '(s', d', ok) := _deploy_single B self d in
  resource_id d' = resource_id d ∧
  _deployed_resources s' = _deployed_resources self ++ (if ok then [d'] else []).
Proof.
  unfold _deploy_single.
  destruct (force_redeploy self);
    [|unfold _check_resource_exists;
      destruct (get_resource B (calls self) (resource_id d)) as [[]|];
      [simpl; done| |]];
    (match goal with
     | |- context [validate_loop B max_attempts ?s1 _] =>
         pose proof (validate_deploy_shape B s1 d) as H
     end;
     destruct (let '(self2, valid) := _ in _) as [[s' d'] ok];
     destruct H as (_ & _ & Hd & Dp & _);
     split; [rewrite Hd; done|exact Dp]).
Qed.

Lemma deploy_each_spec B self ds dep out err :
  let '(s', dep', out', err') := deploy_each B self ds dep out err in
  ∃ dnew enew,
    dep' = dep ++ dnew ∧ err' = err ++ enew ∧
    (length dnew + length enew = length ds)%nat ∧
    advances self s' ∧
    _deployed_resources s' = _deployed_resources self ++ dnew ∧
    map resource_id dnew `sublist_of` map resource_id ds.
Proof.
  revert self dep out err. induction ds as [|d ds IH]; intros self dep out err; simpl.
  - exists [], []. rewrite !app_nil_r.
    split_and!; [done|done|done|apply advances_refl|done|constructor].
  - pose proof (deploy_single_deployed B self d) as Hs.
    pose proof (deploy_single_advances B self d) as A1.
    destruct (_deploy_single B self d) as [[s1 d'] ok]. simpl in A1.
    destruct Hs as [Hid Hdep].
    destruct ok.
    + specialize (IH s1 (dep ++ [d'])
        (match output_values d' with [] => out | _ => record_outputs d' out end) err).
      destruct (deploy_each B s1 ds _ _ _) as [[[s' dep'] out'] err'].
      destruct IH as (dnew & enew & -> & -> & Hl & A2 & Hdp & Hsub).
      exists (d' :: dnew), enew. rewrite <- app_assoc. simpl.
      split_and!; [done|done|lia|by eapply advances_trans| |].
      * rewrite Hdp, Hdep, <- app_assoc. done.
      * rewrite Hid. by apply sublist_skip.
    + specialize (IH s1 dep out (err ++ [("Deployment failed for " ++ resource_name d')%string])).
      destruct (deploy_each B s1 ds _ _ _) as [[[s' dep'] out'] err'].
      destruct IH as (dnew & enew & -> & -> & Hl & A2 & Hdp & Hsub).
      exists dnew, (("Deployment failed for " ++ resource_name d')%string :: enew).
      rewrite <- app_assoc. simpl.
      split_and!; [done|done|lia|by eapply advances_trans| |].
      * rewrite Hdp, Hdep, app_nil_r. done.
      * by apply sublist_cons.
Qed.

Lemma rollback_loop_state B self ds :
  rollback_loop B self ds =
  mkDeployer (force_redeploy self) (enable_rollback self) (_deployed_resources self)
             (calls self ++ map (fun d => EvDeleteResource (resource_id d)) ds).
Proof.
  revert self. induction ds as [|d ds IH]; intros self; simpl.
  - rewrite app_nil_r. by destruct self.
  - destruct (delete_resource B (calls self) (resource_id d));
      rewrite IH; simpl; by rewrite <- app_assoc.
Qed.

(** ** Claim C6: rollback after a failure in a three-spec chain *)

(** [sorted] puts three elements with increasing keys in key order,
    whatever order they come in. *)
Lemma sort_three (key : ResourceDeployment → nat) a b c ds :
  (key a < key b)%nat → (key b < key c)%nat → ds ≡ₚ [a; b; c] →
  sort_by key ds = [a; b; c].
Proof.
  intros Hab Hbc Hp. apply Permutation_sym, (proj2 (permutations_Permutation _ _)) in Hp.
  assert (Hq : permutations [a; b; c] =
    [[a; b; c]; [b; a; c]; [b; c; a]; [a; c; b]; [c; a; b]; [c; b; a]]) by reflexivity.
  rewrite Hq in Hp.
  assert (L1 : Nat.leb (key a) (key b) = true) by (apply Nat.leb_le; lia).
  assert (L2 : Nat.leb (key b) (key c) = true) by (apply Nat.leb_le; lia).
  assert (L3 : Nat.leb (key a) (key c) = true) by (apply Nat.leb_le; lia).
  assert (L4 : Nat.leb (key b) (key a) = false) by (apply Nat.leb_gt; lia).
  assert (L5 : Nat.leb (key c) (key b) = false) by (apply Nat.leb_gt; lia).
  assert (L6 : Nat.leb (key c) (key a) = false) by (apply Nat.leb_gt; lia).
  repeat (apply elem_of_cons in Hp as [-> | Hp];
          [do 4 (cbn [sort_by insert_by]; rewrite ?L1, ?L2, ?L3, ?L4, ?L5, ?L6); reflexivity|]).
  by apply elem_of_nil in Hp.
Qed.

(** On an acyclic well-formed graph, a dependency's [order_key] is smaller
    than its dependent's. *)
Lemma order_key_edge g o m x y :
  DepGraph.wf g → DepGraph.kahn_inv g [] o m →
  List.filter (fun n => negb (bool_decide (n ∈ o))) (DepGraph.nodes g) = [] →
  DepGraph.edge g x y →
  ∀ (dx dy : ResourceDeployment), resource_id dx = x → resource_id dy = y →
  (order_key o dx < order_key o dy)%nat.
Proof.
  intros Hwf Hinv Hrem Hxy dx dy Hx Hy.
  destruct (DepGraph.ok_topological g o m Hinv Hrem) as (_ & Hmem & Hord).
  destruct (DepGraph.wf_edge_nodes g Hwf x y Hxy) as [Nx Ny].
  destruct (DepGraph.index_of_spec x o) as [i [Hi Hi']]; [by apply Hmem|].
  destruct (DepGraph.index_of_spec y o) as [j [Hj Hj']]; [by apply Hmem|].
  unfold order_key. rewrite Hx, Hy, Hi, Hj. by apply (Hord i j x y).
Qed.

(** (C6) Let [a], [b], [c] be three specs in a dependency chain
    [a <- b <- c] of an acyclic dependency graph, passed in any order, with
    rollback enabled.  If [_deploy_single] succeeds for [a] and then for
    [b] (by deploying, after any number of retries, or by skipping an
    existing resource) and then fails for [c] (which happens only when its
    3 validation attempts or its 3 deployment attempts are used up), then
    [deploy_resources] returns a result with [success = false] whose
    deployed resources are [a] and [b], and the backend calls it made end
    with [delete_resource] on [b] and then on [a], preceded by no delete at
    all.  The backend [B] is arbitrary, so this holds whatever
    [delete_resource] does: a raising delete does not stop the next one. *)
Theorem deploy_resources_rollback B self g a b c ds :
  DepGraph.wf g → DepGraph.acyclic g →
  DepGraph.edge g (resource_id a) (resource_id b) →
  DepGraph.edge g (resource_id b) (resource_id c) →
  ds ≡ₚ [a; b; c] →
  enable_rollback self = true →
  (_deploy_single B self a).2 = true →
  (_deploy_single B (_deploy_single B self a).1.1 b).2 = true →
  (_deploy_single B (_deploy_single B (_deploy_single B self a).1.1 b).1.1 c).2 = false →
  ∃ self' res evs,
    deploy_resources B self ds (Some g) = Returned (self', res) ∧
    success res = false ∧
    map resource_id (deployed_resources res) = [resource_id a; resource_id b] ∧
    calls self' = calls self ++ evs ++
                  [EvDeleteResource (resource_id b); EvDeleteResource (resource_id a)] ∧
    forallb (fun e => negb (is_delete e)) evs = true.
Proof.
  intros Hwf Hac Hab Hbc Hp Hr Ha Hb Hc.
  destruct (DepGraph.ordered_cases g Hwf) as (o & m & Hinv & [[Hrem Heq]|[Hne Heq]]).
  2:{ exfalso.
      destruct (DepGraph.closed_walk_cycle g _ (DepGraph.err_cycle g o m Hwf Hinv Hne))
        as [x [_ Hx]].
      by apply (Hac x). }
  assert (Hcy : DepGraph.has_cycle g = false) by (unfold DepGraph.has_cycle; by rewrite Heq).
  assert (Hsort : sort_by (order_key o) ds = [a; b; c]).
  { apply sort_three; [| |done].
    - by apply (order_key_edge g o m (resource_id a) (resource_id b)).
    - by apply (order_key_edge g o m (resource_id b) (resource_id c)). }
  unfold deploy_resources. cbv iota beta. rewrite Hcy, Heq, Hsort.
  cbn [deploy_each].
  (* a *)
  pose proof (deploy_single_deployed B self a) as Da.
  pose proof (deploy_single_advances B self a) as A1.
  revert Ha Hb Hc Da A1.
  destruct (_deploy_single B self a) as [[s1 a'] okA]. cbn [fst snd].
  intros -> Hb Hc [Ia _] A1. cbn [deploy_each].
  (* b *)
  pose proof (deploy_single_deployed B s1 b) as Db.
  pose proof (deploy_single_advances B s1 b) as A2.
  revert Hb Hc Db A2.
  destruct (_deploy_single B s1 b) as [[s2 b'] okB]. cbn [fst snd].
  intros -> Hc [Ib _] A2. cbn [deploy_each].
  (* c *)
  pose proof (deploy_single_advances B s2 c) as A3.
  revert Hc A3.
  destruct (_deploy_single B s2 c) as [[s3 c'] okC]. cbn [fst snd].
  intros -> A3. cbn [deploy_each].
  pose proof (advances_trans _ _ _ (advances_trans _ _ _ A1 A2) A3)
    as (_ & R3 & evs & C3 & N3).
  eexists _, _, evs. split; [reflexivity|]. cbn [success deployed_resources app].
  rewrite R3, Hr.
  assert (Hs : bool_decide ([("Deployment failed for " ++ resource_name c')%string] = [])
                 = false) by (apply bool_decide_eq_false; discriminate).
  assert (Hd : bool_decide ([a'; b'] = []) = false)
    by (apply bool_decide_eq_false; discriminate).
  rewrite Hs, Hd. cbn [andb negb].
  split; [done|]. split; [simpl; by rewrite Ia, Ib|].
  split; [|done].
  unfold _rollback_deployments. rewrite rollback_loop_calls, C3. simpl.
  rewrite Ia, Ib, <- app_assoc. done.
Qed.

Lemma deploy_resources_rollback_witness :
  ∃ self' res evs,
    deploy_resources failing_C_backend fresh_deployer [spec_C; spec_A; spec_B]
                     (Some DepGraph.chain_ABC) = Returned (self', res) ∧
    success res = false ∧
    map resource_id (deployed_resources res) = [resource_id spec_A; resource_id spec_B] ∧
    calls self' = calls fresh_deployer ++ evs ++
                  [EvDeleteResource (resource_id spec_B); EvDeleteResource (resource_id spec_A)] ∧
    forallb (fun e => negb (is_delete e)) evs = true.
Proof.
  apply (deploy_resources_rollback failing_C_backend fresh_deployer DepGraph.chain_ABC
                                   spec_A spec_B spec_C [spec_C; spec_A; spec_B]).
  - apply DepGraph.wf_chain_ABC.
  - apply DepGraph.acyclic_chain_ABC.
  - unfold DepGraph.edge.
    replace (DepGraph.get_dependencies DepGraph.chain_ABC (resource_id spec_B))
      with ["A"%string] by (vm_compute; reflexivity).
    apply list_elem_of_singleton. reflexivity.
  - unfold DepGraph.edge.
    replace (DepGraph.get_dependencies DepGraph.chain_ABC (resource_id spec_C))
      with ["B"%string] by (vm_compute; reflexivity).
    apply list_elem_of_singleton. reflexivity.
  - apply (Permutation_cons_append [spec_A; spec_B] spec_C).
  - reflexivity.
  - vm_compute. reflexivity.
  - vm_compute. reflexivity.
  - vm_compute. reflexivity.
Defined.

Lemma deploy_resources_spec B self ds g :
  match deploy_resources B self ds g with
  | Raised msg =>
      msg = "Circular dependency detected in resource graph"%string ∧
      ∃ g0, g = Some g0 ∧ DepGraph.has_cycle g0 = true
  | Returned (self', res) =>
      (∀ g0, g = Some g0 → DepGraph.has_cycle g0 = false) ∧
      (length (deployed_resources res) + length (error_messages res) = length ds)%nat ∧
      (success res = true ↔ error_messages res = [] ∧ deployed_resources res ≠ []) ∧
      map resource_id (deployed_resources res) ⊆+ map resource_id ds ∧
      _deployed_resources self' = _deployed_resources self ++ deployed_resources res ∧
      force_redeploy self' = force_redeploy self ∧
      enable_rollback self' = enable_rollback self ∧
      ∃ evs, forallb (fun e => negb (is_delete e)) evs = true ∧
        calls self' = calls self ++ evs ++
          (if negb (success res) && enable_rollback self
           then map (fun d => EvDeleteResource (resource_id d)) (rev (deployed_resources res))
           else [])
  end.
Proof.
  unfold deploy_resources.
  destruct (match g with Some g0 => DepGraph.has_cycle g0 | None => false end) eqn:Ecy.
  - split; [done|]. destruct g as [g0|]; [|discriminate]. by exists g0.
  - set (ds' := match g with
                | Some g0 =>
                    match DepGraph.get_ordered_resources g0 with
                    | DepGraph.Ok o => sort_by (order_key o) ds
                    | DepGraph.Err _ => ds
                    end
                | None => ds
                end).
    assert (Hp : ds' ≡ₚ ds).
    { subst ds'. destruct g as [g0|]; [|done].
      destruct (DepGraph.get_ordered_resources g0); [|done]. apply sort_by_perm. }
    pose proof (deploy_each_spec B self ds' [] [] []) as H.
    destruct (deploy_each B self ds' [] [] []) as [[[s1 dep] out] err].
    destruct H as (dnew & enew & -> & -> & Hl & (F1 & R1 & evs & C1 & N1) & Hdp & Hsub).
    simpl. rewrite R1.
    assert (Hsh : ∀ c : bool,
      (if c && negb (bool_decide (dnew = [])) then _rollback_deployments B s1 dnew else s1)
      = mkDeployer (force_redeploy self) (enable_rollback self)
          (_deployed_resources self ++ dnew)
          (calls self ++ evs ++
             if c then map (fun d => EvDeleteResource (resource_id d)) (rev dnew) else [])).
    { intros c.
      assert (Hs1 : s1 = mkDeployer (force_redeploy self) (enable_rollback self)
                           (_deployed_resources self ++ dnew) (calls self ++ evs))
        by (destruct s1; simpl in *; congruence).
      destruct (decide (dnew = [])) as [->|Hne].
      - rewrite bool_decide_eq_true_2 by done. rewrite andb_false_r, Hs1.
        destruct c; simpl; by rewrite !app_nil_r.
      - rewrite (bool_decide_eq_false_2 _ Hne), andb_true_r.
        destruct c; [|by rewrite Hs1, app_nil_r].
        unfold _rollback_deployments. rewrite rollback_loop_state, Hs1. simpl.
        by rewrite <- app_assoc. }
    rewrite Hsh. simpl.
    split_and!; [|..|by exists evs].
    + intros g0 ->. exact Ecy.
    + rewrite Hl. by apply Permutation_length.
    + rewrite andb_true_iff, negb_true_iff, bool_decide_eq_true, bool_decide_eq_false.
      done.
    + etrans; [by apply sublist_submseteq|].
      apply Permutation_submseteq. by apply Permutation_map.
    + done.
    + done.
    + done.
Qed.

(** ** Order of the deployments *)

Lemma insert_by_sorted key d l :
  StronglySorted (fun a b => key a ≤ key b)%nat l →
  StronglySorted (fun a b => key a ≤ key b)%nat (insert_by key d l).
Proof.
  induction 1 as [|d' l Hs IH Hf]; simpl.
  - repeat constructor.
  - destruct (Nat.leb (key d) (key d')) eqn:E.
    + apply Nat.leb_le in E. constructor; [by constructor|].
      constructor; [done|]. eapply Forall_impl; [exact Hf|]. simpl. lia.
    + apply Nat.leb_gt in E. constructor; [done|].
      apply Forall_forall. intros x Hx.
      rewrite (insert_by_perm key d l) in Hx. apply elem_of_cons in Hx as [->|Hx]; [lia|].
      by apply (proj1 (Forall_forall _ _) Hf).
Qed.

Lemma sort_by_sorted key l :
  StronglySorted (fun a b => key a ≤ key b)%nat (sort_by key l).
Proof. induction l as [|d l IH]; simpl; [constructor|]. by apply insert_by_sorted. Qed.

Lemma ssorted_map {A C} (f : A → C) (R : C → C → Prop) l :
  StronglySorted (fun a b => R (f a) (f b)) l → StronglySorted R (map f l).
Proof.
  induction 1 as [|a l Hs IH Hf]; simpl; constructor; [done|].
  apply Forall_map. done.
Qed.

Lemma ssorted_sublist {A} (R : A → A → Prop) l1 l2 :
  l1 `sublist_of` l2 → StronglySorted R l2 → StronglySorted R l1.
Proof.
  induction 1 as [|x l1 l2 Hsub IH|x l1 l2 Hsub IH]; intros Hs; [done| |];
    apply StronglySorted_inv in Hs as [Hs Hf].
  - constructor; [by apply IH|]. apply Forall_forall. intros y Hy.
    apply (proj1 (Forall_forall _ _) Hf).
    by apply (sublist_subseteq _ _ Hsub).
  - by apply IH.
Qed.

Lemma sublist_map {A C} (f : A → C) l1 l2 :
  l1 `sublist_of` l2 → map f l1 `sublist_of` map f l2.
Proof. induction 1; simpl; by constructor. Qed.

(** [X21] When the graph yields a topological order [o], [deploy_resources] sorts
    the specs by their position in [o] (unknown ids last): the ids of the
    deployed resources are, in order, a subsequence of the sorted ids, so
    their positions in [o] never decrease. *)
Theorem deploy_resources_ordered B self ds g o self' res :
  DepGraph.get_ordered_resources g = DepGraph.Ok o →
  deploy_resources B self ds (Some g) = Returned (self', res) →
  map resource_id (deployed_resources res) `sublist_of`
    map resource_id (sort_by (order_key o) ds) ∧
  StronglySorted le (map (order_key o) (deployed_resources res)).
Proof.
  intros Ho Hrun. unfold deploy_resources in Hrun.
  destruct (DepGraph.has_cycle g); [discriminate|]. rewrite Ho in Hrun.
  pose proof (deploy_each_spec B self (sort_by (order_key o) ds) [] [] []) as H.
  destruct (deploy_each B self (sort_by (order_key o) ds) [] [] []) as [[[s1 dep] out] err].
  destruct H as (dnew & enew & -> & -> & _ & _ & _ & Hsub).
  injection Hrun as _ <-. simpl. split; [done|].
  set (idx := fun r => match DepGraph.index_of r o with Some i => i | None => 999%nat end).
  assert (Hk : ∀ l, map (order_key o) l = map idx (map resource_id l)).
  { intros l. rewrite map_map. done. }
  rewrite Hk. eapply ssorted_sublist; [by apply sublist_map|].
  rewrite <- Hk. apply (ssorted_map (order_key o) le), sort_by_sorted.
Qed.

Lemma deploy_resources_ordered_witness :
  DepGraph.get_ordered_resources DepGraph.chain_ABC = DepGraph.Ok ["A"; "B"; "C"]%string ∧
  ∃ self' res,
    deploy_resources failing_C_backend fresh_deployer [spec_C; spec_A; spec_B]
                     (Some DepGraph.chain_ABC) = Returned (self', res) ∧
    map resource_id (deployed_resources res) `sublist_of`
      map resource_id (sort_by (order_key ["A"; "B"; "C"]%string) [spec_C; spec_A; spec_B]) ∧
    StronglySorted le (map (order_key ["A"; "B"; "C"]%string) (deployed_resources res)).
Proof.
  assert (Ho : DepGraph.get_ordered_resources DepGraph.chain_ABC
               = DepGraph.Ok ["A"; "B"; "C"]%string) by (vm_compute; reflexivity).
  split; [exact Ho|]. eexists _, _. split; [exact failing_C_run|].
  exact (deploy_resources_ordered failing_C_backend fresh_deployer [spec_C; spec_A; spec_B]
           DepGraph.chain_ABC ["A"; "B"; "C"]%string _ _ Ho failing_C_run).
Defined.

(** [X22] With no specs (and an acyclic graph, or none), [deploy_resources] makes
    no backend call, leaves the deployer unchanged and reports failure:
    [success] needs at least one deployed resource. *)
Theorem deploy_resources_empty B self g :
  (∀ g0, g = Some g0 → DepGraph.has_cycle g0 = false) →
  deploy_resources B self [] g = Returned (self, mkResult false [] [] []).
Proof.
  intros Hg. unfold deploy_resources.
  destruct g as [g0|].
  - rewrite (Hg g0 eq_refl).
    destruct (DepGraph.get_ordered_resources g0); simpl;
      rewrite ?bool_decide_eq_true_2 by done; simpl; rewrite ?andb_false_r; done.
  - simpl. rewrite ?bool_decide_eq_true_2 by done. simpl. rewrite ?andb_false_r. done.
Qed.

Lemma deploy_resources_empty_witness :
  (∀ g0, None = Some g0 → DepGraph.has_cycle g0 = false) ∧
  deploy_resources failing_C_backend fresh_deployer [] None
  = Returned (fresh_deployer, mkResult false [] [] []).
Proof.
  assert (Hg : ∀ g0, None = Some g0 → DepGraph.has_cycle g0 = false)
    by (intros g0 H; discriminate H).
  split; [exact Hg|]. exact (deploy_resources_empty failing_C_backend fresh_deployer None Hg).
Defined.

(** [X20] [deploy_resources] either raises [ValidationError("Circular dependency
    detected in resource graph")], exactly when a graph is given and has a
    cycle, or returns a result in which every spec is accounted for once
    (deployed resources plus error messages number as many as the specs),
    [success] holds iff there is no error and at least one deployed
    resource, and the deployed ids are a sub-multiset of the specs' ids.
    [self._deployed_resources] grows by exactly the deployed resources and
    the flags are unchanged.  The backend calls made are delete-free, then,
    on failure with rollback enabled, one [delete_resource] per deployed
    resource in reverse order. *)
Theorem deploy_resources_shape B self ds g :
  match deploy_resources B self ds g with
  | Raised msg =>
      msg = "Circular dependency detected in resource graph"%string ∧
      ∃ g0, g = Some g0 ∧ DepGraph.has_cycle g0 = true
  | Returned (self', res) =>
      (∀ g0, g = Some g0 → DepGraph.has_cycle g0 = false) ∧
      (length (deployed_resources res) + length (error_messages res) = length ds)%nat ∧
      (success res = true ↔ error_messages res = [] ∧ deployed_resources res ≠ []) ∧
      map resource_id (deployed_resources res) ⊆+ map resource_id ds ∧
      _deployed_resources self' = _deployed_resources self ++ deployed_resources res ∧
      force_redeploy self' = force_redeploy self ∧
      enable_rollback self' = enable_rollback self ∧
      ∃ evs, forallb (fun e => negb (is_delete e)) evs = true ∧
        calls self' = calls self ++ evs ++
          (if negb (success res) && enable_rollback self
           then map (fun d => EvDeleteResource (resource_id d)) (rev (deployed_resources res))
           else [])
  end.
Proof. exact (deploy_resources_spec B self ds g). Qed.

Lemma deploy_resources_existing_in B self ds g d self' res :
  force_redeploy self = false →
  (∀ h, get_resource B h (resource_id d) = Some true) →
  d ∈ ds → deploy_resources B self ds g = Returned (self', res) →
  d ∈ deployed_resources res.
Proof.
  intros Hf Hg Hd Hrun. unfold deploy_resources in Hrun.
  set (ds' := match g with
              | Some g0 =>
                  match DepGraph.get_ordered_resources g0 with
                  | DepGraph.Ok o => sort_by (order_key o) ds
                  | DepGraph.Err _ => ds
                  end
              | None => ds
              end) in Hrun.
  assert (Hd' : d ∈ ds').
  { subst ds'. destruct g as [g0|]; [|done].
    destruct (DepGraph.get_ordered_resources g0); [|done]. by rewrite sort_by_perm. }
  pose proof (deploy_each_existing B self ds' [] [] [] d Hf Hg Hd') as Hin.
  destruct (match g with Some g0 => DepGraph.has_cycle g0 | None => false end);
    [discriminate|].
  destruct (deploy_each B self ds' [] [] []) as [[[s1 dep] out] err].
  injection Hrun as _ <-. exact Hin.
Qed.

(** [X23] A resource skipped because it already existed is still appended to the
    deployed resources, so when the run fails with rollback enabled,
    [_rollback_deployments] calls [delete_resource] on it as well. *)
Theorem rollback_deletes_existing B self ds g d self' res :
  force_redeploy self = false →
  enable_rollback self = true →
  (∀ h, get_resource B h (resource_id d) = Some true) →
  d ∈ ds →
  deploy_resources B self ds g = Returned (self', res) →
  success res = false →
  EvDeleteResource (resource_id d) ∈ calls self'.
Proof.
  intros Hf Hr Hg Hd Hrun Hs.
  pose proof (deploy_resources_existing_in B self ds g d self' res Hf Hg Hd Hrun) as Hin.
  pose proof (deploy_resources_spec B self ds g) as H. rewrite Hrun in H.
  destruct H as (_ & _ & _ & _ & _ & _ & _ & evs & _ & ->).
  rewrite Hs, Hr. simpl.
  apply elem_of_app; right. apply elem_of_app; right.
  apply list_elem_of_In, in_map_iff. exists d. split; [done|].
  apply in_rev. rewrite rev_involutive. by apply list_elem_of_In.
Qed.

(** A backend on which [A] exists already, every template validates, and
    [c] always fails to deploy. *)
Definition existing_A_backend : Backend :=
  mkBackend (fun _ r => Some (String.eqb r "A"))
            (fun _ _ => Some true)
            (fun _ p => if String.eqb p "c.bicep" then None else Some None)
            (fun _ _ => false).

Lemma rollback_deletes_existing_witness :
  ∃ self' res,
    deploy_resources existing_A_backend fresh_deployer [spec_A; spec_C] None
      = Returned (self', res) ∧
    success res = false ∧
    EvDeleteResource "A" ∈ calls self'.
Proof.
  assert (Hrun : deploy_resources existing_A_backend fresh_deployer [spec_A; spec_C] None
    = Returned (mkDeployer false true [spec_A]
         [EvGetResource "A"; EvGetResource "C"; EvValidateTemplate "c.bicep";
          EvDeployTemplate "c.bicep" "res-c"; EvDeployTemplate "c.bicep" "res-c";
          EvDeployTemplate "c.bicep" "res-c"; EvDeleteResource "A"],
       mkResult false [spec_A] [] ["Deployment failed for res-c"]))
    by (vm_compute; reflexivity).
  eexists _, _. split; [exact Hrun|]. split; [reflexivity|].
  exact (rollback_deletes_existing existing_A_backend fresh_deployer [spec_A; spec_C] None
           spec_A _ _ eq_refl eq_refl (fun h => eq_refl)
           (proj2 (elem_of_cons _ _ _) (or_introl eq_refl)) Hrun eq_refl).
Defined.

(** ** Output dictionaries *)

(** [m.get(k)] on a dict kept as an association list without duplicate
    keys (the only kind [dict_set] builds). *)
Fixpoint dict_get (k : string) (m : list (string * string)) : option string :=
  match m with
  | [] => None
  | (k', v) :: m' => if String.eqb k k' then Some v else dict_get k m'
  end.

Lemma dict_get_set k k' v m :
  dict_get k (dict_set k' v m) = if String.eqb k k' then Some v else dict_get k m.
Proof.
  induction m as [|[k1 v1] m IH]; simpl; [done|].
  destruct (String.eqb_spec k' k1) as [<-|Hne]; simpl.
  - destruct (String.eqb k k'); done.
  - rewrite IH. destruct (String.eqb_spec k k1) as [->|]; [|done].
    destruct (String.eqb_spec k1 k'); [congruence|done].
Qed.

Lemma dict_set_keys k v m :
  ∃ ks, map fst (dict_set k v m) = map fst m ++ ks.
Proof.
  induction m as [|[k1 v1] m [ks IH]]; simpl; [by exists [k]|].
  destruct (String.eqb_spec k k1) as [->|]; simpl.
  - exists []. by rewrite app_nil_r.
  - exists ks. by rewrite IH.
Qed.

Lemma dict_get_fold (f : string → string) k o m :
  dict_get k (fold_left (fun acc kv => dict_set (f kv.1) kv.2 acc) o m) =
  match find (fun kv => String.eqb k (f kv.1)) (rev o) with
  | Some kv => Some kv.2
  | None => dict_get k m
  end.
Proof.
  induction o as [|x o IH] using rev_ind; simpl; [done|].
  rewrite fold_left_app, rev_app_distr. simpl. rewrite dict_get_set.
  destruct (String.eqb k (f x.1)); done.
Qed.

Lemma dict_fold_keys (f : string → string) o m :
  ∃ ks, map fst (fold_left (fun acc kv => dict_set (f kv.1) kv.2 acc) o m) = map fst m ++ ks.
Proof.
  revert m. induction o as [|x o IH]; intros m; simpl; [exists []; by rewrite app_nil_r|].
  destruct (dict_set_keys (f x.1) x.2 m) as [ks1 H1].
  destruct (IH (dict_set (f x.1) x.2 m)) as [ks2 H2].
  exists (ks1 ++ ks2). by rewrite H2, H1, app_assoc.
Qed.

Lemma find_ext {A} (f g : A → bool) l :
  (∀ x, f x = g x) → find f l = find g l.
Proof. intros H. induction l as [|x l IH]; simpl; [done|]. by rewrite H, IH. Qed.

Lemma find_all_false {A} (f : A → bool) l : (∀ x, f x = false) → find f l = None.
Proof. intros H. induction l as [|x l IH]; simpl; [done|]. by rewrite H. Qed.

Lemma string_app_eqb p a b : String.eqb (p ++ a) (p ++ b) = String.eqb a b.
Proof.
  induction p as [|c p IH]; simpl; [done|]. by rewrite Ascii.eqb_refl.
Qed.

(** [X24] [deployment.output_values.update(deploy_result["outputs"])] gives every
    key of the outputs its (last) value there, leaves every other key with
    its old value, and keeps the existing keys first, in their order. *)
Theorem dict_update_get m o k :
  dict_get k (dict_update m o) =
    match find (fun kv => String.eqb k kv.1) (rev o) with
    | Some kv => Some kv.2
    | None => dict_get k m
    end ∧
  ∃ ks, map fst (dict_update m o) = map fst m ++ ks.
Proof.
  unfold dict_update. split; [apply (dict_get_fold (fun s => s))|].
  apply (dict_fold_keys (fun s => s)).
Qed.

(** [X25] [deployment_outputs[f"{resource_id}/{key}"] = str(value)] stores every
    output [key] of the resource under ["<resource_id>/<key>"] with its
    (last) value, and leaves every key that does not start with
    ["<resource_id>/"] unchanged. *)
Theorem record_outputs_get d outs k key :
  dict_get (resource_id d ++ "/" ++ k) (record_outputs d outs) =
    match find (fun kv => String.eqb k kv.1) (rev (output_values d)) with
    | Some kv => Some kv.2
    | None => dict_get (resource_id d ++ "/" ++ k) outs
    end ∧
  ((∀ k', key ≠ (resource_id d ++ "/" ++ k')%string) →
   dict_get key (record_outputs d outs) = dict_get key outs).
Proof.
  unfold record_outputs. split.
  - rewrite (dict_get_fold (fun s => resource_id d ++ "/" ++ s)%string).
    rewrite (find_ext _ (fun kv => String.eqb k kv.1)); [done|].
    intros kv. rewrite string_app_eqb. simpl. by rewrite ?Ascii.eqb_refl.
  - intros Hk. rewrite (dict_get_fold (fun s => resource_id d ++ "/" ++ s)%string).
    rewrite find_all_false; [done|].
    intros kv. by apply String.eqb_neq.
Qed.

End Deployer.
